(** * Email prediction engine (post_irp, cpp_inference_engine): a shallow embedding

    The inference pipeline of [cpp_inference_engine/cpp/src] is embedded as
    pure functions over byte strings, hash maps ([gmap]) and vectors (lists).
    C++ exceptions and undefined behaviour are explicit in the [outcome] type.
    Third-party libraries (ICU, rapidfuzz, LightGBM, the C++ standard
    library's [std::partial_sort]) are parameters of the definitions that call
    them; their documented contracts are stated as predicates. *)

From Stdlib Require Import ZArith QArith Qcanon Ascii String SpecFloat.
From stdpp Require Import base list strings gmap sorting.

Local Open Scope string_scope.
Local Open Scope list_scope.

(** ** Results of C++ calls

    A call either returns, throws one of the two standard exceptions the
    engine raises, or runs into undefined behaviour (a null or out-of-bounds
    access). *)

Inductive exn : Type :=
| runtime_error
| invalid_argument.

Inductive outcome (A : Type) : Type :=
| Returned (a : A)
| Thrown (e : exn)
| Undefined.

Arguments Returned {A} a.
Arguments Thrown {A} e.
Arguments Undefined {A}.

Global Instance outcome_ret : MRet outcome := fun A a => Returned a.

Global Instance outcome_bind : MBind outcome := fun A B k m =>
  match m with
  | Returned a => k a
  | Thrown e => Thrown e
  | Undefined => Undefined
  end.

(** ** Numbers

    [float] is IEEE binary32, as a [spec_float] of precision 24; the engine
    only stores floats and converts integers and booleans to them.

    [double] is IEEE binary64. The engine computes nothing with doubles: it
    receives them from the libraries and from the cache file, compares them
    and converts them to [int]. A double is modelled as what it denotes: a
    rational (both zeros as 0), an infinity or a NaN. *)

Definition float : Type := spec_float.

(** [static_cast<float>(int)]: round to nearest binary32. *)
Definition float_of_int (z : Z) : float := binary_normalize 24 128 z 0 false.

(** [static_cast<float>(bool)]: [0.0f] or [1.0f]. *)
Definition float_of_bool (b : bool) : float := float_of_int (Z.b2z b).

Definition float_zero : float := S754_zero false.
Definition float_one : float := S754_finite false 8388608 (-23).

Inductive double : Type :=
| Finite (q : Qc)
| Infinity (negative : bool)
| NaN.

(** The literal [0] of type double and the double of an integer literal. *)
Definition double_zero : double := Finite 0%Qc.
Definition double_of_Z (z : Z) : double := Finite (Qc_of_Z z).

Definition is_nan (d : double) : bool :=
  match d with NaN => true | _ => false end.

(** [a < b] and [a <= b] on doubles: false as soon as one side is a NaN. *)
Definition double_lt (a b : double) : bool :=
  match a, b with
  | NaN, _ | _, NaN => false
  | Finite p, Finite q => bool_decide (p < q)%Qc
  | Finite _, Infinity negative => negb negative
  | Infinity negative, Finite _ => negative
  | Infinity negative_a, Infinity negative_b => negative_a && negb negative_b
  end.

Definition double_le (a b : double) : bool :=
  match a, b with
  | NaN, _ | _, NaN => false
  | Finite p, Finite q => bool_decide (p ≤ q)%Qc
  | Finite _, Infinity negative => negb negative
  | Infinity negative, Finite _ => negative
  | Infinity negative_a, Infinity negative_b => negative_a || negb negative_b
  end.

(** [a > b] and [a >= b]. *)
Definition double_gt (a b : double) : bool := double_lt b a.
Definition double_ge (a b : double) : bool := double_le b a.

(** The integral part of a finite double. *)
Definition double_trunc (d : double) : option Z :=
  match d with
  | Finite q => Some (Z.quot (Qnum q) (Zpos (Qden q)))
  | Infinity _ | NaN => None
  end.

(** The values of [int] (32 bits). *)
Definition INT_MIN : Z := (- 2 ^ 31)%Z.
Definition int_fits (z : Z) : bool := (INT_MIN <=? z)%Z && (z <? 2 ^ 31)%Z.

(** Conversion of a double to [int]: truncation toward zero. When the
    integral part is no value of [int], and for the infinities and NaN, the
    C++ standard leaves the conversion undefined; the value is then the one
    the conversion instruction of x86-64 gives, [INT_MIN]. *)
Definition double_to_int (d : double) : Z :=
  match double_trunc d with
  | Some z => if int_fits z then z else INT_MIN
  | None => INT_MIN
  end.

(** ** Characters and strings ([std::string] as a byte string) *)

Definition char_in (set : string) (c : ascii) : bool :=
  existsb (Ascii.eqb c) (list_ascii_of_string set).

Definition string_empty (s : string) : bool :=
  match s with EmptyString => true | String _ _ => false end.

Definition push_back (s : string) (c : ascii) : string := s +:+ String c EmptyString.

Fixpoint string_drop (n : nat) (s : string) : string :=
  match n, s with
  | S n', String _ r => string_drop n' r
  | _, _ => s
  end.

Fixpoint string_filter (keep : ascii → bool) (s : string) : string :=
  match s with
  | EmptyString => EmptyString
  | String c r => if keep c then String c (string_filter keep r) else string_filter keep r
  end.

(** [s.find_first_not_of(set)] and [s.find_last_not_of(set)]; [None] is [npos]. *)
Fixpoint find_first_not_of (set : string) (s : string) : option nat :=
  match s with
  | EmptyString => None
  | String c r => if char_in set c then S <$> find_first_not_of set r else Some 0
  end.

Fixpoint find_last_not_of (set : string) (s : string) : option nat :=
  match s with
  | EmptyString => None
  | String c r =>
      match find_last_not_of set r with
      | Some i => Some (S i)
      | None => if char_in set c then None else Some 0
      end
  end.

(** [std::tolower] in the C locale. *)
Definition tolower (c : ascii) : ascii :=
  let n := N_of_ascii c in
  if ((65 <=? n) && (n <=? 90))%N then ascii_of_N (n + 32) else c.

(** [std::isspace] in the C locale (the class behind the regex [\s]). *)
Definition isspace (c : ascii) : bool :=
  let n := N_of_ascii c in (n =? 32)%N || ((9 <=? n) && (n <=? 13))%N.

(** [while (!tokens.empty() && p(tokens.front())) tokens.erase(tokens.begin())] *)
Fixpoint drop_while {A : Type} (p : A → bool) (l : list A) : list A :=
  match l with
  | [] => []
  | x :: l' => if p x then drop_while p l' else l
  end.

(** ** string_normalization (normalize.hpp, splitter.cpp) *)

Module string_normalization.

(** [GERMAN_ASCII_MAPPINGS] of name_feature_constants.hpp; the patterns are
    the UTF-8 encodings (two bytes each). *)
Definition GERMAN_ASCII_MAPPINGS : list (string * string) :=
  [("ü", "ue"); ("ö", "oe"); ("ä", "ae"); ("ß", "ss"); ("ø", "o"); ("å", "aa")].

(** [replace_german_chars]: at each position the first mapping whose pattern
    starts there is applied and the position advances past the pattern; the
    counter [skip] is the number of bytes of a matched pattern still to pass. *)
Fixpoint replace_german_chars_from (skip : nat) (lower_name : string) : string :=
  match lower_name with
  | EmptyString => EmptyString
  | String c rest =>
      match skip with
      | S k => replace_german_chars_from k rest
      | O =>
          match List.find (fun m => String.prefix m.1 lower_name) GERMAN_ASCII_MAPPINGS with
          | Some m => m.2 +:+ replace_german_chars_from (String.length m.1 - 1) rest
          | None => String c (replace_german_chars_from 0 rest)
          end
      end
  end.

Definition replace_german_chars (lower_name : string) : string :=
  replace_german_chars_from 0 lower_name.

Definition strip_to_ascii (input : string) : string :=
  string_filter (fun c => (N_of_ascii c <? 128)%N) input.

(** [nfkd_normalize]: [icu_nfkd] is ICU's NFKD normaliser, [None] when the
    library reports a failure (the input is then returned unchanged). *)
Definition nfkd_normalize (icu_nfkd : string → option string) (lower_name : string) : string :=
  match icu_nfkd lower_name with
  | None => lower_name
  | Some normalized => strip_to_ascii normalized
  end.

Fixpoint to_lower (input : string) : string :=
  match input with
  | EmptyString => EmptyString
  | String c r => String (tolower c) (to_lower r)
  end.

(** [StringViewSplitter::split_all]: runs of the delimiter are skipped and
    each maximal run of other bytes is a token; [cur] is the token being read. *)
Fixpoint split_all_from (delimiter : ascii) (cur : string) (str : string) : list string :=
  match str with
  | EmptyString => if string_empty cur then [] else [cur]
  | String c rest =>
      if Ascii.eqb c delimiter
      then (if string_empty cur then split_all_from delimiter EmptyString rest
            else cur :: split_all_from delimiter EmptyString rest)
      else split_all_from delimiter (push_back cur c) rest
  end.

Definition split_all (str : string) (delimiter : ascii) : list string :=
  split_all_from delimiter EmptyString str.

Definition split_all_strings (str : string) (delimiter : ascii) : list string :=
  split_all str delimiter.

End string_normalization.

(** [std::views::split(c)]: every part between delimiters, empty ones
    included; an empty string has no part. *)
Fixpoint views_split_from (delimiter : ascii) (cur : string) (s : string) : list string :=
  match s with
  | EmptyString => [cur]
  | String c rest =>
      if Ascii.eqb c delimiter then cur :: views_split_from delimiter EmptyString rest
      else views_split_from delimiter (push_back cur c) rest
  end.

Definition views_split (delimiter : ascii) (s : string) : list string :=
  if string_empty s then [] else views_split_from delimiter EmptyString s.

(** ** name_decomposer (name_decomposer.cpp) *)

Module name_decomposer.
Import string_normalization.

Definition WHITESPACE : string :=
  String " " (String "009" (String "010" (String "013" EmptyString))).

(** The four bytes double quote, apostrophe, [<] and [>]. *)
Definition PASTE_NOISE : string :=
  String "034" (String "039" (String "<" (String ">" EmptyString))).

Definition TRAILING_PUNCTUATION : string := ".,;:!?}]".

Definition REMOVABLE_TOKENS : list string :=
  ["jr"; "sr"; "ii"; "iii"; "iv"; "v"; "phd"; "md"; "esq"; "dr";
   "mr"; "mrs"; "ms"; "prof"; "sir"].

Definition SURNAME_PARTICLES : list string :=
  ["santa"; "san"; "st"; "von"; "van"; "de"; "der"; "dello"; "vander";
   "del"; "de la"; "vom"; "dela"; "de los"; "dos"; "la"; "los"; "le";
   "du"; "di"; "da"; "mac"; "al"; "abu"; "bin"; "ibn"; "della"].

Definition contains (arr : list string) (token : string) : bool :=
  existsb (String.eqb token) arr.

Definition trim (str : string) : string :=
  match find_first_not_of WHITESPACE str with
  | None => EmptyString
  | Some start =>
      match find_last_not_of WHITESPACE str with
      | Some e => substring start (e - start + 1) str
      | None => EmptyString
      end
  end.

Definition remove_tokens (tokens : list string) (removable_tokens : list string) : list string :=
  let front := drop_while (contains removable_tokens) tokens in
  rev (drop_while (contains removable_tokens) (rev front)).

(** [while (!result.empty() && set.find(result.back()) != npos) result.pop_back()] *)
Fixpoint pop_back_while (set : string) (result : string) : string :=
  match result with
  | EmptyString => EmptyString
  | String c r =>
      let r' := pop_back_while set r in
      if string_empty r' && char_in set c then EmptyString else String c r'
  end.

(** [std::regex_replace(result, std::regex("\\s{2,}"), " ")]: every maximal
    run of two or more whitespace bytes becomes one space; [run] is the run of
    whitespace being read. *)
Definition flush_run (run : string) : string :=
  if (2 <=? String.length run)%nat then " " else run.

Fixpoint collapse_spaces_from (run : string) (s : string) : string :=
  match s with
  | EmptyString => flush_run run
  | String c rest =>
      if isspace c then collapse_spaces_from (push_back run c) rest
      else flush_run run +:+ String c (collapse_spaces_from EmptyString rest)
  end.

Definition collapse_spaces (s : string) : string := collapse_spaces_from EmptyString s.

Fixpoint join_tokens (tokens : list string) : string :=
  match tokens with
  | [] => EmptyString
  | [t] => t
  | t :: rest => t +:+ String " " (join_tokens rest)
  end.

Definition normalize_full_name (icu_nfkd : string → option string) (raw_input : string) : string :=
  if string_empty raw_input then EmptyString
  else
    let trimmed := trim raw_input in
    if string_empty trimmed then EmptyString
    else
      let result := to_lower trimmed in
      let result := replace_german_chars result in
      let result := nfkd_normalize icu_nfkd result in
      let result := pop_back_while TRAILING_PUNCTUATION result in
      let result := string_filter (fun c => negb (char_in PASTE_NOISE c)) result in
      let result := collapse_spaces result in
      let tokens := split_all_strings result " " in
      let tokens := remove_tokens tokens REMOVABLE_TOKENS in
      if bool_decide (tokens = []) then EmptyString else join_tokens tokens.

Record NameDecomposer : Type := mkNameDecomposer {
  cleaned_full_name_ : string;
  first_names_ : list string;
  middle_names_ : list string;
  last_names_ : list string
}.

(** The first token: split on [-] when it has one, empty parts dropped. *)
Definition parse_first (part0 : string) : list string :=
  if char_in part0 "-"
  then List.filter (fun part => negb (string_empty part)) (views_split "-" part0)
  else [part0].

(** The loop over [parts[1..n)]: [parts] is what is left to read. *)
Fixpoint parse_rest (parts : list string) (middle last : list string)
  : list string * list string :=
  match parts with
  | [] => (middle, last)
  | p :: tl =>
      if contains SURNAME_PARTICLES p then (middle, (last ++ parts)%list)
      else
        match tl with
        | [] => (middle, (last ++ [p])%list)
        | _ :: _ => parse_rest tl (middle ++ [p])%list last
        end
  end.

Definition parse_name (cleaned : string) : NameDecomposer :=
  if string_empty cleaned then mkNameDecomposer cleaned [] [] []
  else
    match split_all_strings cleaned " " with
    | [] => mkNameDecomposer cleaned [] [] []
    | part0 :: rest =>
        let '(middle, last) := parse_rest rest [] [] in
        mkNameDecomposer cleaned (parse_first part0) middle last
    end.

(** The constructor [NameDecomposer::NameDecomposer(full_name)]. *)
Definition decompose (icu_nfkd : string → option string) (full_name : string) : NameDecomposer :=
  parse_name (normalize_full_name icu_nfkd full_name).

Definition get_first_names (nd : NameDecomposer) : list string := first_names_ nd.
Definition get_middle_names (nd : NameDecomposer) : list string := middle_names_ nd.
Definition get_last_names (nd : NameDecomposer) : list string := last_names_ nd.

Definition has_middle_name (nd : NameDecomposer) : bool :=
  negb (bool_decide (middle_names_ nd = [])).
Definition has_multiple_first_names (nd : NameDecomposer) : bool :=
  (1 <? length (first_names_ nd))%nat.
Definition has_multiple_middle_names (nd : NameDecomposer) : bool :=
  (1 <? length (middle_names_ nd))%nat.
Definition has_multiple_last_names (nd : NameDecomposer) : bool :=
  (1 <? length (last_names_ nd))%nat.

End name_decomposer.


(** ** data_loaders (templates_loader.hpp) *)

Module data_loaders.

Inductive Group : Type := First | Middle | Last | Unknown.

Record TemplateToken : Type := mkTemplateToken {
  group : Group;
  index : nat;
  use_original : bool;
  use_nfkd : bool;
  use_translit : bool;
  use_nickname : bool;
  use_surname_particle : bool;
  use_initial : bool;
  separator : option string
}.

Record CandidateTemplate : Type := mkCandidateTemplate {
  template_id : Z;
  token_seq : list TemplateToken;
  support_count : Z;
  coverage_pct : float;
  in_mined_rules : bool;
  max_rule_confidence : float;
  avg_rule_confidence : float;
  uses_middle_name : bool;
  uses_multiple_firsts : bool;
  uses_multiple_middles : bool;
  uses_multiple_lasts : bool
}.

Record FirmStats : Type := mkFirmStats {
  num_templates : Z;
  num_investors : Z;
  diversity_ratio : float;
  is_single_template : bool;
  is_shared_infra : bool;
  firm_is_multi_domain : bool
}.

Record FirmTemplateUsage : Type := mkFirmTemplateUsage {
  usage_support_count : Z;
  usage_coverage_pct : float;
  is_top_template : bool
}.

Record CacheEntry : Type := mkCacheEntry {
  canonical_firm : string;
  match_score : double
}.

(** [normalize_firm_name]: lowercases, keeps spaces and punctuation. *)
Definition normalize_firm_name (firm_name : string) : string :=
  string_normalization.to_lower firm_name.

End data_loaders.

(** ** features (investor_feature_extractor.cpp, name_feature_constants.hpp) *)

Module features.
Import string_normalization.

Record Flags : Type := mkFlags {
  has_german_char : bool;
  has_nfkd_normalized : bool;
  has_nickname : bool
}.

Definition NICKNAME_MAPPINGS : list (string * list string) :=
  [("alexander", ["alex"]); ("andrew", ["andy"]); ("anne", ["annie"; "nancy"]);
   ("arthur", ["art"]); ("benjamin", ["ben"]); ("william", ["bill"; "will"]);
   ("robert", ["bob"; "bobby"; "rob"]); ("catherine", ["cathy"]);
   ("charles", ["charlie"; "chuck"]); ("daniel", ["dan"; "danny"]);
   ("david", ["dave"]); ("donald", ["don"]); ("edward", ["ed"; "eddie"]);
   ("elizabeth", ["eliza"; "liz"; "liza"]); ("eleanor", ["ellie"]);
   ("francis", ["frank"]); ("frederick", ["fred"]); ("gerald", ["gary"; "jerry"]);
   ("gregory", ["greg"]); ("harold", ["harry"; "hal"]); ("john", ["jack"; "johnny"]);
   ("jacob", ["jake"]); ("janet", ["jan"]); ("jeffrey", ["jeff"]);
   ("jennifer", ["jen"; "jenny"]); ("james", ["jim"; "jimmy"]);
   ("joseph", ["joe"; "joey"; "jody"]); ("jonathan", ["jon"]); ("joshua", ["josh"]);
   ("joy", ["joyce"]); ("judith", ["judy"]); ("katherine", ["kate"; "kathy"]);
   ("kenneth", ["ken"]); ("lawrence", ["larry"]); ("lewis", ["lou"]);
   ("margaret", ["maggie"; "marge"]); ("martin", ["marty"]); ("matthew", ["matt"]);
   ("megan", ["meg"]); ("melvin", ["mel"]); ("michael", ["mike"]);
   ("nicholas", ["nick"]); ("patrick", ["pat"]); ("peter", ["pete"]);
   ("philip", ["phil"]); ("richard", ["rick"; "rich"]); ("ronald", ["ron"]);
   ("samuel", ["sam"]); ("steven", ["steve"]); ("susan", ["sue"]);
   ("theodore", ["ted"]); ("terence", ["terry"]); ("timothy", ["tim"]);
   ("thomas", ["tom"]); ("anthony", ["tony"]); ("victor", ["vic"]);
   ("zachary", ["zack"; "zak"]); ("nastya", ["nastia"]); ("douglas", ["doug"]);
   ("mitchell", ["mitch"]); ("wesley", ["wes"]); ("patricia", ["tricia"]);
   ("rajiv", ["raj"])].

Definition find_nicknames (formal_name : string) : list string :=
  match List.find (fun entry => String.eqb entry.1 formal_name) NICKNAME_MAPPINGS with
  | Some entry => entry.2
  | None => []
  end.

(** Length of the UTF-8 sequence a lead byte announces. *)
Definition utf8_len (c : ascii) : nat :=
  let n := N_of_ascii c in
  if (N.land n 224 =? 192)%N then 2
  else if (N.land n 240 =? 224)%N then 3
  else if (N.land n 248 =? 240)%N then 4
  else 1.

(** [parse_utf8_chars]: [cur] is the character being read and [need] the
    number of its bytes still to come; a sequence cut short by the end of the
    input is emitted as it is. *)
Fixpoint parse_utf8_chars_from (cur : string) (need : nat) (s : string) : list string :=
  match s with
  | EmptyString => if string_empty cur then [] else [cur]
  | String c rest =>
      match need with
      | O =>
          match utf8_len c with
          | S (S k) => parse_utf8_chars_from (String c EmptyString) (S k) rest
          | _ => String c EmptyString :: parse_utf8_chars_from EmptyString 0 rest
          end
      | S O => push_back cur c :: parse_utf8_chars_from EmptyString 0 rest
      | S k => parse_utf8_chars_from (push_back cur c) k rest
      end
  end.

Definition parse_utf8_chars (s : string) : list string :=
  parse_utf8_chars_from EmptyString 0 s.

Definition has_german_characters (name_chars : list string) : bool :=
  existsb (fun ch => negb (String.eqb (replace_german_chars ch) ch)) name_chars.

Definition would_nfkd_normalize (icu_nfkd : string → option string) (lower_name : string) : bool :=
  negb (String.eqb (nfkd_normalize icu_nfkd lower_name) lower_name).

(** [lower_name.find(' ', start)], counted from [start]; [None] is [npos]. *)
Fixpoint find_char (c : ascii) (s : string) : option nat :=
  match s with
  | EmptyString => None
  | String d r => if Ascii.eqb d c then Some 0 else S <$> find_char c r
  end.

Definition extract_first_token (lower_name : string) : string :=
  match find_first_not_of " " lower_name with
  | None => EmptyString
  | Some start =>
      let tail := string_drop start lower_name in
      match find_char " " tail with
      | Some len => substring 0 len tail
      | None => tail
      end
  end.

Definition extract (icu_nfkd : string → option string) (full_name : string) : Flags :=
  if string_empty full_name then mkFlags false false false
  else
    let lower := to_lower full_name in
    let chars := parse_utf8_chars lower in
    let first_token := extract_first_token lower in
    mkFlags (has_german_characters chars)
            (would_nfkd_normalize icu_nfkd lower)
            (if string_empty first_token then false
             else negb (bool_decide (find_nicknames first_token = []))).

End features.

(** ** features::builder (feature_matrix_builder.cpp) *)

Module builder.
Import data_loaders features name_decomposer.

Definition FEATURES_PER_ROW : nat := 27.

Definition emplace_back {A : Type} (v : list A) (x : A) : list A := v ++ [x].

(** [FirmStats{}]: the value-initialised record used for an unknown firm. *)
Definition dummy_stats : FirmStats := mkFirmStats 0 0 float_zero false false false.

(** The body of the loop over [templates]: 27 values appended for [tmpl]. *)
Definition append_row (name_has_middle name_has_multiple_firsts
                       name_has_multiple_middles name_has_multiple_lasts : bool)
    (flags : Flags) (stats : FirmStats)
    (firm_template_usage : gmap Z FirmTemplateUsage)
    (flat_matrix : list float) (tmpl : CandidateTemplate) : list float :=
  let usage_it := firm_template_usage !! template_id tmpl in
  let in_firm_templates := bool_decide (is_Some usage_it) in
  let firm_support_count := match usage_it with Some usage => usage_support_count usage | None => 0%Z end in
  let firm_coverage_pct := match usage_it with Some usage => usage_coverage_pct usage | None => float_zero end in
  let is_top := match usage_it with Some usage => is_top_template usage | None => false end in
  let clash :=
    (uses_middle_name tmpl && name_has_middle) ||
    (uses_multiple_firsts tmpl && name_has_multiple_firsts) ||
    (uses_multiple_middles tmpl && name_has_multiple_middles) ||
    (uses_multiple_lasts tmpl && name_has_multiple_lasts) in
  let flat_matrix := emplace_back flat_matrix (float_of_bool in_firm_templates) in
  let flat_matrix := emplace_back flat_matrix (float_of_bool (is_shared_infra stats)) in
  let flat_matrix := emplace_back flat_matrix (float_of_bool (firm_is_multi_domain stats)) in
  let flat_matrix := emplace_back flat_matrix (float_of_bool (has_german_char flags)) in
  let flat_matrix := emplace_back flat_matrix (float_of_bool (has_nfkd_normalized flags)) in
  let flat_matrix := emplace_back flat_matrix (float_of_bool (has_nickname flags)) in
  let flat_matrix := emplace_back flat_matrix (float_of_bool name_has_multiple_firsts) in
  let flat_matrix := emplace_back flat_matrix (float_of_bool name_has_middle) in
  let flat_matrix := emplace_back flat_matrix (float_of_bool name_has_multiple_middles) in
  let flat_matrix := emplace_back flat_matrix (float_of_bool name_has_multiple_lasts) in
  let flat_matrix := emplace_back flat_matrix (float_of_int (support_count tmpl)) in
  let flat_matrix := emplace_back flat_matrix (coverage_pct tmpl) in
  let flat_matrix := emplace_back flat_matrix (float_of_bool (in_mined_rules tmpl)) in
  let flat_matrix := emplace_back flat_matrix (max_rule_confidence tmpl) in
  let flat_matrix := emplace_back flat_matrix (avg_rule_confidence tmpl) in
  let flat_matrix := emplace_back flat_matrix (float_of_bool (uses_middle_name tmpl)) in
  let flat_matrix := emplace_back flat_matrix (float_of_bool (uses_multiple_firsts tmpl)) in
  let flat_matrix := emplace_back flat_matrix (float_of_bool (uses_multiple_middles tmpl)) in
  let flat_matrix := emplace_back flat_matrix (float_of_bool (uses_multiple_lasts tmpl)) in
  let flat_matrix := emplace_back flat_matrix (float_of_int firm_support_count) in
  let flat_matrix := emplace_back flat_matrix firm_coverage_pct in
  let flat_matrix := emplace_back flat_matrix (float_of_bool is_top) in
  let flat_matrix := emplace_back flat_matrix (float_of_bool clash) in
  let flat_matrix := emplace_back flat_matrix (float_of_int (num_templates stats)) in
  let flat_matrix := emplace_back flat_matrix (float_of_int (num_investors stats)) in
  let flat_matrix := emplace_back flat_matrix (diversity_ratio stats) in
  let flat_matrix := emplace_back flat_matrix (float_of_bool (is_single_template stats)) in
  flat_matrix.

Definition build_feature_rows (investor_name : NameDecomposer) (flags : Flags)
    (firm_name : string) (templates : list CandidateTemplate)
    (firm_stats : gmap string FirmStats)
    (firm_template_usage_map : gmap string (gmap Z FirmTemplateUsage)) : list float :=
  let name_has_middle := has_middle_name investor_name in
  let name_has_multiple_firsts := has_multiple_first_names investor_name in
  let name_has_multiple_middles := has_multiple_middle_names investor_name in
  let name_has_multiple_lasts := has_multiple_last_names investor_name in
  let stats := default dummy_stats (firm_stats !! firm_name) in
  let firm_template_usage := default ∅ (firm_template_usage_map !! firm_name) in
  foldl (append_row name_has_middle name_has_multiple_firsts
                    name_has_multiple_middles name_has_multiple_lasts
                    flags stats firm_template_usage)
        [] templates.

End builder.


(** ** Template predictors (template_prediction.hpp, light_gbm_template_predictor.cpp,
       catboost_template_predictor.cpp) *)

Module predictor.
Import data_loaders builder.

(** [metadata] points into the template vector, which is never modified
    after loading: the pointer is modelled by the template it points to. *)
Record TemplatePrediction : Type := mkTemplatePrediction {
  pred_index : nat;
  score : double;
  pred_template_id : Z;
  metadata : CandidateTemplate
}.

(** The comparator handed to [std::partial_sort]. *)
Definition by_score_desc (a b : TemplatePrediction) : bool :=
  double_gt (score a) (score b).

(** The loop building [results]: [templates[i]] is an unchecked access. *)
Fixpoint build_results (i : nat) (scores : list double)
    (templates : list CandidateTemplate) : outcome (list TemplatePrediction) :=
  match scores with
  | [] => Returned []
  | sc :: scores' =>
      match templates !! i with
      | None => Undefined
      | Some tmpl =>
          rest ← build_results (S i) scores' templates;
          Returned (mkTemplatePrediction i sc (template_id tmpl) tmpl :: rest)
      end
  end.

Section Backends.

(** [std::partial_sort(first, first + middle, last, comp)] on a vector. *)
Variable partial_sort :
  (TemplatePrediction → TemplatePrediction → bool) → nat →
  list TemplatePrediction → list TemplatePrediction.

(** The tail shared by both backends: sort what is needed, cut to [top_k]. *)
Definition select_top (results : list TemplatePrediction) (top_k : nat)
  : list TemplatePrediction :=
  let sort_size := Nat.min top_k (length results) in
  let results := partial_sort by_score_desc sort_size results in
  if (top_k <? length results)%nat then take top_k results else results.

(** [LGBM_BoosterPredictForMat(booster, data, FLOAT32, nrow, ncol, ...)]: the
    error code, [out_len], and the output buffer (of [nrow] doubles) after
    the call. *)
Variable LGBM_BoosterPredictForMat :
  list float → nat → nat → Z * nat * list double.

Definition lgbm_predict_scores (flat_matrix : list float) : outcome (list double) :=
  if bool_decide (flat_matrix = []) then Returned []
  else
    let num_rows := (length flat_matrix / FEATURES_PER_ROW)%nat in
    let '(err, out_len, predictions) :=
      LGBM_BoosterPredictForMat flat_matrix num_rows FEATURES_PER_ROW in
    if bool_decide (err ≠ 0%Z) then Thrown runtime_error
    else Returned (if bool_decide (out_len ≠ num_rows)
                   then resize out_len double_zero predictions else predictions).

(** [LightGBMTemplatePredictor::predict_top_templates] *)
Definition lgbm_predict_top_templates (flat_matrix : list float)
    (templates : list CandidateTemplate) (top_k : nat)
  : outcome (list TemplatePrediction) :=
  if bool_decide (flat_matrix = []) || bool_decide (templates = []) then Returned []
  else if bool_decide (length flat_matrix ≠ (length templates * FEATURES_PER_ROW)%nat)
  then Thrown invalid_argument
  else
    scores ← lgbm_predict_scores flat_matrix;
    results ← build_results 0 scores templates;
    Returned (select_top results top_k).

(** [CalcModelPredictionFlat(model, num_rows, rows, ncol, out, size)]: success
    flag and the output buffer after the call. *)
Variable CalcModelPredictionFlat :
  list float → nat → nat → bool * list double.

(** [CatBoostTemplatePredictor::predict_top_templates] *)
Definition catboost_predict_top_templates (flat_matrix : list float)
    (templates : list CandidateTemplate) (top_k : nat)
  : outcome (list TemplatePrediction) :=
  if bool_decide (length flat_matrix ≠ (length templates * FEATURES_PER_ROW)%nat)
  then Thrown invalid_argument
  else
    let num_rows := (length flat_matrix / FEATURES_PER_ROW)%nat in
    let '(ok, predictions) :=
      CalcModelPredictionFlat flat_matrix num_rows FEATURES_PER_ROW in
    if negb ok then Thrown runtime_error
    else
      results ← build_results 0 (take num_rows predictions) templates;
      Returned (select_top results top_k).

End Backends.

(** *** Contracts of the libraries the backends call *)

(** The C++ standard on [std::partial_sort]: when the comparator is a strict
    weak ordering of the elements of the vector, the first [middle] elements
    are the [middle] least ones in sorted order; the order of the rest, and
    of equivalent elements, is unspecified. The algorithm reaches the
    elements only to compare and to move them, so the vector is a
    permutation of what it was whatever the comparator answers. [middle] is
    within the vector. *)
Definition strict_weak_order {A : Type} (comp : A → A → bool) (l : list A) : Prop :=
  (∀ a b, a ∈ l → b ∈ l → comp a b = false ∨ comp b a = false) ∧
  (∀ a b c, a ∈ l → b ∈ l → c ∈ l →
     comp b a = false → comp c b = false → comp c a = false).

(** [a] may stand before [b] in a sequence sorted by [comp]. *)
Definition not_after {A : Type} (comp : A → A → bool) : relation A :=
  λ a b, comp b a = false.

Definition partial_sort_contract {A : Type}
    (partial_sort : (A → A → bool) → nat → list A → list A) : Prop :=
  ∀ comp middle l, (middle ≤ length l)%nat →
    partial_sort comp middle l ≡ₚ l ∧
    (strict_weak_order comp l →
     StronglySorted (not_after comp) (take middle (partial_sort comp middle l)) ∧
     (∀ a b, a ∈ take middle (partial_sort comp middle l) →
             b ∈ drop middle (partial_sort comp middle l) → not_after comp a b)).

(** LightGBM's C API for a single-output model: the buffer holds [nrow]
    doubles and a successful call reports [out_len = nrow]. *)
Definition lgbm_contract (LGBM_BoosterPredictForMat : list float → nat → nat → Z * nat * list double)
  : Prop :=
  ∀ data nrow ncol err out_len out,
    LGBM_BoosterPredictForMat data nrow ncol = (err, out_len, out) →
    length out = nrow ∧ (err = 0%Z → out_len = nrow).

(** Models whose predictions are numbers: no score they compute is a NaN. *)
Definition no_nan (scores : list double) : Prop :=
  Forall (λ sc, is_nan sc = false) scores.

(** Rows without NaN scores. *)
Definition nan_free (results : list TemplatePrediction) : Prop :=
  Forall (λ r, is_nan (score r) = false) results.

Definition lgbm_no_nan
    (LGBM_BoosterPredictForMat : list float → nat → nat → Z * nat * list double) : Prop :=
  ∀ data nrow ncol, no_nan (LGBM_BoosterPredictForMat data nrow ncol).2.

Definition catboost_no_nan
    (CalcModelPredictionFlat : list float → nat → nat → bool * list double) : Prop :=
  ∀ data nrow ncol, no_nan (CalcModelPredictionFlat data nrow ncol).2.

End predictor.

(** ** domain_resolver (domain_resolver.cpp) *)

Module domain_resolver.
Import data_loaders.

Record DomainResolver : Type := mkDomainResolver {
  firm_to_domain_ : gmap string string;
  firm_cache_ : gmap string (string * CacheEntry)
}.

Section Resolver.

(** [rapidfuzz::fuzz::CachedRatio<char>(query).similarity(firm)] *)
Variable similarity : string → string → double.

(** One step of the selection loop; [best] stands for the two pointers
    [best_firm] and [best_domain], which are set together. *)
Definition best_match_step (query : string)
    (acc : double * option (string * string)) (entry : string * string)
  : double * option (string * string) :=
  let '(best_score, best) := acc in
  let '(firm, domain) := entry in
  let sc := similarity query firm in
  if double_ge sc best_score then (sc, Some (firm, domain)) else (best_score, best).

(** [findBestFirmMatch]: the loop runs over the map in the container's
    order. [std::unordered_map] fixes no order; [map_to_list] stands for
    one, and which of several firms of equal best score is kept depends on
    it. Dereferencing the null pointers is undefined. *)
Definition findBestFirmMatch (query : string) (firm_to_domain : gmap string string)
  : outcome (string * CacheEntry) :=
  let '(best_score, best) :=
    foldl (best_match_step query) (double_zero, None) (map_to_list firm_to_domain) in
  match best with
  | None => Undefined
  | Some (best_firm, best_domain) => Returned (best_domain, mkCacheEntry best_firm best_score)
  end.

(** [DomainResolver::resolve_domain]: the tuple returned and the resolver
    after the call (the cache is [mutable]). *)
Definition resolve_domain (r : DomainResolver) (raw_firm_name : string)
  : outcome ((string * string * Z) * DomainResolver) :=
  let normalized_name := normalize_firm_name raw_firm_name in
  match firm_to_domain_ r !! normalized_name with
  | Some domain => Returned ((domain, normalized_name, 100%Z), r)
  | None =>
      match firm_cache_ r !! normalized_name with
      | Some (domain, entry) =>
          Returned ((domain, canonical_firm entry, double_to_int (match_score entry)), r)
      | None =>
          best_match ← findBestFirmMatch normalized_name (firm_to_domain_ r);
          let r' := mkDomainResolver (firm_to_domain_ r)
                      (<[normalized_name := best_match]> (firm_cache_ r)) in
          Returned ((best_match.1, canonical_firm best_match.2,
                     double_to_int (match_score best_match.2)), r')
      end
  end.

End Resolver.

End domain_resolver.

(** ** local_part_resolver (resolve_email_local_part.cpp) *)

Module local_part_resolver.
Import data_loaders name_decomposer string_normalization.

Definition get_name_group (nd : NameDecomposer) (g : Group) : outcome (list string) :=
  match g with
  | First => Returned (get_first_names nd)
  | Middle => Returned (get_middle_names nd)
  | Last => Returned (get_last_names nd)
  | Unknown => Thrown invalid_argument
  end.

(** The loop over [token_seq]; [oss] is the stream written so far and
    [None] is [std::nullopt]. *)
Fixpoint resolve_from (oss : string) (name : NameDecomposer)
    (token_seq : list TemplateToken) : outcome (option string) :=
  match token_seq with
  | [] => Returned (Some oss)
  | token :: rest =>
      match separator token with
      | Some sep => resolve_from (oss +:+ sep) name rest
      | None =>
          group_vec ← get_name_group name (group token);
          match group_vec !! index token with
          | None => Returned None
          | Some raw =>
              if use_initial token then
                match raw with
                | EmptyString => Returned None
                | String c _ =>
                    resolve_from (oss +:+ to_lower (String (tolower c) EmptyString)) name rest
                end
              else resolve_from (oss +:+ to_lower raw) name rest
          end
      end
  end.

Definition resolve_email_local_part (name : NameDecomposer)
    (token_seq : list TemplateToken) : outcome (option string) :=
  resolve_from EmptyString name token_seq.

End local_part_resolver.

(** ** The prediction engine (email_prediction_engine.cpp) *)

Module engine.
Import data_loaders features name_decomposer builder predictor domain_resolver
       local_part_resolver.

Record VerificationResult : Type := mkVerificationResult {
  verified_email : string;
  status : string;
  verification_score : Z;
  is_deliverable : bool;
  raw_json : string
}.

Record EnrichmentResult : Type := mkEnrichmentResult {
  enriched_email : string;
  enriched_name : string;
  job_title : string;
  linkedin_url : string;
  location : string;
  phone : string;
  enrichment_raw_json : string
}.

Record EmailPredictionResult : Type := mkEmailPredictionResult {
  email : string;
  result_score : double;
  result_template_id : Z;
  verification_result : option VerificationResult;
  enrichment_result : option EnrichmentResult
}.

(** [Pred::predict_top_templates], for either backend. *)
Definition Pred : Type :=
  list float → list CandidateTemplate → nat → outcome (list TemplatePrediction).

(** The members of [EmailPredictionEngine<Pred>]; the two clients are the
    answers of the remote services. *)
Record EmailPredictionEngine : Type := mkEmailPredictionEngine {
  std_predictor_ : Pred;
  complex_predictor_ : Pred;
  verification_pipeline_ : option (string → option VerificationResult);
  enrichment_pipeline_ : option (string → string → string → option EnrichmentResult);
  std_templates_ : list CandidateTemplate;
  complex_templates_ : list CandidateTemplate;
  firm_stats_ : gmap string FirmStats;
  firm_usage_map_ : gmap string (gmap Z FirmTemplateUsage);
  domain_resolver_ : option DomainResolver
}.

Definition with_resolver (e : EmailPredictionEngine) (r : DomainResolver)
  : EmailPredictionEngine :=
  mkEmailPredictionEngine (std_predictor_ e) (complex_predictor_ e)
    (verification_pipeline_ e) (enrichment_pipeline_ e)
    (std_templates_ e) (complex_templates_ e) (firm_stats_ e) (firm_usage_map_ e)
    (Some r).

(** The loop formatting results: a template that does not apply is skipped. *)
Fixpoint format_results (name_struct : NameDecomposer) (domain_string : string)
    (top_predictions : list TemplatePrediction) : outcome (list EmailPredictionResult) :=
  match top_predictions with
  | [] => Returned []
  | pred :: rest =>
      local_part ← resolve_email_local_part name_struct (token_seq (metadata pred));
      results ← format_results name_struct domain_string rest;
      match local_part with
      | Some lp =>
          Returned (mkEmailPredictionResult (lp +:+ "@" +:+ domain_string)
                      (score pred) (pred_template_id pred) None None :: results)
      | None => Returned results
      end
  end.

(** The verification loop: [i] is the position of the result being
    verified, [best] the position and score behind [best_result_ptr]. *)
Fixpoint verify_results (verify_email : string → option VerificationResult)
    (i : nat) (best : option (nat * Z)) (results : list EmailPredictionResult)
  : list EmailPredictionResult * option (nat * Z) :=
  match results with
  | [] => ([], best)
  | result :: rest =>
      let v := verify_email (email result) in
      let result' := mkEmailPredictionResult (email result) (result_score result)
                       (result_template_id result) v (enrichment_result result) in
      let best' :=
        match v with
        | Some vr =>
            match best with
            | None => Some (i, verification_score vr)
            | Some (_, best_score) =>
                if (best_score <? verification_score vr)%Z
                then Some (i, verification_score vr) else best
            end
        | None => best
        end in
      let '(rest', best'') := verify_results verify_email (S i) best' rest in
      (result' :: rest', best'')
  end.

Definition set_enrichment (enriched : EnrichmentResult) (r : EmailPredictionResult)
  : EmailPredictionResult :=
  mkEmailPredictionResult (email r) (result_score r) (result_template_id r)
    (verification_result r) (Some enriched).

Definition post_process (e : EmailPredictionEngine) (investor_name firm_name : string)
    (results : list EmailPredictionResult) : list EmailPredictionResult :=
  let '(results, best) :=
    match verification_pipeline_ e with
    | Some verifier => verify_results verifier 0 None results
    | None => (results, None)
    end in
  match enrichment_pipeline_ e, best with
  | Some enrich, Some (i, _) =>
      match results !! i with
      | Some best_result =>
          match enrich investor_name firm_name (email best_result) with
          | Some enriched => alter (set_enrichment enriched) i results
          | None => results
          end
      | None => results
      end
  | _, _ => results
  end.

Section Engine.

(** ICU's NFKD normaliser, and rapidfuzz's ratio. *)
Variable icu_nfkd : string → option string.
Variable similarity : string → string → double.

(** The name shape that selects the complex model. *)
Definition complex_name (name_struct : NameDecomposer) (flags : Flags) : bool :=
  has_middle_name name_struct ||
  has_multiple_first_names name_struct ||
  has_multiple_last_names name_struct ||
  has_german_char flags || has_nfkd_normalized flags.

(** The first step of [predict]: the domain string, and the engine after
    the resolver's call. *)
Definition resolve_query_domain (e : EmailPredictionEngine) (firm_name : string)
    (domain : option string) : outcome (string * EmailPredictionEngine) :=
  match domain with
  | Some d => Returned (d, e)
  | None =>
      match domain_resolver_ e with
      | Some r =>
          res ← resolve_domain similarity r firm_name;
          Returned (res.1.1.1, with_resolver e res.2)
      | None => Thrown runtime_error
      end
  end.

(** [EmailPredictionEngine<Pred>::predict]: the rows returned and the engine
    after the call (only the resolver's cache can differ). *)
Definition predict (e : EmailPredictionEngine) (investor_name firm_name : string)
    (top_k : nat) (domain : option string)
  : outcome (list EmailPredictionResult * EmailPredictionEngine) :=
  resolved ← resolve_query_domain e firm_name domain;
  let '(domain_string, e') := resolved in
  let name_struct := decompose icu_nfkd investor_name in
  let flags := extract icu_nfkd investor_name in
  let complex := complex_name name_struct flags in
  let feature_rows :=
    build_feature_rows name_struct flags firm_name
      (if complex then complex_templates_ e else std_templates_ e)
      (firm_stats_ e) (firm_usage_map_ e) in
  top_predictions ←
    (if complex
     then complex_predictor_ e feature_rows (complex_templates_ e) top_k
     else std_predictor_ e feature_rows (std_templates_ e) top_k);
  results ← format_results name_struct domain_string top_predictions;
  Returned (post_process e investor_name firm_name results, e').

End Engine.

End engine.


(** ** The feature schema as the specification words it

    Twenty-seven named features in the fixed order of the schema; a missing
    firm or usage entry stands for zeros, booleans are [0.0f] or [1.0f]. *)

Module feature_schema.
Import data_loaders name_decomposer.

Record FeatureRow : Type := mkFeatureRow {
  in_firm_templates : bool;
  firm_is_shared_infra : bool;
  firm_is_multi_domain : bool;
  has_german_char : bool;
  has_nfkd_normalized : bool;
  has_nickname : bool;
  name_has_multiple_firsts : bool;
  name_has_middle : bool;
  name_has_multiple_middles : bool;
  name_has_multiple_lasts : bool;
  template_support_count : Z;
  template_coverage_pct : float;
  template_in_mined_rules : bool;
  template_max_rule_confidence : float;
  template_avg_rule_confidence : float;
  template_uses_middle_name : bool;
  template_uses_multiple_firsts : bool;
  template_uses_multiple_middles : bool;
  template_uses_multiple_lasts : bool;
  firm_support_count : Z;
  firm_coverage_pct : float;
  firm_is_top_template : bool;
  template_name_characteristic_clash : bool;
  firm_num_templates : Z;
  firm_num_investors : Z;
  firm_diversity_ratio : float;
  firm_is_single_template : bool
}.

Definition encode_bool (b : bool) : float := if b then float_one else float_zero.

Definition encode_count (n : Z) : float := float_of_int n.

(** The features of one candidate template for a name, its flags and a firm. *)
Definition features_of (name : NameDecomposer) (flags : features.Flags)
    (firm_name : string) (firm_stats : gmap string FirmStats)
    (usage_map : gmap string (gmap Z FirmTemplateUsage))
    (tmpl : CandidateTemplate) : FeatureRow :=
  let stats := firm_stats !! firm_name in
  let usage := usage_map !! firm_name ≫= (fun m => m !! template_id tmpl) in
  {| in_firm_templates := bool_decide (is_Some usage);
     firm_is_shared_infra := from_option is_shared_infra false stats;
     firm_is_multi_domain := from_option data_loaders.firm_is_multi_domain false stats;
     has_german_char := features.has_german_char flags;
     has_nfkd_normalized := features.has_nfkd_normalized flags;
     has_nickname := features.has_nickname flags;
     name_has_multiple_firsts := has_multiple_first_names name;
     name_has_middle := has_middle_name name;
     name_has_multiple_middles := has_multiple_middle_names name;
     name_has_multiple_lasts := has_multiple_last_names name;
     template_support_count := support_count tmpl;
     template_coverage_pct := coverage_pct tmpl;
     template_in_mined_rules := in_mined_rules tmpl;
     template_max_rule_confidence := max_rule_confidence tmpl;
     template_avg_rule_confidence := avg_rule_confidence tmpl;
     template_uses_middle_name := uses_middle_name tmpl;
     template_uses_multiple_firsts := uses_multiple_firsts tmpl;
     template_uses_multiple_middles := uses_multiple_middles tmpl;
     template_uses_multiple_lasts := uses_multiple_lasts tmpl;
     firm_support_count := from_option usage_support_count 0%Z usage;
     firm_coverage_pct := from_option usage_coverage_pct float_zero usage;
     firm_is_top_template := from_option is_top_template false usage;
     template_name_characteristic_clash :=
       bool_decide
         ((uses_middle_name tmpl = true ∧ has_middle_name name = true) ∨
          (uses_multiple_firsts tmpl = true ∧ has_multiple_first_names name = true) ∨
          (uses_multiple_middles tmpl = true ∧ has_multiple_middle_names name = true) ∨
          (uses_multiple_lasts tmpl = true ∧ has_multiple_last_names name = true));
     firm_num_templates := from_option num_templates 0%Z stats;
     firm_num_investors := from_option num_investors 0%Z stats;
     firm_diversity_ratio := from_option diversity_ratio float_zero stats;
     firm_is_single_template := from_option is_single_template false stats |}.

(** The row of a feature record, in schema order (index 0 first). *)
Definition encode_row (r : FeatureRow) : list float :=
  [ encode_bool (in_firm_templates r);
    encode_bool (firm_is_shared_infra r);
    encode_bool (firm_is_multi_domain r);
    encode_bool (has_german_char r);
    encode_bool (has_nfkd_normalized r);
    encode_bool (has_nickname r);
    encode_bool (name_has_multiple_firsts r);
    encode_bool (name_has_middle r);
    encode_bool (name_has_multiple_middles r);
    encode_bool (name_has_multiple_lasts r);
    encode_count (template_support_count r);
    template_coverage_pct r;
    encode_bool (template_in_mined_rules r);
    template_max_rule_confidence r;
    template_avg_rule_confidence r;
    encode_bool (template_uses_middle_name r);
    encode_bool (template_uses_multiple_firsts r);
    encode_bool (template_uses_multiple_middles r);
    encode_bool (template_uses_multiple_lasts r);
    encode_count (firm_support_count r);
    firm_coverage_pct r;
    encode_bool (firm_is_top_template r);
    encode_bool (template_name_characteristic_clash r);
    encode_count (firm_num_templates r);
    encode_count (firm_num_investors r);
    firm_diversity_ratio r;
    encode_bool (firm_is_single_template r) ].

End feature_schema.

(** ** Auxiliary notions used in the statements *)

(** ICU's NFKD on a pure ASCII string: a successful call returns the
    string itself (ASCII characters have no decomposition). *)
Definition is_ascii_string (s : string) : bool :=
  forallb (fun c => (N_of_ascii c <? 128)%N) (list_ascii_of_string s).

Definition nfkd_fixes_ascii (icu_nfkd : string → option string) : Prop :=
  ∀ s n, is_ascii_string s = true → icu_nfkd s = Some n → n = s.

(** A stand-in for ICU on ASCII input, used to run the model. *)
Definition icu_ascii (s : string) : option string := Some s.

Definition all_hyphens (t : string) : bool :=
  forallb (Ascii.eqb "-") (list_ascii_of_string t).

(** The name group a token refers to ([names_of] of the specification);
    a token whose group is [Unknown] refers to none. *)
Definition names_of (nd : name_decomposer.NameDecomposer) (g : data_loaders.Group)
  : option (list string) :=
  match g with
  | data_loaders.First => Some (name_decomposer.first_names_ nd)
  | data_loaders.Middle => Some (name_decomposer.middle_names_ nd)
  | data_loaders.Last => Some (name_decomposer.last_names_ nd)
  | data_loaders.Unknown => None
  end.




Definition token_has_group (t : data_loaders.TemplateToken) : Prop :=
  data_loaders.separator t = None → data_loaders.group t ≠ data_loaders.Unknown.

(** Sample tokens: a separator, a full name component, an initial. *)
Definition sep_token (s : string) : data_loaders.TemplateToken :=
  data_loaders.mkTemplateToken data_loaders.Unknown 0 false false false false false false (Some s).

Definition name_token (g : data_loaders.Group) (i : nat) : data_loaders.TemplateToken :=
  data_loaders.mkTemplateToken g i true false false false false false None.



(** rapidfuzz's ratio is a percentage: it is never negative. *)
Definition similarity_nonneg (similarity : string → string → double) : Prop :=
  ∀ query firm, double_ge (similarity query firm) double_zero = true.

(** A stand-in for rapidfuzz used to run the model: 100 on equal strings,
    50 otherwise. *)
Definition sample_similarity (query firm : string) : double :=
  if String.eqb query firm then double_of_Z 100 else double_of_Z 50.

Definition sample_resolver : domain_resolver.DomainResolver :=
  domain_resolver.mkDomainResolver
    (<["acme capital" := "acme.com"]> (<["cvc" := "cvc.com"]> ∅)) ∅.


(** ** Stand-ins for the libraries, used to run the model *)

(** A [std::partial_sort] that meets the contract: insertion sort of the
    whole vector, each element placed before the elements it is equivalent
    to. *)
Fixpoint insert_before_equal {A : Type} (comp : A → A → bool) (x : A) (l : list A)
  : list A :=
  match l with
  | [] => [x]
  | y :: l' => if comp y x then y :: insert_before_equal comp x l' else x :: y :: l'
  end.

Definition insertion_partial_sort {A : Type} (comp : A → A → bool) (middle : nat)
    (l : list A) : list A :=
  foldl (λ sorted x, insert_before_equal comp x sorted) [] l.

(** GNU libstdc++'s [std::partial_sort] (bits/stl_heap.h and
    bits/stl_algo.h): [__heap_select] followed by [__sort_heap], over the
    whole vector ([first] is position 0). Positions are signed, as the
    library's [_Distance] is, and division truncates; each loop carries the
    natural number that bounds its iterations. *)
Section libstdcxx.

Context {A : Type} (comp : A → A → bool).

(** [*(first + i)], read and written; [d] stands for a position that does
    not exist (none is ever read). *)
Definition rd (v : list A) (i : Z) (d : A) : A := nth (Z.to_nat i) v d.
Definition wr (v : list A) (i : Z) (x : A) : list A := <[Z.to_nat i := x]> v.

Fixpoint push_heap_loop (bound : nat) (v : list A) (holeIndex topIndex : Z) (value : A)
  : list A :=
  let parent := Z.quot (holeIndex - 1) 2 in
  match bound with
  | S bound' =>
      if (topIndex <? holeIndex)%Z && comp (rd v parent value) value
      then push_heap_loop bound' (wr v holeIndex (rd v parent value)) parent topIndex value
      else wr v holeIndex value
  | O => wr v holeIndex value
  end.

Definition push_heap (v : list A) (holeIndex topIndex : Z) (value : A) : list A :=
  push_heap_loop (Z.to_nat holeIndex) v holeIndex topIndex value.

Fixpoint adjust_heap_loop (bound : nat) (v : list A) (holeIndex secondChild len : Z)
    (d : A) : list A * Z * Z :=
  match bound with
  | S bound' =>
      if (secondChild <? Z.quot (len - 1) 2)%Z then
        let secondChild := (2 * (secondChild + 1))%Z in
        let secondChild :=
          if comp (rd v secondChild d) (rd v (secondChild - 1) d)
          then (secondChild - 1)%Z else secondChild in
        adjust_heap_loop bound' (wr v holeIndex (rd v secondChild d))
          secondChild secondChild len d
      else (v, holeIndex, secondChild)
  | O => (v, holeIndex, secondChild)
  end.

Definition adjust_heap (v : list A) (holeIndex len : Z) (value : A) : list A :=
  let topIndex := holeIndex in
  let '(v, holeIndex, secondChild) :=
    adjust_heap_loop (Z.to_nat len) v holeIndex holeIndex len value in
  let '(v, holeIndex) :=
    if (Z.land len 1 =? 0)%Z && (secondChild =? Z.quot (len - 2) 2)%Z
    then
      let secondChild := (2 * (secondChild + 1))%Z in
      (wr v holeIndex (rd v (secondChild - 1) value), (secondChild - 1)%Z)
    else (v, holeIndex) in
  push_heap v holeIndex topIndex value.

Fixpoint make_heap_loop (parent : nat) (v : list A) (len : Z) : list A :=
  match v !! parent with
  | None => v
  | Some value =>
      let v := adjust_heap v (Z.of_nat parent) len value in
      match parent with
      | O => v
      | S parent' => make_heap_loop parent' v len
      end
  end.

Definition make_heap (v : list A) (len : Z) : list A :=
  if (len <? 2)%Z then v else make_heap_loop (Z.to_nat (Z.quot (len - 2) 2)) v len.

(** [__pop_heap(first, last, result)] *)
Definition pop_heap (v : list A) (last result : nat) : list A :=
  match v !! result, v !! 0%nat with
  | Some value, Some top =>
      adjust_heap (wr v (Z.of_nat result) top) 0 (Z.of_nat last) value
  | _, _ => v
  end.

Definition heap_select (v : list A) (middle : nat) : list A :=
  foldl (λ v i,
           match v !! i, v !! 0%nat with
           | Some x, Some top => if comp x top then pop_heap v middle i else v
           | _, _ => v
           end)
        (make_heap v (Z.of_nat middle)) (seq middle (length v - middle)).

Fixpoint sort_heap (v : list A) (last : nat) : list A :=
  match last with
  | S last' => if (1 <? last)%nat then sort_heap (pop_heap v last' last') last' else v
  | O => v
  end.

Definition libstdcxx_partial_sort (middle : nat) (v : list A) : list A :=
  sort_heap (heap_select v middle) middle.

End libstdcxx.

(** A booster that succeeds and scores row [i] with [scores[i]]. *)
Definition fixed_scores_booster (scores : list double)
    (data : list float) (nrow ncol : nat) : Z * nat * list double :=
  (0%Z, nrow, resize nrow double_zero scores).

Definition fixed_scores_calcer (scores : list double)
    (data : list float) (nrow ncol : nat) : bool * list double :=
  (true, resize nrow double_zero scores).

(** A candidate template "first.last" with the given id, and three of them. *)
Definition sample_template (id : Z) : data_loaders.CandidateTemplate :=
  data_loaders.mkCandidateTemplate id
    [name_token data_loaders.First 0; sep_token "."; name_token data_loaders.Last 0]
    0 float_zero false float_zero float_zero false false false false.

Definition sample_templates : list data_loaders.CandidateTemplate :=
  [sample_template 101; sample_template 102; sample_template 103].

Definition sample_matrix : list float := replicate 81 float_zero.

(** Scores 0, 1, 1 for the three rows: rows 1 and 2 tie. *)
Definition tied_scores : list double := [double_zero; double_of_Z 1; double_of_Z 1].

(** Scores NaN, 1, 2: a model that computes a NaN for row 0. *)
Definition nan_scores : list double := [NaN; double_of_Z 1; double_of_Z 2].


(** ** The pipeline run on one model

    What [predict] does once a predictor and its template set are chosen:
    the steps of the specification's 4.10 other than the choice. *)
Definition predict_with (icu_nfkd : string → option string)
    (similarity : string → string → double)
    (e : engine.EmailPredictionEngine) (chosen_predictor : engine.Pred)
    (chosen_templates : list data_loaders.CandidateTemplate)
    (investor_name firm_name : string) (top_k : nat) (domain : option string)
  : outcome (list engine.EmailPredictionResult * engine.EmailPredictionEngine) :=
  resolved ← engine.resolve_query_domain similarity e firm_name domain;
  let name_struct := name_decomposer.decompose icu_nfkd investor_name in
  let flags := features.extract icu_nfkd investor_name in
  top_predictions ←
    chosen_predictor
      (builder.build_feature_rows name_struct flags firm_name chosen_templates
         (engine.firm_stats_ e) (engine.firm_usage_map_ e))
      chosen_templates top_k;
  results ← engine.format_results name_struct resolved.1 top_predictions;
  Returned (engine.post_process e investor_name firm_name results, resolved.2).

(** Number of occurrences of a byte in a string. *)
Fixpoint count_char (c : ascii) (s : string) : nat :=
  match s with
  | EmptyString => 0
  | String d r => (if Ascii.eqb d c then 1 else 0) + count_char c r
  end.

(** A sample engine: both models are the LightGBM predictor over a booster
    that scores every row alike; no resolver, no verification, no enrichment. *)
Definition sample_predictor : engine.Pred :=
  predictor.lgbm_predict_top_templates insertion_partial_sort
    (fixed_scores_booster []).

Definition sample_engine : engine.EmailPredictionEngine :=
  engine.mkEmailPredictionEngine sample_predictor sample_predictor None None
    [sample_template 1] [sample_template 2] ∅ ∅ None.


(** Two result rows that differ at most in what the verification and
    enrichment services attached. *)
Definition same_row (r r' : engine.EmailPredictionResult) : Prop :=
  engine.email r' = engine.email r ∧
  engine.result_score r' = engine.result_score r ∧
  engine.result_template_id r' = engine.result_template_id r.

(** A result row rendered from a prediction: the local part of the
    prediction's template for the name, then [@], then the domain. *)
Definition rendered_from (name : name_decomposer.NameDecomposer) (domain_string : string)
    (pred : predictor.TemplatePrediction) (row : engine.EmailPredictionResult) : Prop :=
  engine.result_template_id row = predictor.pred_template_id pred ∧
  engine.result_score row = predictor.score pred ∧
  ∃ local_part,
    local_part_resolver.resolve_email_local_part name
      (data_loaders.token_seq (predictor.metadata pred)) = Returned (Some local_part)
    ∧ engine.email row = local_part +:+ "@" +:+ domain_string
    ∧ count_char "@" (engine.email row)
      = (1 + count_char "@" local_part + count_char "@" domain_string)%nat.


(** * The splitter's iterator and the loaders

    [StringViewSplitter::next] (splitter.cpp) and the parts of
    templates_loader.hpp that turn unpacked MessagePack data into the
    engine's tables. *)

(** ** StringViewSplitter::next (splitter.cpp) *)

Module StringViewSplitter.

(** The members [str_], [delimiter_] and [pos_]. *)
Record t : Type := mk {
  str_ : string;
  delimiter_ : ascii;
  pos_ : nat
}.

(** The constructor: [pos_] starts at 0. *)
Definition make (str : string) (delimiter : ascii) : t := mk str delimiter 0.

(** The loop of [next] from [start = pos_], where [rest] is
    [str_.substr(start)] and [size] is [str_.size()]: the part returned, if
    any, and the new [pos_]. An empty part (the delimiter found at [start])
    moves one byte on and repeats; the delimiter is never found at [start]
    in an empty [rest], so the last branch is never taken. *)
Fixpoint next_loop (delimiter : ascii) (size : nat) (rest : string) (start : nat)
  : option string * nat :=
  match features.find_char delimiter rest with
  | None =>
      (if (start <? size)%nat
       then (if string_empty rest then None else Some rest)
       else None,
       (size + 1)%nat)
  | Some len =>
      if (0 <? len)%nat then (Some (substring 0 len rest), (start + len + 1)%nat)
      else
        match rest with
        | String _ rest' => next_loop delimiter size rest' (start + 1)%nat
        | EmptyString => (None, (size + 1)%nat)
        end
  end.

(** [next()]: nothing happens once [pos_] is past the end. *)
Definition next (s : t) : option string * t :=
  if (pos_ s <=? String.length (str_ s))%nat
  then
    let '(part, pos) :=
      next_loop (delimiter_ s) (String.length (str_ s))
        (string_drop (pos_ s) (str_ s)) (pos_ s) in
    (part, mk (str_ s) (delimiter_ s) pos)
  else (None, s).

(** The caller's loop [while (auto part = splitter.next())], which pushes
    each part: run for at most [calls] calls that return a part. *)
Fixpoint collect (calls : nat) (s : t) : list string :=
  match calls with
  | O => []
  | S calls' =>
      match next s with
      | (Some part, s') => part :: collect calls' s'
      | (None, _) => []
      end
  end.

(** The splitter after [calls] calls of [next()], whatever they returned. *)
Fixpoint after_calls (calls : nat) (s : t) : t :=
  match calls with
  | O => s
  | S calls' => after_calls calls' (next s).2
  end.

(** The loop run to its end: every call that returns a part moves [pos_]
    forward, so no more than [size + 1] calls return one. *)
Definition parts (str : string) (delimiter : ascii) : list string :=
  collect (S (String.length str)) (make str delimiter).

End StringViewSplitter.

(** ** Template tokens and firm tables (templates_loader.hpp) *)

Module templates_loader.
Import data_loaders.

(** [token.size() == 1 && (token[0] == '.' || token[0] == '-' || token[0] == '_')] *)
Definition is_separator (token : string) : bool :=
  match token with
  | String c EmptyString => Ascii.eqb c "." || Ascii.eqb c "-" || Ascii.eqb c "_"
  | _ => false
  end.

(** The index loop: decimal digits accumulated in a [size_t] (64 bits). *)
Fixpoint parse_index (index_val : N) (index_part : string) : outcome N :=
  match index_part with
  | EmptyString => Returned index_val
  | String c rest =>
      if (N_of_ascii c <? 48)%N || (57 <? N_of_ascii c)%N then Thrown runtime_error
      else parse_index ((index_val * 10 + (N_of_ascii c - 48)) mod 2 ^ 64)%N rest
  end.

(** The switch on the length of [group_str]: the group and [use_initial]. *)
Definition parse_group (group_str : string) : outcome (Group * bool) :=
  match String.length group_str with
  | 1 =>
      match String.get 0 group_str with
      | Some c =>
          if Ascii.eqb c "f" then Returned (First, true)
          else if Ascii.eqb c "m" then Returned (Middle, true)
          else if Ascii.eqb c "l" then Returned (Last, true)
          else Thrown runtime_error
      | None => Thrown runtime_error
      end
  | 4 => if String.eqb group_str "last" then Returned (Last, false)
         else Thrown runtime_error
  | 5 => if String.eqb group_str "first" then Returned (First, false)
         else Thrown runtime_error
  | 6 => if String.eqb group_str "middle" then Returned (Middle, false)
         else Thrown runtime_error
  | _ => Thrown runtime_error
  end.

Definition set_use_original (t : TemplateToken) : TemplateToken :=
  mkTemplateToken (group t) (index t) true (use_nfkd t) (use_translit t)
    (use_nickname t) (use_surname_particle t) (use_initial t) (separator t).
Definition set_use_nfkd (t : TemplateToken) : TemplateToken :=
  mkTemplateToken (group t) (index t) (use_original t) true (use_translit t)
    (use_nickname t) (use_surname_particle t) (use_initial t) (separator t).
Definition set_use_translit (t : TemplateToken) : TemplateToken :=
  mkTemplateToken (group t) (index t) (use_original t) (use_nfkd t) true
    (use_nickname t) (use_surname_particle t) (use_initial t) (separator t).
Definition set_use_nickname (t : TemplateToken) : TemplateToken :=
  mkTemplateToken (group t) (index t) (use_original t) (use_nfkd t) (use_translit t)
    true (use_surname_particle t) (use_initial t) (separator t).
Definition set_use_surname_particle (t : TemplateToken) : TemplateToken :=
  mkTemplateToken (group t) (index t) (use_original t) (use_nfkd t) (use_translit t)
    (use_nickname t) true (use_initial t) (separator t).

(** One round of the flag loop: the switch on [flag[0]]. *)
Definition parse_flag (t : TemplateToken) (flag : string) : outcome TemplateToken :=
  match flag with
  | EmptyString => Returned t
  | String c _ =>
      if Ascii.eqb c "o" then
        if String.eqb flag "original" then Returned (set_use_original t)
        else Thrown runtime_error
      else if Ascii.eqb c "n" then
        if String.eqb flag "nfkd" then Returned (set_use_nfkd t)
        else if String.eqb flag "nickname" then Returned (set_use_nickname t)
        else Thrown runtime_error
      else if Ascii.eqb c "t" then
        if String.eqb flag "translit" then Returned (set_use_translit t)
        else Thrown runtime_error
      else if Ascii.eqb c "s" then
        if String.eqb flag "surp" then Returned (set_use_surname_particle t)
        else Thrown runtime_error
      else Thrown runtime_error
  end.

(** The flag loop over [parts[1 .. size - 2]]. *)
Fixpoint parse_flags (t : TemplateToken) (flags : list string) : outcome TemplateToken :=
  match flags with
  | [] => Returned t
  | flag :: rest => t' ← parse_flag t flag; parse_flags t' rest
  end.

(** The body of the loop of [parse_token_sequence] for one token. *)
Definition parse_token (token : string) : outcome TemplateToken :=
  if is_separator token
  then Returned (mkTemplateToken Unknown 0 false false false false false false (Some token))
  else
    let parts := StringViewSplitter.parts token "_" in
    if (length parts <? 2)%nat then Thrown runtime_error
    else
      let index_part := List.last parts EmptyString in
      if string_empty index_part then Thrown runtime_error
      else
        index_val ← parse_index 0 index_part;
        grp ← parse_group (hd EmptyString parts);
        parse_flags
          (mkTemplateToken grp.1 (N.to_nat index_val) false false false false false grp.2 None)
          (removelast (tl parts)).

Fixpoint parse_token_sequence (tokens : list string) : outcome (list TemplateToken) :=
  match tokens with
  | [] => Returned []
  | token :: rest =>
      t ← parse_token token;
      parsed ← parse_token_sequence rest;
      Returned (t :: parsed)
  end.

End templates_loader.


(** ** The template tokens the loader accepts

    The grammar of a token, read off [parse_token_sequence]: a separator, or
    two or more parts between underscores, of which the first names a group,
    the last is a decimal index and the ones between are normalisation
    flags. *)

Definition known_groups : list string := ["f"; "m"; "l"; "first"; "middle"; "last"].

Definition known_flags : list string :=
  ["original"; "nfkd"; "nickname"; "translit"; "surp"].

Definition is_digit (c : ascii) : bool :=
  ((48 <=? N_of_ascii c) && (N_of_ascii c <=? 57))%N.

Definition well_formed_token (token : string) : bool :=
  templates_loader.is_separator token ||
  let parts := string_normalization.split_all token "_" in
  (2 <=? length parts)%nat
  && name_decomposer.contains known_groups (hd EmptyString parts)
  && forallb (name_decomposer.contains known_flags) (removelast (tl parts))
  && forallb is_digit (list_ascii_of_string (List.last parts EmptyString)).

(** The token a separator parses to. *)
Definition separator_token (token : string) : data_loaders.TemplateToken :=
  data_loaders.mkTemplateToken data_loaders.Unknown 0 false false false false false false
    (Some token).


(** ** The firm tables (templates_loader.hpp, domain_resolver.cpp)

    The MessagePack library is outside the model: a file is given by what
    unpacking it yields, as far as the loaders look at it. *)

Module firm_tables.
Import data_loaders domain_resolver.

(** [static_cast<int>(n)] of a [size_t]: the value modulo 2^32, as a signed
    number. *)
Definition int_of_size (n : nat) : Z :=
  let m := (Z.of_nat n mod 2 ^ 32)%Z in
  if (m <? 2 ^ 31)%Z then m else (m - 2 ^ 32)%Z.

(** One round of the counting loop of [load_template_data]:
    [++support_counts[tid]] and the running maximum. *)
Definition count_template (acc : gmap Z Z * Z) (tid : Z) : gmap Z Z * Z :=
  let '(support_counts, max_support) := acc in
  let count := (default 0 (support_counts !! tid) + 1)%Z in
  (<[tid := count]> support_counts, Z.max max_support count).

(** The usage map [load_template_data] builds for one firm from its
    [template_ids]. The counters are [int]s: the model is of lists of fewer
    than 2^31 ids, for which none overflows. *)
Definition firm_template_usage (template_ids : list Z) : gmap Z FirmTemplateUsage :=
  if bool_decide (template_ids = []) then ∅
  else
    let '(support_counts, max_support) :=
      foldl count_template (∅, 0%Z) template_ids in
    let total_templates_used := int_of_size (length template_ids) in
    let total_inv := SFdiv 24 128 float_one (float_of_int total_templates_used) in
    (λ count, mkFirmTemplateUsage count
                (SFmul 24 128 (float_of_int count) total_inv)
                (bool_decide (count = max_support)))
    <$> support_counts.

(** A string field of an unpacked record: absent, nil, a string, or a value
    of another type (whose conversion throws). *)
Inductive string_field : Type :=
| StringMissing
| StringNil
| StringValue (s : string)
| StringOther.

(** A number field, likewise. *)
Inductive number_field : Type :=
| NumberMissing
| NumberNil
| NumberValue (d : double)
| NumberOther.

(** A row of canonical_firms.msgpack: the raw firm name and its "domain"
    field, or [None] when the row's value is not a map. The rows come in the
    order of the [std::map] they are converted to. *)
Definition canonical_row : Type := string * option string_field.

(** The loop of [load_canonical_firm_msgpack]; [None] is an exception. *)
Fixpoint canonical_rows (rows : list canonical_row) (out_lookup : gmap string string)
  : option (gmap string string) :=
  match rows with
  | [] => Some out_lookup
  | (firm_raw, obj) :: rest =>
      match obj with
      | None => None
      | Some StringMissing | Some StringNil => canonical_rows rest out_lookup
      | Some (StringValue domain) =>
          canonical_rows rest (<[normalize_firm_name firm_raw := domain]> out_lookup)
      | Some StringOther => None
      end
  end.

(** [load_canonical_firm_msgpack]: the flag returned and [out_lookup] after
    the call; [file] is [None] when the file cannot be read or unpacked to
    a map. *)
Definition load_canonical_firm_msgpack (file : option (list canonical_row))
  : bool * gmap string string :=
  match file with
  | None => (false, ∅)
  | Some rows =>
      match canonical_rows rows ∅ with
      | Some out_lookup => (true, out_lookup)
      | None => (false, ∅)
      end
  end.

(** A row of the firm cache file: the raw firm key and the three fields
    read from its record, or [None] when the row's value is not a map. *)
Record cache_record : Type := mkCacheRecord {
  domain_field : string_field;
  canonical_firm_field : string_field;
  match_score_field : number_field
}.

Definition cache_row : Type := string * option cache_record.

(** The helpers [get_str] and [get_double]; [None] is an exception. *)
Definition get_str (f : string_field) : option string :=
  match f with
  | StringMissing | StringNil => Some EmptyString
  | StringValue s => Some s
  | StringOther => None
  end.

Definition get_double (f : number_field) : option double :=
  match f with
  | NumberMissing | NumberNil => Some double_zero
  | NumberValue d => Some d
  | NumberOther => None
  end.

(** The loop of [load_firm_cache_msgpack]. *)
Fixpoint cache_rows (rows : list cache_row) (out_cache : gmap string (string * CacheEntry))
  : option (gmap string (string * CacheEntry)) :=
  match rows with
  | [] => Some out_cache
  | (raw_firm_key, value_obj) :: rest =>
      rec ← value_obj;
      domain ← get_str (domain_field rec);
      canonical_firm ← get_str (canonical_firm_field rec);
      match_score ← get_double (match_score_field rec);
      if string_empty domain || string_empty canonical_firm then cache_rows rest out_cache
      else
        let ce := mkCacheEntry (normalize_firm_name canonical_firm) match_score in
        cache_rows rest (<[normalize_firm_name raw_firm_key := (domain, ce)]> out_cache)
  end.

Definition load_firm_cache_msgpack (file : option (list cache_row))
  : bool * gmap string (string * CacheEntry) :=
  match file with
  | None => (false, ∅)
  | Some rows =>
      match cache_rows rows ∅ with
      | Some out_cache => (true, out_cache)
      | None => (false, ∅)
      end
  end.

(** The constructor [DomainResolver::DomainResolver(canonical_path, cache_path)]. *)
Definition make_resolver (canonical_file : option (list canonical_row))
    (cache_file : option (list cache_row)) : outcome DomainResolver :=
  let '(loaded, firm_to_domain) := load_canonical_firm_msgpack canonical_file in
  if negb loaded then Thrown runtime_error
  else
    let '(loaded, firm_cache) := load_firm_cache_msgpack cache_file in
    if negb loaded then Thrown runtime_error
    else Returned (mkDomainResolver firm_to_domain firm_cache).

End firm_tables.


(** ** Ranked results

    What the engine expects of [predict_top_templates]: no more than
    [top_k] predictions, in order of score from the highest. *)

Definition ranked_predictor (p : engine.Pred) : Prop :=
  ∀ flat_matrix templates top_k res,
    p flat_matrix templates top_k = Returned res →
    (length res ≤ top_k)%nat
    ∧ StronglySorted (λ a b, double_ge (predictor.score a) (predictor.score b) = true) res.

(** ** Stand-ins for the remote services, used to run the model

    A verifier that scores addresses starting with j.smith 90 and any
    other address 40, and an enricher that knows a job title for everyone;
    an engine that has both, and two rows to post-process. *)

Definition sample_verifier (address : string) : option engine.VerificationResult :=
  Some (engine.mkVerificationResult address "valid"
          (if String.prefix "j.smith" address then 90 else 40)%Z true EmptyString).

Definition sample_enricher (full_name firm predicted_email : string)
  : option engine.EnrichmentResult :=
  Some (engine.mkEnrichmentResult predicted_email full_name "Partner" EmptyString
          EmptyString EmptyString EmptyString).

Definition sample_engine_with_hooks : engine.EmailPredictionEngine :=
  engine.mkEmailPredictionEngine sample_predictor sample_predictor
    (Some sample_verifier) (Some sample_enricher)
    [sample_template 1] [sample_template 2] ∅ ∅ None.

Definition sample_rows : list engine.EmailPredictionResult :=
  [engine.mkEmailPredictionResult "john.smith@acme.com" (double_of_Z 1) 1 None None;
   engine.mkEmailPredictionResult "j.smith@acme.com" double_zero 2 None None].


(** ** The shape of a decomposed name

    The tokens after the first are split at the first surname particle, or
    before the final token when no particle comes earlier: [middle_count]
    is the number of tokens that become middle names. *)

Fixpoint leading_names (parts : list string) : nat :=
  match parts with
  | [] => 0
  | p :: tl =>
      if name_decomposer.contains name_decomposer.SURNAME_PARTICLES p then 0
      else S (leading_names tl)
  end.

Definition middle_count (rest : list string) : nat :=
  Nat.min (leading_names rest) (length rest - 1).


(** ** The HTTP helper (call_api.cpp)

    libcurl and the JSON parser are outside the model: [perform] is what the
    transfer of a given attempt yields, [parse] the parser ([None] when it
    throws). The pauses of [std::this_thread::sleep_for] are recorded, in
    milliseconds and in order. *)

Module third_party.

Inductive CURLcode : Type :=
| CURLE_OK
| CURLE_OPERATION_TIMEDOUT
| CURLE_COULDNT_RESOLVE_HOST
| CURLE_COULDNT_CONNECT
| CURLE_RECV_ERROR
| CURLE_SEND_ERROR
| CURLE_OTHER.

(** What [curl_easy_perform] and [curl_easy_getinfo] report for one
    attempt, and the body received. *)
Record transfer : Type := mkTransfer {
  res : CURLcode;
  http_code : Z;
  response_data : string
}.

Definition curl_ok (code : CURLcode) : bool :=
  match code with CURLE_OK => true | _ => false end.

Definition retryable_curl (code : CURLcode) : bool :=
  match code with
  | CURLE_OPERATION_TIMEDOUT | CURLE_COULDNT_RESOLVE_HOST | CURLE_COULDNT_CONNECT
  | CURLE_RECV_ERROR | CURLE_SEND_ERROR => true
  | _ => false
  end.

Section CallApi.

Context {json : Type}.
Variable perform : Z → transfer.
Variable parse : string → option json.

(** The loop [for (attempt = 0; attempt < max_retries; ++attempt)]:
    [remaining] is [max_retries - attempt]. *)
Fixpoint call_api_loop (max_retries : Z) (remaining : nat) (attempt retry_delay_ms : Z)
  : option json * list Z :=
  match remaining with
  | O => (None, [])
  | S remaining' =>
      let t := perform attempt in
      if curl_ok (res t) && (http_code t =? 200)%Z
      then (parse (response_data t), [])
      else
        let retryable_http :=
          (http_code t =? 429)%Z || ((500 <=? http_code t)%Z && (http_code t <? 600)%Z) in
        if (retryable_http || retryable_curl (res t)) && (attempt + 1 <? max_retries)%Z
        then
          let '(out, pauses) :=
            call_api_loop max_retries remaining' (attempt + 1)
              (Z.min (retry_delay_ms * 2) 8000) in
          (out, retry_delay_ms :: pauses)
        else (None, [])
  end.

(** [call_api]: [curl] tells whether [curl_easy_init] gave a handle. *)
Definition call_api (curl : bool) (max_retries : Z) : option json * list Z :=
  if negb curl then (None, [])
  else call_api_loop max_retries (Z.to_nat max_retries) 0 500.

End CallApi.

End third_party.

(** ** The German mapping that starts with two given bytes, if any *)

Definition german_mapping (c d : ascii) : option (string * string) :=
  List.find (fun m => String.prefix m.1 (String c (String d EmptyString)))
    string_normalization.GERMAN_ASCII_MAPPINGS.

(** * Properties *)

Import data_loaders name_decomposer.

(** ** The feature matrix *)

Lemma float_of_bool_encode b : float_of_bool b = feature_schema.encode_bool b.
Proof. by destruct b. Qed.

Lemma float_of_int_zero : float_of_int 0 = float_zero.
Proof. reflexivity. Qed.

Lemma append_row_schema name flags firm_name firm_stats usage_map flat_matrix tmpl :
  builder.append_row (has_middle_name name) (has_multiple_first_names name)
    (has_multiple_middle_names name) (has_multiple_last_names name) flags
    (default builder.dummy_stats (firm_stats !! firm_name))
    (default ∅ (usage_map !! firm_name)) flat_matrix tmpl
  = flat_matrix ++
    feature_schema.encode_row
      (feature_schema.features_of name flags firm_name firm_stats usage_map tmpl).
Proof.
  unfold builder.append_row, builder.emplace_back, feature_schema.encode_row,
    feature_schema.features_of, feature_schema.encode_count.
  rewrite <- !app_assoc. cbn [app]. rewrite !float_of_bool_encode.
  cbn [feature_schema.in_firm_templates feature_schema.firm_is_shared_infra
       feature_schema.firm_is_multi_domain feature_schema.has_german_char
       feature_schema.has_nfkd_normalized feature_schema.has_nickname
       feature_schema.name_has_multiple_firsts feature_schema.name_has_middle
       feature_schema.name_has_multiple_middles feature_schema.name_has_multiple_lasts
       feature_schema.template_support_count feature_schema.template_coverage_pct
       feature_schema.template_in_mined_rules feature_schema.template_max_rule_confidence
       feature_schema.template_avg_rule_confidence feature_schema.template_uses_middle_name
       feature_schema.template_uses_multiple_firsts feature_schema.template_uses_multiple_middles
       feature_schema.template_uses_multiple_lasts feature_schema.firm_support_count
       feature_schema.firm_coverage_pct feature_schema.firm_is_top_template
       feature_schema.template_name_characteristic_clash feature_schema.firm_num_templates
       feature_schema.firm_num_investors feature_schema.firm_diversity_ratio
       feature_schema.firm_is_single_template].
  set (u := default ∅ (usage_map !! firm_name) !! template_id tmpl).
  assert (Hu : usage_map !! firm_name ≫= (λ m, m !! template_id tmpl) = u).
  { subst u. destruct (usage_map !! firm_name) as [m|]; cbn; [done|].
    by rewrite lookup_empty. }
  rewrite Hu.
  assert (Hclash :
    uses_middle_name tmpl && has_middle_name name
    || uses_multiple_firsts tmpl && has_multiple_first_names name
    || uses_multiple_middles tmpl && has_multiple_middle_names name
    || uses_multiple_lasts tmpl && has_multiple_last_names name
    = bool_decide
         ((uses_middle_name tmpl = true ∧ has_middle_name name = true) ∨
          (uses_multiple_firsts tmpl = true ∧ has_multiple_first_names name = true) ∨
          (uses_multiple_middles tmpl = true ∧ has_multiple_middle_names name = true) ∨
          (uses_multiple_lasts tmpl = true ∧ has_multiple_last_names name = true))).
  { destruct (uses_middle_name tmpl), (has_middle_name name),
      (uses_multiple_firsts tmpl), (has_multiple_first_names name),
      (uses_multiple_middles tmpl), (has_multiple_middle_names name),
      (uses_multiple_lasts tmpl), (has_multiple_last_names name);
      cbn; symmetry;
      first [ apply bool_decide_eq_true; tauto
            | apply bool_decide_eq_false; intuition congruence ]. }
  rewrite Hclash.
  destruct u as [usage|], (firm_stats !! firm_name) as [stats|]; reflexivity.
Qed.

Lemma foldl_append_rows {A B : Type} (row : B → list A) (step : list A → B → list A)
    (l : list B) (acc : list A) :
  (∀ acc b, step acc b = acc ++ row b) →
  foldl step acc l = acc ++ concat (map row l).
Proof.
  intros Hstep. revert acc.
  induction l as [|b l IH]; intros acc; cbn.
  - by rewrite app_nil_r.
  - rewrite IH, Hstep. by rewrite <- app_assoc.
Qed.

Lemma concat_fixed_width {A : Type} (n : nat) (rows : list (list A)) (i : nat) :
  Forall (λ r, length r = n) rows →
  take n (drop (n * i) (concat rows)) = default [] (rows !! i).
Proof.
  intros Hrows. revert i.
  induction Hrows as [|r rows Hr _ IH]; intros i.
  - cbn. by rewrite drop_nil, take_nil.
  - destruct i as [|i]; cbn [concat lookup list_lookup default].
    + rewrite Nat.mul_0_r. cbn [drop]. rewrite <- Hr. apply take_app_length.
    + rewrite Nat.mul_succ_r, Nat.add_comm.
      rewrite <- Hr at 2. rewrite drop_app_add. apply IH.
Qed.

Lemma length_concat_fixed_width {A : Type} (n : nat) (rows : list (list A)) :
  Forall (λ r, length r = n) rows → length (concat rows) = n * length rows.
Proof.
  induction 1 as [|r rows Hr _ IH]; cbn; [lia|].
  rewrite length_app, IH, Hr. lia.
Qed.

Lemma build_feature_rows_concat name flags firm_name templates firm_stats usage_map :
  builder.build_feature_rows name flags firm_name templates firm_stats usage_map
  = concat (map (λ tmpl, feature_schema.encode_row
                   (feature_schema.features_of name flags firm_name firm_stats usage_map tmpl))
                templates).
Proof.
  unfold builder.build_feature_rows.
  rewrite (foldl_append_rows
             (λ tmpl, feature_schema.encode_row
                (feature_schema.features_of name flags firm_name firm_stats usage_map tmpl))).
  - done.
  - intros acc tmpl. apply append_row_schema.
Qed.

(** C1. [build_feature_rows] returns [27 * N] floats for [N] templates, and
    for every row index [i] the 27 entries from position [27 * i] are the
    schema's features of [templates[i]], in the schema's order, booleans as
    [0.0f] or [1.0f]; past the last row there is nothing. *)
Theorem build_feature_rows_layout name flags firm_name templates firm_stats usage_map :
  length (builder.build_feature_rows name flags firm_name templates firm_stats usage_map)
  = 27 * length templates
  ∧ ∀ i,
      take 27 (drop (27 * i)
                 (builder.build_feature_rows name flags firm_name templates
                    firm_stats usage_map))
      = from_option
          (λ tmpl, feature_schema.encode_row
                     (feature_schema.features_of name flags firm_name firm_stats
                        usage_map tmpl))
          [] (templates !! i).
Proof.
  rewrite build_feature_rows_concat.
  set (row := λ tmpl, feature_schema.encode_row
                (feature_schema.features_of name flags firm_name firm_stats usage_map tmpl)).
  assert (Hw : Forall (λ r, length r = 27) (map row templates)).
  { change (map row templates) with (row <$> templates).
    apply Forall_fmap, Forall_true. by intros tmpl. }
  split.
  - rewrite (length_concat_fixed_width 27) by done. by rewrite length_map.
  - intros i. rewrite (concat_fixed_width 27) by done.
    change (map row templates) with (row <$> templates).
    rewrite list_lookup_fmap. by destruct (templates !! i).
Qed.

(** ** The name decomposer *)

Lemma strip_to_ascii_id s :
  is_ascii_string s = true → string_normalization.strip_to_ascii s = s.
Proof.
  unfold is_ascii_string, string_normalization.strip_to_ascii.
  induction s as [|c s IH]; cbn; [done|].
  intros [Hc Hs]%andb_prop. rewrite Hc. f_equal. by apply IH.
Qed.

Lemma nfkd_normalize_ascii icu_nfkd s :
  nfkd_fixes_ascii icu_nfkd → is_ascii_string s = true →
  string_normalization.nfkd_normalize icu_nfkd s = s.
Proof.
  intros Hicu Hs. unfold string_normalization.nfkd_normalize.
  destruct (icu_nfkd s) as [n|] eqn:E; [|done].
  rewrite (Hicu s n Hs E). by apply strip_to_ascii_id.
Qed.

Lemma icu_ascii_fixes_ascii : nfkd_fixes_ascii icu_ascii.
Proof. intros s n _ [= <-]. done. Qed.

(** C4. On the input "Mr. Dr. John Smith Jr" the decomposer keeps the
    dotted honorifics: only the trailing "jr" equals a removable token, so
    the first name is "mr." and the middle names are "dr." and "john"; the
    same name written without the periods decomposes into "john" and
    "smith". *)
Theorem decompose_dotted_honorifics icu_nfkd :
  nfkd_fixes_ascii icu_nfkd →
  decompose icu_nfkd "Mr. Dr. John Smith Jr"
  = mkNameDecomposer "mr. dr. john smith" ["mr."] ["dr."; "john"] ["smith"]
  ∧ decompose icu_nfkd "Mr Dr John Smith Jr"
    = mkNameDecomposer "john smith" ["john"] [] ["smith"].
Proof.
  intros Hicu.
  pose proof (nfkd_normalize_ascii icu_nfkd "mr. dr. john smith jr" Hicu eq_refl) as E1.
  pose proof (nfkd_normalize_ascii icu_nfkd "mr dr john smith jr" Hicu eq_refl) as E2.
  split.
  - unfold decompose, normalize_full_name.
    change (string_normalization.replace_german_chars
              (string_normalization.to_lower (trim "Mr. Dr. John Smith Jr")))
      with "mr. dr. john smith jr".
    cbn [string_empty]. rewrite E1. by vm_compute.
  - unfold decompose, normalize_full_name.
    change (string_normalization.replace_german_chars
              (string_normalization.to_lower (trim "Mr Dr John Smith Jr")))
      with "mr dr john smith jr".
    cbn [string_empty]. rewrite E2. by vm_compute.
Qed.

Lemma decompose_dotted_honorifics_witness :
  decompose icu_ascii "Mr. Dr. John Smith Jr"
  = mkNameDecomposer "mr. dr. john smith" ["mr."] ["dr."; "john"] ["smith"]
  ∧ decompose icu_ascii "Mr Dr John Smith Jr"
    = mkNameDecomposer "john smith" ["john"] [] ["smith"].
Proof. exact (decompose_dotted_honorifics icu_ascii icu_ascii_fixes_ascii). Defined.

Lemma push_back_nonempty cur c : string_empty (push_back cur c) = false.
Proof. unfold push_back. by destruct cur. Qed.

Lemma string_empty_true s : string_empty s = true ↔ s = EmptyString.
Proof. by destruct s. Qed.

Lemma string_empty_false s : string_empty s = false ↔ s ≠ EmptyString.
Proof. by destruct s. Qed.

(** Every token of the splitter is a non-empty string. *)
Lemma split_all_from_nonempty delimiter cur str :
  Forall (λ t, string_empty t = false)
         (string_normalization.split_all_from delimiter cur str).
Proof.
  revert cur. induction str as [|c rest IH]; intros cur; cbn.
  - destruct (string_empty cur) eqn:E; [constructor|]. by repeat constructor.
  - destruct (Ascii.eqb c delimiter).
    + destruct (string_empty cur) eqn:E; [apply IH|]. constructor; [done|apply IH].
    + apply IH.
Qed.

Lemma split_all_strings_nonempty str delimiter :
  Forall (λ t, string_empty t = false)
         (string_normalization.split_all_strings str delimiter).
Proof. apply split_all_from_nonempty. Qed.

(** The parts of a hyphenated first token that survive the emptiness test. *)
Lemma views_split_from_all_empty cur s :
  List.filter (λ part, negb (string_empty part)) (views_split_from "-" cur s) = []
  ↔ cur = EmptyString ∧ all_hyphens s = true.
Proof.
  revert cur. induction s as [|c rest IH]; intros cur; cbn - [Ascii.eqb].
  - destruct cur; cbn; split; [done|done|intros [=]|intros [[=] _]].
  - unfold all_hyphens. cbn - [Ascii.eqb].
    rewrite (Ascii.eqb_sym "-" c).
    destruct (Ascii.eqb c "-") eqn:Ec; cbn - [Ascii.eqb].
    + destruct cur; cbn - [Ascii.eqb].
      * rewrite IH. unfold all_hyphens. tauto.
      * split; [done|intros [[=] _]].
    + rewrite IH. rewrite <- string_empty_true, push_back_nonempty.
      split; [intros [[=] _]|intros [_ [=]]].
Qed.

Lemma char_in_false_not_all_hyphens t :
  string_empty t = false → char_in t "-" = false → all_hyphens t = false.
Proof.
  destruct t as [|c t]; [done|]. intros _. unfold char_in, all_hyphens.
  cbn - [Ascii.eqb]. intros [H _]%orb_false_elim. by rewrite H.
Qed.

Lemma parse_first_nil part0 :
  string_empty part0 = false →
  parse_first part0 = [] ↔ all_hyphens part0 = true.
Proof.
  intros Hne. unfold parse_first.
  destruct (char_in part0 "-") eqn:Ec.
  - unfold views_split. rewrite Hne. rewrite views_split_from_all_empty. tauto.
  - rewrite (char_in_false_not_all_hyphens _ Hne Ec). split; intros [=].
Qed.


(** The loop over the remaining tokens only adds tokens, and adds at least
    one when there is a token left. *)
Lemma parse_rest_grows parts middle last middle' last' :
  parse_rest parts middle last = (middle', last') →
  (length middle ≤ length middle')%nat ∧ (length last ≤ length last')%nat ∧
  (parts ≠ [] → (length middle + length last < length middle' + length last')%nat).
Proof.
  revert middle last. induction parts as [|p tl IH]; intros middle last; cbn [parse_rest].
  - intros [= <- <-]. repeat split; [lia|lia|done].
  - destruct (contains SURNAME_PARTICLES p).
    + intros [= <- <-]. rewrite length_app. cbn. repeat split; lia.
    + destruct tl as [|q tl].
      * intros [= <- <-]. rewrite length_app. cbn. repeat split; lia.
      * intros H. apply IH in H. rewrite length_app in H. cbn in H.
        destruct H as (H1 & H2 & H3). repeat split; [lia|lia|].
        intros _. specialize (H3 ltac:(done)). lia.
Qed.

Lemma parse_rest_elements P parts middle last middle' last' :
  parse_rest parts middle last = (middle', last') →
  Forall P parts → Forall P middle → Forall P last →
  Forall P middle' ∧ Forall P last'.
Proof.
  revert middle last. induction parts as [|p tl IH]; intros middle last; cbn [parse_rest].
  - intros [= <- <-]. done.
  - intros H Hparts Hm Hl. destruct (contains SURNAME_PARTICLES p).
    + injection H as <- <-. split; [done|]. by apply Forall_app.
    + destruct tl as [|q tl].
      * injection H as <- <-. split; [done|]. apply Forall_app. split; [done|].
        by apply Forall_inv in Hparts; repeat constructor.
      * apply (IH _ _ H).
        -- by apply Forall_inv_tail in Hparts.
        -- apply Forall_app. split; [done|].
           by apply Forall_inv in Hparts; repeat constructor.
        -- done.
Qed.



(** C7, as amended. A decomposed name has a non-empty component exactly
    when the cleaned name has two or more tokens, or one token that is not
    made of hyphens only; an input that cleans to no token (whitespace,
    trailing punctuation or honorifics only) yields three empty sequences. *)
Theorem decompose_has_component icu_nfkd raw :
  let nd := decompose icu_nfkd raw in
  (first_names_ nd ≠ [] ∨ middle_names_ nd ≠ [] ∨ last_names_ nd ≠ [])
  ↔ match string_normalization.split_all_strings
            (normalize_full_name icu_nfkd raw) " " with
    | [] => False
    | [t] => all_hyphens t = false
    | _ :: _ :: _ => True
    end.
Proof.
  unfold decompose, parse_name.
  set (cleaned := normalize_full_name icu_nfkd raw).
  pose proof (split_all_strings_nonempty cleaned " ") as Htok.
  destruct (string_empty cleaned) eqn:Ec.
  - apply string_empty_true in Ec. rewrite Ec. cbn. intuition congruence.
  - destruct (string_normalization.split_all_strings cleaned " ") as [|part0 rest].
    + cbn. intuition congruence.
    + apply Forall_cons in Htok as [H0 _].
      destruct (parse_rest rest [] []) as [middle last] eqn:E.
      cbn [first_names_ middle_names_ last_names_].
      destruct rest as [|q rest].
      * cbn in E. injection E as <- <-.
        pose proof (parse_first_nil part0 H0) as Hf.
        destruct (all_hyphens part0).
        -- split; [|done]. intros [H|[H|H]]; [|done|done].
           exfalso. apply H. by apply Hf.
        -- split; [done|]. intros _. left. intros H. apply Hf in H. done.
      * split; [done|]. intros _.
        apply parse_rest_grows in E as (_ & _ & E). specialize (E ltac:(done)).
        cbn in E. destruct middle, last; cbn in E; [lia|by right; right|by right; left|by right; left].
Qed.

(** The claim of C7 fails on inputs that clean to nothing: a blank input
    (whatever the normaliser does), the honorific "mr", and a lone hyphen
    all decompose into three empty sequences. *)
Lemma decompose_empty_components :
  (∀ icu_nfkd, decompose icu_nfkd " " = mkNameDecomposer EmptyString [] [] [])
  ∧ (∀ icu_nfkd, nfkd_fixes_ascii icu_nfkd →
       decompose icu_nfkd "mr" = mkNameDecomposer EmptyString [] [] [])
  ∧ decompose icu_ascii "mr" = mkNameDecomposer EmptyString [] [] []
  ∧ decompose icu_ascii "-" = mkNameDecomposer "-" [] [] [].
Proof.
  split; [done|]. split; [|by vm_compute].
  intros icu_nfkd Hicu.
  pose proof (nfkd_normalize_ascii icu_nfkd "mr" Hicu eq_refl) as E.
  unfold decompose, normalize_full_name.
  change (string_normalization.replace_german_chars
            (string_normalization.to_lower (trim "mr"))) with "mr".
  cbn [string_empty]. rewrite E. by vm_compute.
Qed.

(** ** The local-part resolver *)


Lemma get_name_group_known nd g :
  g ≠ Unknown → ∃ V, names_of nd g = Some V ∧
                     local_part_resolver.get_name_group nd g = Returned V.
Proof.
  destruct g; cbn; unfold get_first_names, get_middle_names, get_last_names;
    eauto; done.
Qed.






(** ** The domain resolver *)

Section ResolverProperties.

Variable similarity : string → string → double.

Lemma best_match_kept query entries sc best :
  ∃ sc' best',
    foldl (domain_resolver.best_match_step similarity query) (sc, Some best) entries
    = (sc', Some best') ∧ (best' = best ∨ best' ∈ entries).
Proof.
  revert sc best. induction entries as [|[firm domain] entries IH]; intros sc best; cbn.
  - eauto.
  - destruct (double_ge (similarity query firm) sc).
    + destruct (IH (similarity query firm) (firm, domain)) as (sc' & best' & -> & Hin).
      exists sc', best'. split; [done|]. right.
      destruct Hin as [->|Hin]; [left|by right].
    + destruct (IH sc best) as (sc' & best' & -> & Hin).
      exists sc', best'. split; [done|]. destruct Hin; [by left|right; by right].
Qed.

(** The loop assigns the pointers at the first entry it sees. *)
Lemma best_match_assigned query entries :
  similarity_nonneg similarity → entries ≠ [] →
  ∃ sc best,
    foldl (domain_resolver.best_match_step similarity query) (double_zero, None) entries
    = (sc, Some best) ∧ best ∈ entries.
Proof.
  intros Hnn Hne. destruct entries as [|[firm domain] entries]; [done|].
  cbn [foldl domain_resolver.best_match_step]. rewrite (Hnn query firm).
  destruct (best_match_kept query entries (similarity query firm) (firm, domain))
    as (sc & best & -> & Hin).
  exists sc, best. split; [done|]. destruct Hin as [->|Hin]; [left|by right].
Qed.

(** With a non-empty directory the fuzzy match returns one of its entries. *)
Lemma findBestFirmMatch_nonempty query (firm_to_domain : gmap string string) :
  similarity_nonneg similarity → firm_to_domain ≠ ∅ →
  ∃ domain entry,
    domain_resolver.findBestFirmMatch similarity query firm_to_domain
    = Returned (domain, entry)
    ∧ firm_to_domain !! canonical_firm entry = Some domain.
Proof.
  intros Hnn Hne. unfold domain_resolver.findBestFirmMatch.
  destruct (best_match_assigned query (map_to_list firm_to_domain) Hnn)
    as (sc & [firm domain] & -> & Hin).
  { by rewrite map_to_list_empty_iff. }
  exists domain, (mkCacheEntry firm sc). split; [done|].
  by apply elem_of_map_to_list in Hin.
Qed.

Lemma findBestFirmMatch_empty query :
  domain_resolver.findBestFirmMatch similarity query ∅ = Undefined.
Proof. unfold domain_resolver.findBestFirmMatch. by rewrite map_to_list_empty. Qed.

(** C6. A firm name whose lowercased key is in the directory resolves to
    [(directory[key], key, 100)] and leaves the resolver as it was; and
    after a call that returned, a second call with the same input returns
    the same triple and leaves the cache as the first call left it. A call
    returns whenever the key is in the directory or the cache, or the
    directory is not empty. *)
Theorem resolve_domain_fixed_point (r : domain_resolver.DomainResolver) raw_firm_name :
  (∀ domain,
     domain_resolver.firm_to_domain_ r !! normalize_firm_name raw_firm_name = Some domain →
     domain_resolver.resolve_domain similarity r raw_firm_name
     = Returned ((domain, normalize_firm_name raw_firm_name, 100%Z), r))
  ∧ (∀ res r',
       domain_resolver.resolve_domain similarity r raw_firm_name = Returned (res, r') →
       domain_resolver.resolve_domain similarity r' raw_firm_name = Returned (res, r'))
  ∧ (similarity_nonneg similarity →
     is_Some (domain_resolver.firm_to_domain_ r !! normalize_firm_name raw_firm_name)
     ∨ is_Some (domain_resolver.firm_cache_ r !! normalize_firm_name raw_firm_name)
     ∨ domain_resolver.firm_to_domain_ r ≠ ∅ →
     ∃ res r', domain_resolver.resolve_domain similarity r raw_firm_name
               = Returned (res, r')).
Proof.
  unfold domain_resolver.resolve_domain.
  set (key := normalize_firm_name raw_firm_name).
  split; [|split].
  - intros domain ->. done.
  - intros res r'.
    destruct (domain_resolver.firm_to_domain_ r !! key) as [domain|] eqn:Edir.
    { intros [= <- <-]. by rewrite Edir. }
    destruct (domain_resolver.firm_cache_ r !! key) as [[domain entry]|] eqn:Ecache.
    { intros [= <- <-]. by rewrite Edir, Ecache. }
    destruct (domain_resolver.findBestFirmMatch similarity key
                (domain_resolver.firm_to_domain_ r)) as [[domain entry]| |]; cbn; [|done|done].
    intros [= <- <-]. cbn. by rewrite Edir, lookup_insert_eq.
  - intros Hnn Hcase.
    destruct (domain_resolver.firm_to_domain_ r !! key) as [domain|] eqn:Edir; [eauto|].
    destruct (domain_resolver.firm_cache_ r !! key) as [[domain entry]|] eqn:Ecache; [eauto|].
    destruct Hcase as [[? [=]]|[[? [=]]|Hne]].
    destruct (findBestFirmMatch_nonempty key _ Hnn Hne) as (domain & entry & -> & _).
    cbn. eauto.
Qed.

(** C10. With an empty directory the selection loop assigns nothing and the
    null pointers are dereferenced: the fuzzy match, and [resolve_domain]
    for a name that is not cached, have undefined behaviour (no error is
    raised). *)
Theorem resolve_domain_empty_directory query cache raw_firm_name :
  domain_resolver.findBestFirmMatch similarity query ∅ = Undefined
  ∧ (cache !! normalize_firm_name raw_firm_name = None →
     domain_resolver.resolve_domain similarity
       (domain_resolver.mkDomainResolver ∅ cache) raw_firm_name = Undefined).
Proof.
  split; [apply findBestFirmMatch_empty|].
  intros Hcache. unfold domain_resolver.resolve_domain. cbn.
  rewrite lookup_empty, Hcache, findBestFirmMatch_empty. done.
Qed.

End ResolverProperties.

Lemma sample_similarity_nonneg : similarity_nonneg sample_similarity.
Proof. intros query firm. unfold sample_similarity. by destruct (String.eqb query firm). Qed.

Lemma resolve_domain_fixed_point_witness :
  domain_resolver.resolve_domain sample_similarity sample_resolver "CVC"
  = Returned (("cvc.com", "cvc", 100%Z), sample_resolver)
  ∧ ∃ res r',
      domain_resolver.resolve_domain sample_similarity sample_resolver "Acme Capitol"
      = Returned (res, r')
      ∧ domain_resolver.resolve_domain sample_similarity r' "Acme Capitol"
        = Returned (res, r').
Proof.
  split.
  - apply (proj1 (resolve_domain_fixed_point sample_similarity sample_resolver "CVC")).
    by vm_compute.
  - destruct (proj2 (proj2 (resolve_domain_fixed_point sample_similarity
                              sample_resolver "Acme Capitol"))
                sample_similarity_nonneg) as (res & r' & E).
    { right. right. intros H. apply (f_equal (λ m, m !! "cvc")) in H. by vm_compute in H. }
    exists res, r'. split; [exact E|].
    by apply (proj1 (proj2 (resolve_domain_fixed_point sample_similarity
                              sample_resolver "Acme Capitol"))).
Defined.

Lemma resolve_domain_empty_directory_witness :
  domain_resolver.resolve_domain sample_similarity
    (domain_resolver.mkDomainResolver ∅ ∅) "acme" = Undefined.
Proof.
  apply (proj2 (resolve_domain_empty_directory sample_similarity "acme" ∅ "acme")).
  apply lookup_empty.
Defined.

(** ** The template predictor *)

Import predictor.

(** The order of doubles that are not NaN is total. *)
Lemma double_lt_not_ge a b :
  is_nan a = false → is_nan b = false → double_lt a b = negb (double_ge a b).
Proof.
  unfold double_ge. destruct a as [p|[]|], b as [q|[]|]; try done. intros _ _. cbn.
  destruct (Qclt_le_dec p q) as [Hlt|Hle].
  - rewrite bool_decide_eq_true_2 by done.
    rewrite bool_decide_eq_false_2; [done|]. by apply Qclt_not_le.
  - rewrite bool_decide_eq_false_2 by (by apply Qcle_not_lt).
    by rewrite bool_decide_eq_true_2.
Qed.

Lemma double_ge_trans a b c :
  double_ge a b = true → double_ge b c = true → double_ge a c = true.
Proof.
  unfold double_ge.
  destruct a as [p|[]|], b as [q|[]|], c as [r|[]|]; try done. cbn.
  rewrite !bool_decide_eq_true. intros H1 H2. by apply Qcle_trans with q.
Qed.

Lemma double_ge_total a b :
  is_nan a = false → is_nan b = false → double_ge a b = true ∨ double_ge b a = true.
Proof.
  unfold double_ge. destruct a as [p|[]|], b as [q|[]|]; try done; try by (left + right).
  intros _ _. cbn. rewrite !bool_decide_eq_true.
  destruct (Qclt_le_dec p q) as [Hlt|Hle]; [right|left; done]. by apply Qclt_le_weak.
Qed.

Lemma double_ge_not_nan a b : double_ge a b = true → is_nan a = false ∧ is_nan b = false.
Proof. unfold double_ge. by destruct a as [p|[]|], b as [q|[]|]. Qed.

(** On rows without NaN scores the comparator of the predictors is a strict
    weak ordering, and standing first means scoring no less. *)
Lemma by_score_desc_not_after a b :
  is_nan (score a) = false → is_nan (score b) = false →
  not_after by_score_desc a b ↔ double_ge (score a) (score b) = true.
Proof.
  intros Ha Hb. unfold not_after, by_score_desc, double_gt.
  rewrite (double_lt_not_ge _ _ Ha Hb). by destruct (double_ge (score a) (score b)).
Qed.

Lemma by_score_desc_strict_weak_order results :
  nan_free results → strict_weak_order by_score_desc results.
Proof.
  intros Hfree. unfold nan_free in Hfree. rewrite Forall_forall in Hfree. split.
  - intros a b Ha%Hfree Hb%Hfree.
    destruct (double_ge_total (score a) (score b) Ha Hb) as [H|H].
    + right. by apply by_score_desc_not_after.
    + left. by apply by_score_desc_not_after.
  - intros a b c Ha%Hfree Hb%Hfree Hc%Hfree Hab Hbc.
    apply by_score_desc_not_after; [done|done|].
    apply by_score_desc_not_after in Hab, Hbc; [|done..].
    by apply double_ge_trans with (score b).
Qed.

(** *** The insertion sort meets the contract of [std::partial_sort] *)

Lemma insert_before_equal_Permutation {A : Type} (comp : A → A → bool) x l :
  insert_before_equal comp x l ≡ₚ x :: l.
Proof.
  induction l as [|y l IH]; cbn; [done|].
  destruct (comp y x); [|done]. rewrite IH. apply Permutation_swap.
Qed.

Lemma insert_before_equal_sorted {A : Type} (comp : A → A → bool) (all : list A) x l :
  strict_weak_order comp all → x ∈ all → l ⊆ all →
  StronglySorted (not_after comp) l →
  StronglySorted (not_after comp) (insert_before_equal comp x l).
Proof.
  intros [Hasym Htrans] Hx Hl. induction 1 as [|y l Hs IH Hy]; cbn.
  - by repeat constructor.
  - assert (Hyin : y ∈ all) by (apply Hl; by left).
    assert (Hlin : l ⊆ all) by (intros z Hz; apply Hl; by right).
    destruct (comp y x) eqn:E.
    + constructor; [by apply IH|]. rewrite insert_before_equal_Permutation.
      constructor; [|done]. unfold not_after.
      destruct (Hasym y x) as [H|H]; [done|done|congruence|done].
    + constructor; [by constructor|]. constructor; [done|].
      apply Forall_forall. intros z Hz. rewrite Forall_forall in Hy.
      unfold not_after in *. apply (Htrans x y z); auto.
Qed.

Lemma insertion_sort_from {A : Type} (comp : A → A → bool) (all : list A) l acc :
  foldl (λ sorted x, insert_before_equal comp x sorted) acc l ≡ₚ acc ++ l
  ∧ (strict_weak_order comp all → acc ++ l ⊆ all →
     StronglySorted (not_after comp) acc →
     StronglySorted (not_after comp)
       (foldl (λ sorted x, insert_before_equal comp x sorted) acc l)).
Proof.
  revert acc. induction l as [|x l IH]; intros acc; cbn.
  - by rewrite app_nil_r.
  - destruct (IH (insert_before_equal comp x acc)) as [HP HS].
    split.
    + rewrite HP, insert_before_equal_Permutation. apply Permutation_middle.
    + intros Hswo Hall Hacc. apply HS; [done| |].
      * intros z Hz. apply Hall.
        rewrite insert_before_equal_Permutation in Hz.
        rewrite elem_of_app, elem_of_cons in Hz. rewrite elem_of_app, elem_of_cons.
        tauto.
      * apply (insert_before_equal_sorted comp all); [done| |  |done].
        -- apply Hall. rewrite elem_of_app, elem_of_cons. tauto.
        -- intros z Hz. apply Hall. rewrite elem_of_app. tauto.
Qed.

Lemma insertion_partial_sort_contract {A : Type} :
  partial_sort_contract (@insertion_partial_sort A).
Proof.
  intros comp middle l _. unfold insertion_partial_sort.
  destruct (insertion_sort_from comp l l []) as [HP HS].
  set (sorted := foldl _ [] l) in *.
  split; [done|]. intros Hswo.
  assert (HS' : StronglySorted (not_after comp) sorted) by (apply HS; [done|done|constructor]).
  rewrite <- (take_drop middle sorted) in HS'.
  split.
  - by apply StronglySorted_app_1_l in HS'.
  - intros a b Ha Hb. by apply (StronglySorted_app_1_elem_of _ _ _ _ _ HS').
Qed.

Lemma fixed_scores_booster_contract scores : lgbm_contract (fixed_scores_booster scores).
Proof.
  intros data nrow ncol err out_len out [= <- <- <-].
  split; [apply length_resize|done].
Qed.

(** *** Building the result vector *)

Lemma build_results_returns templates scores i :
  (i + length scores ≤ length templates)%nat →
  ∃ results, build_results i scores templates = Returned results.
Proof.
  revert i. induction scores as [|sc scores IH]; intros i Hlen; cbn.
  - eauto.
  - cbn in Hlen. destruct (lookup_lt_is_Some_2 templates i) as [tmpl ->]; [lia|].
    destruct (IH (S i)) as [rest ->]; [lia|]. cbn. eauto.
Qed.

Lemma build_results_rows templates scores i results :
  build_results i scores templates = Returned results →
  pred_index <$> results = seq i (length scores)
  ∧ score <$> results = scores
  ∧ Forall (λ r, templates !! pred_index r = Some (metadata r)
                 ∧ pred_template_id r = template_id (metadata r)) results.
Proof.
  revert i results. induction scores as [|sc scores IH]; intros i results; cbn.
  - intros [= <-]. done.
  - destruct (templates !! i) as [tmpl|] eqn:Et; [|done].
    destruct (build_results (S i) scores templates) as [rest| |] eqn:Er; cbn; [|done|done].
    intros [= <-]. destruct (IH _ _ Er) as (Hi & Hs & Hm). cbn.
    rewrite Hi, Hs. repeat split. by constructor.
Qed.


(** *** Top-K selection under the contract of [std::partial_sort] *)

Section TopK.

Variable partial_sort :
  (TemplatePrediction → TemplatePrediction → bool) → nat →
  list TemplatePrediction → list TemplatePrediction.
Hypothesis partial_sort_ok : partial_sort_contract partial_sort.

Lemma select_top_take results top_k :
  select_top partial_sort results top_k
  = take (Nat.min top_k (length results))
      (partial_sort by_score_desc (Nat.min top_k (length results)) results).
Proof.
  unfold select_top.
  assert (Hlen : ∀ m, (m ≤ length results)%nat →
            length (partial_sort by_score_desc m results) = length results).
  { intros m Hm. destruct (partial_sort_ok by_score_desc m results Hm) as (HP & _).
    by apply Permutation_length. }
  rewrite Hlen by lia.
  destruct (top_k <? length results)%nat eqn:E.
  - apply Nat.ltb_lt in E. by rewrite Nat.min_l by lia.
  - apply Nat.ltb_ge in E. rewrite Nat.min_r by lia.
    rewrite take_ge; [done|]. by rewrite Hlen.
Qed.

(** Whatever the scores are, the selection is [min(top_k, N)] of the rows. *)
Lemma select_top_rows results top_k :
  length (select_top partial_sort results top_k) = Nat.min top_k (length results)
  ∧ select_top partial_sort results top_k ⊆+ results.
Proof.
  rewrite select_top_take.
  set (m := Nat.min top_k (length results)).
  destruct (partial_sort_ok by_score_desc m results) as (HP & _); [subst m; lia|].
  set (sorted := partial_sort by_score_desc m results) in *.
  split.
  - rewrite length_take, (Permutation_length HP). subst m. lia.
  - rewrite <- HP. apply sublist_submseteq, sublist_take.
Qed.

(** Without NaN scores the selection is sorted and holds the best rows. *)
Lemma select_top_spec results top_k :
  nan_free results →
  StronglySorted (λ a b, double_ge (score a) (score b) = true)
    (select_top partial_sort results top_k)
  ∧ (∀ b, b ∈ results →
       b ∈ select_top partial_sort results top_k
       ∨ Forall (λ a, double_ge (score a) (score b) = true)
           (select_top partial_sort results top_k)).
Proof.
  intros Hfree.
  assert (Hnan : ∀ r, r ∈ results → is_nan (score r) = false)
    by (by apply Forall_forall).
  pose proof (select_top_rows results top_k) as [_ Hsub]. revert Hsub.
  rewrite select_top_take.
  set (m := Nat.min top_k (length results)).
  destruct (partial_sort_ok by_score_desc m results) as (HP & Hsorted); [subst m; lia|].
  destruct (Hsorted (by_score_desc_strict_weak_order results Hfree)) as (HS & Hcross).
  set (sorted := partial_sort by_score_desc m results) in *.
  intros Hsub.
  assert (Htake : ∀ r, r ∈ take m sorted → is_nan (score r) = false).
  { intros r Hr. apply Hnan. by eapply elem_of_submseteq. }
  split.
  - clear -HS Htake. induction HS as [|a l _ IH Ha]; constructor.
    + apply IH. intros r Hr. apply Htake. by right.
    + apply Forall_forall. intros b Hb. rewrite Forall_forall in Ha.
      apply by_score_desc_not_after; [apply Htake; by left|apply Htake; by right|].
      by apply Ha.
  - intros b Hb. pose proof Hb as Hb'.
    rewrite <- HP, <- (take_drop m sorted) in Hb.
    apply elem_of_app in Hb as [Hb|Hb]; [by left|right].
    apply Forall_forall. intros a Ha.
    apply by_score_desc_not_after; [by apply Htake|by apply Hnan|]. by apply Hcross.
Qed.

Variable LGBM_BoosterPredictForMat : list float → nat → nat → Z * nat * list double.
Hypothesis lgbm_ok : lgbm_contract LGBM_BoosterPredictForMat.

Lemma lgbm_predict_scores_returns flat_matrix n out_len scores :
  flat_matrix ≠ [] →
  length flat_matrix = (n * builder.FEATURES_PER_ROW)%nat →
  LGBM_BoosterPredictForMat flat_matrix n builder.FEATURES_PER_ROW = (0%Z, out_len, scores) →
  lgbm_predict_scores LGBM_BoosterPredictForMat flat_matrix = Returned scores
  ∧ length scores = n.
Proof.
  intros Hne Hlen Hcall. unfold lgbm_predict_scores.
  rewrite bool_decide_eq_false_2 by done.
  rewrite Hlen, Nat.div_mul by done. rewrite Hcall.
  destruct (lgbm_ok _ _ _ _ _ _ Hcall) as [Hbuf Hout].
  rewrite bool_decide_eq_false_2 by (intros H; by apply H).
  rewrite bool_decide_eq_false_2 by (intros H; by apply H, Hout).
  done.
Qed.


(** C5, as amended. When the matrix and the template list are both
    non-empty and the matrix length differs from 27 times the number of
    templates, the LightGBM predictor throws an argument error; when either
    is empty it returns no prediction and raises nothing, whatever the size
    of the other. *)
Theorem lgbm_predict_top_templates_size_check flat_matrix templates top_k :
  (flat_matrix ≠ [] → templates ≠ [] →
   length flat_matrix ≠ (length templates * 27)%nat →
   lgbm_predict_top_templates partial_sort LGBM_BoosterPredictForMat
     flat_matrix templates top_k = Thrown invalid_argument)
  ∧ (flat_matrix = [] ∨ templates = [] →
     lgbm_predict_top_templates partial_sort LGBM_BoosterPredictForMat
       flat_matrix templates top_k = Returned []).
Proof.
  unfold lgbm_predict_top_templates. split.
  - intros Hf Ht Hlen.
    rewrite (bool_decide_eq_false_2 (flat_matrix = [])) by done.
    rewrite (bool_decide_eq_false_2 (templates = [])) by done. cbn [orb].
    by rewrite bool_decide_eq_true_2.
  - intros [-> | ->]; [done|].
    rewrite (bool_decide_eq_true_2 ([] = [])) by done. by rewrite orb_true_r.
Qed.

End TopK.



(** With a NaN among the scores the comparator is no strict weak ordering
    of the rows, and the rows returned need not be the best ones: on the
    scores NaN, 1, 2 libstdc++'s [std::partial_sort] leaves the NaN row in
    front, so that for [top_k = 1] it is the row returned, and for
    [top_k = 3] the rows come back as 2, 0, 1. *)
Lemma lgbm_nan_score_returned :
  lgbm_contract (fixed_scores_booster nan_scores)
  ∧ lgbm_predict_top_templates libstdcxx_partial_sort (fixed_scores_booster nan_scores)
      sample_matrix sample_templates 1
    = Returned [mkTemplatePrediction 0 NaN 101 (sample_template 101)]
  ∧ pred_index <$>
      match lgbm_predict_top_templates libstdcxx_partial_sort
              (fixed_scores_booster nan_scores) sample_matrix sample_templates 3 with
      | Returned res => res
      | _ => []
      end
    = [2; 0; 1]%nat.
Proof.
  split; [apply fixed_scores_booster_contract|]. split; by vm_compute.
Qed.

Lemma lgbm_predict_top_templates_size_check_witness :
  lgbm_predict_top_templates insertion_partial_sort (fixed_scores_booster tied_scores)
    [float_zero] sample_templates 3 = Thrown invalid_argument
  ∧ lgbm_predict_top_templates insertion_partial_sort (fixed_scores_booster tied_scores)
      [] sample_templates 3 = Returned [].
Proof.
  split.
  - apply (proj1 (lgbm_predict_top_templates_size_check insertion_partial_sort
                    (fixed_scores_booster tied_scores) [float_zero] sample_templates 3));
      [done|done|cbn; lia].
  - apply (proj2 (lgbm_predict_top_templates_size_check insertion_partial_sort
                    (fixed_scores_booster tied_scores) [] sample_templates 3)).
    by left.
Defined.

(** The claim of C5 fails when one side is empty: an empty matrix with three
    templates, and a non-empty matrix with no template, both return no
    prediction instead of throwing. The CatBoost predictor throws on the
    first of these inputs. *)
Lemma lgbm_empty_mismatch_returns :
  length ([] : list float) ≠ (length sample_templates * 27)%nat
  ∧ lgbm_predict_top_templates insertion_partial_sort (fixed_scores_booster tied_scores)
      [] sample_templates 3 = Returned []
  ∧ length sample_matrix ≠ (length ([] : list CandidateTemplate) * 27)%nat
  ∧ lgbm_predict_top_templates insertion_partial_sort (fixed_scores_booster tied_scores)
      sample_matrix [] 3 = Returned []
  ∧ catboost_predict_top_templates insertion_partial_sort (fixed_scores_calcer tied_scores)
      [] sample_templates 3 = Thrown invalid_argument.
Proof. repeat split; try done; cbn; lia. Qed.

(** ** The prediction engine *)

Import engine.

Lemma count_char_app c s1 s2 :
  count_char c (s1 +:+ s2) = (count_char c s1 + count_char c s2)%nat.
Proof. induction s1 as [|d s1 IH]; simpl; [done|]. rewrite IH. lia. Qed.

Lemma same_row_refl r : same_row r r.
Proof. by repeat split. Qed.

Lemma verify_results_same_rows verify_email i best results :
  Forall2 same_row results (verify_results verify_email i best results).1.
Proof.
  revert i best. induction results as [|r results IH]; intros i best; cbn.
  - constructor.
  - match goal with |- context [verify_results verify_email (S i) ?b results] =>
      specialize (IH (S i) b);
      destruct (verify_results verify_email (S i) b results) as [rest' best'']
    end.
    cbn in *. constructor; [by repeat split|done].
Qed.

Lemma alter_same_rows f i results results' :
  (∀ r, same_row r (f r)) →
  Forall2 same_row results results' →
  Forall2 same_row results (alter f i results').
Proof.
  intros Hf H. revert i. induction H as [|r r' l l' Hr Hl IH]; intros i.
  - constructor.
  - destruct i as [|i]; cbn.
    + constructor; [|done]. destruct Hr as (H1 & H2 & H3), (Hf r') as (G1 & G2 & G3).
      repeat split; congruence.
    + constructor; [done|apply IH].
Qed.

(** The hooks after ranking touch neither the email, the score nor the
    template id of a row, and drop or add no row. *)
Lemma post_process_same_rows e investor_name firm_name results :
  Forall2 same_row results (post_process e investor_name firm_name results).
Proof.
  unfold post_process.
  assert (H : Forall2 same_row results
                (match verification_pipeline_ e with
                 | Some verifier => verify_results verifier 0 None results
                 | None => (results, None)
                 end).1).
  { destruct (verification_pipeline_ e); [apply verify_results_same_rows|].
    cbn. apply Forall_Forall2_diag, Forall_true, same_row_refl. }
  destruct (match verification_pipeline_ e with
            | Some verifier => verify_results verifier 0 None results
            | None => (results, None)
            end) as [results' best]. cbn in H.
  destruct (enrichment_pipeline_ e) as [enrich|]; [|done].
  destruct best as [[i sc]|]; [|done].
  destruct (results' !! i) as [best_result|]; [|done].
  destruct (enrich investor_name firm_name (email best_result)) as [enriched|]; [|done].
  apply alter_same_rows; [|done]. intros r. by repeat split.
Qed.

Lemma format_results_rendered name domain_string top_predictions results :
  format_results name domain_string top_predictions = Returned results →
  Forall (λ row, ∃ pred, pred ∈ top_predictions ∧ rendered_from name domain_string pred row)
         results.
Proof.
  revert results. induction top_predictions as [|pred rest IH]; intros results; cbn.
  - intros [= <-]. constructor.
  - destruct (local_part_resolver.resolve_email_local_part name (token_seq (metadata pred)))
      as [local_part| |] eqn:Elp; cbn; [|done|done].
    destruct (format_results name domain_string rest) as [results'| |]; cbn; [|done|done].
    specialize (IH results' eq_refl).
    assert (IH' : Forall (λ row, ∃ pred0, pred0 ∈ pred :: rest
                                   ∧ rendered_from name domain_string pred0 row) results').
    { eapply Forall_impl; [exact IH|]. intros row (p & Hp & Hrow).
      exists p. split; [by right|done]. }
    destruct local_part as [lp|]; intros [= <-]; [|done].
    constructor; [|done]. exists pred. split; [by left|].
    split; [done|]. split; [done|]. exists lp. split; [done|]. split; [done|].
    cbn [email]. rewrite !count_char_app. cbn. lia.
Qed.

Section EngineProperties.

Variable icu_nfkd : string → option string.
Variable similarity : string → string → double.

(** C3. [predict] runs the complex predictor on the complex template set
    exactly when the decomposed name has a middle name, several first names
    or several last names, or the flags report a German character or an
    NFKD change; otherwise it runs the standard predictor on the standard
    template set. *)
Theorem predict_selection_branch e investor_name firm_name top_k domain :
  let name := decompose icu_nfkd investor_name in
  let flags := features.extract icu_nfkd investor_name in
  let complex :=
    has_middle_name name = true ∨ has_multiple_first_names name = true ∨
    has_multiple_last_names name = true ∨
    features.has_german_char flags = true ∨ features.has_nfkd_normalized flags = true in
  (complex_name name flags = true ↔ complex)
  ∧ (complex →
     predict icu_nfkd similarity e investor_name firm_name top_k domain
     = predict_with icu_nfkd similarity e (complex_predictor_ e) (complex_templates_ e)
         investor_name firm_name top_k domain)
  ∧ (¬ complex →
     predict icu_nfkd similarity e investor_name firm_name top_k domain
     = predict_with icu_nfkd similarity e (std_predictor_ e) (std_templates_ e)
         investor_name firm_name top_k domain).
Proof.
  intros name flags complex.
  assert (Hiff : complex_name name flags = true ↔ complex).
  { unfold complex_name, complex. rewrite !orb_true_iff. tauto. }
  assert (Heq : ∀ b, complex_name name flags = b →
            predict icu_nfkd similarity e investor_name firm_name top_k domain
            = predict_with icu_nfkd similarity e
                (if b then complex_predictor_ e else std_predictor_ e)
                (if b then complex_templates_ e else std_templates_ e)
                investor_name firm_name top_k domain).
  { intros b Hb. unfold predict, predict_with. fold name flags. rewrite Hb.
    destruct (resolve_query_domain similarity e firm_name domain) as [[d e']| |];
      [|done|done].
    cbn. by destruct b. }
  split; [done|]. split.
  - intros Hc. apply (Heq true). by apply Hiff.
  - intros Hn. apply (Heq false). destruct (complex_name name flags); [|done].
    exfalso. by apply Hn, Hiff.
Qed.

(** C9, as amended. Every row [predict] returns comes from one of the
    predictions of the chosen model: its email is the local part rendered
    from that prediction's template, then [@], then the resolved domain, and
    its score and template id are the prediction's. The email therefore
    holds one [@] more than the local part and the domain hold together:
    exactly one when neither holds any, which the engine does not check. *)
Theorem predict_email_shape e investor_name firm_name top_k domain rows e' :
  predict icu_nfkd similarity e investor_name firm_name top_k domain
  = Returned (rows, e') →
  let name := decompose icu_nfkd investor_name in
  let flags := features.extract icu_nfkd investor_name in
  let templates :=
    if complex_name name flags then complex_templates_ e else std_templates_ e in
  let chosen := if complex_name name flags then complex_predictor_ e else std_predictor_ e in
  ∃ domain_string top_predictions,
    resolve_query_domain similarity e firm_name domain = Returned (domain_string, e')
    ∧ chosen (builder.build_feature_rows name flags firm_name templates
                (firm_stats_ e) (firm_usage_map_ e)) templates top_k
      = Returned top_predictions
    ∧ Forall (λ row, ∃ pred, pred ∈ top_predictions
                             ∧ rendered_from name domain_string pred row) rows.
Proof.
  intros Hpredict name flags templates chosen. revert Hpredict.
  unfold predict. fold name flags.
  destruct (resolve_query_domain similarity e firm_name domain)
    as [[domain_string e1]| |]; cbn; [|done|done].
  assert (Hcall :
    (if complex_name name flags
     then complex_predictor_ e
            (builder.build_feature_rows name flags firm_name
               (if complex_name name flags then complex_templates_ e else std_templates_ e)
               (firm_stats_ e) (firm_usage_map_ e)) (complex_templates_ e) top_k
     else std_predictor_ e
            (builder.build_feature_rows name flags firm_name
               (if complex_name name flags then complex_templates_ e else std_templates_ e)
               (firm_stats_ e) (firm_usage_map_ e)) (std_templates_ e) top_k)
    = chosen (builder.build_feature_rows name flags firm_name templates
                (firm_stats_ e) (firm_usage_map_ e)) templates top_k).
  { subst chosen templates. by destruct (complex_name name flags). }
  rewrite Hcall.
  destruct (chosen _ templates top_k) as [top_predictions| |]; cbn; [|done|done].
  destruct (format_results name domain_string top_predictions) as [results| |] eqn:Ef;
    cbn; [|done|done].
  intros [= <- <-]. exists domain_string, top_predictions.
  split; [done|]. split; [done|].
  pose proof (format_results_rendered _ _ _ _ Ef) as Hres.
  pose proof (post_process_same_rows e investor_name firm_name results) as Hsame.
  apply Forall_forall. intros row' Hrow'.
  apply list_elem_of_lookup_1 in Hrow' as [j Hj].
  destruct (Forall2_lookup_r _ _ _ _ _ Hsame Hj) as (row & Hrow & He & Hs & Ht).
  rewrite Forall_forall in Hres.
  destruct (Hres row (list_elem_of_lookup_2 _ _ _ Hrow))
    as (pred & Hpred & Hid & Hscore & lp & Hlp & Hemail & Hcount).
  exists pred. split; [done|]. split; [congruence|]. split; [congruence|].
  exists lp. rewrite He. done.
Qed.


End EngineProperties.

Lemma predict_selection_branch_witness :
  predict icu_ascii sample_similarity sample_engine "John Quincy Smith" "acme" 3
    (Some "acme.com")
  = predict_with icu_ascii sample_similarity sample_engine
      (complex_predictor_ sample_engine) (complex_templates_ sample_engine)
      "John Quincy Smith" "acme" 3 (Some "acme.com")
  ∧ predict icu_ascii sample_similarity sample_engine "John Smith" "acme" 3
      (Some "acme.com")
    = predict_with icu_ascii sample_similarity sample_engine
        (std_predictor_ sample_engine) (std_templates_ sample_engine)
        "John Smith" "acme" 3 (Some "acme.com").
Proof.
  split.
  - apply (proj1 (proj2 (predict_selection_branch icu_ascii sample_similarity
                           sample_engine "John Quincy Smith" "acme" 3 (Some "acme.com")))).
    left. by vm_compute.
  - apply (proj2 (proj2 (predict_selection_branch icu_ascii sample_similarity
                           sample_engine "John Smith" "acme" 3 (Some "acme.com")))).
    intros H. vm_compute in H. by destruct H as [H|[H|[H|[H|H]]]].
Defined.

Lemma predict_email_shape_witness :
  ∃ domain_string top_predictions,
    resolve_query_domain sample_similarity sample_engine "acme" (Some "acme.com")
    = Returned (domain_string, sample_engine)
    ∧ sample_predictor
        (builder.build_feature_rows (decompose icu_ascii "John Smith")
           (features.extract icu_ascii "John Smith") "acme" [sample_template 1] ∅ ∅)
        [sample_template 1] 3
      = Returned top_predictions
    ∧ Forall (λ row, ∃ pred, pred ∈ top_predictions
                             ∧ rendered_from (decompose icu_ascii "John Smith")
                                 domain_string pred row)
             [mkEmailPredictionResult "john.smith@acme.com" double_zero 1 None None].
Proof.
  apply (predict_email_shape icu_ascii sample_similarity sample_engine
           "John Smith" "acme" 3 (Some "acme.com")
           [mkEmailPredictionResult "john.smith@acme.com" double_zero 1 None None]
           sample_engine).
  by vm_compute.
Defined.

(** The "exactly one [@]" part of C9 fails: a name that holds an [@] keeps
    it through cleaning, and the row returned for it has two. *)
Lemma predict_email_two_ats :
  predict icu_ascii sample_similarity sample_engine "Ann@ Lee" "acme" 3 (Some "acme.com")
  = Returned ([mkEmailPredictionResult "ann@.lee@acme.com" double_zero 1 None None],
              sample_engine)
  ∧ count_char "@" "ann@.lee@acme.com" = 2.
Proof. split; by vm_compute. Qed.

(** * Further properties of the code *)

(** ** The splitter's iterator *)

Lemma string_drop_length n s :
  String.length (string_drop n s) = (String.length s - n)%nat.
Proof.
  revert s. induction n as [|n IH]; intros [|c s]; cbn; try done.
Qed.

Lemma string_drop_add a b s :
  string_drop b (string_drop a s) = string_drop (a + b) s.
Proof.
  revert s. induction a as [|a IH]; intros s; cbn; [done|].
  destruct s as [|c s]; [by destruct b|apply IH].
Qed.

Lemma string_drop_all n s :
  (String.length s ≤ n)%nat → string_drop n s = EmptyString.
Proof.
  revert s. induction n as [|n IH]; intros [|c s]; cbn; try done; [lia|].
  intros H. apply IH. lia.
Qed.

Lemma string_app_cons c s1 s2 : String c s1 +:+ s2 = String c (s1 +:+ s2).
Proof. done. Qed.

Lemma string_app_push_back cur c s :
  push_back cur c +:+ s = cur +:+ String c s.
Proof.
  unfold push_back. induction cur as [|d cur IH]; [done|].
  by rewrite !string_app_cons, IH.
Qed.

Lemma string_app_empty_r s : s +:+ EmptyString = s.
Proof. induction s as [|c s IH]; [done|]. by rewrite string_app_cons, IH. Qed.

(** A string without the delimiter is one token, or none when it is empty. *)
Lemma split_all_from_no_delimiter delimiter cur s :
  features.find_char delimiter s = None →
  string_normalization.split_all_from delimiter cur s
  = if string_empty (cur +:+ s) then [] else [cur +:+ s].
Proof.
  revert cur. induction s as [|c s IH]; intros cur; cbn.
  - by rewrite string_app_empty_r.
  - destruct (Ascii.eqb c delimiter); [done|].
    destruct (features.find_char delimiter s); [done|]. intros _.
    rewrite IH by done. by rewrite string_app_push_back.
Qed.

(** Up to the first delimiter lies the first token, if it is not empty. *)
Lemma split_all_from_delimiter delimiter cur s len :
  features.find_char delimiter s = Some len →
  string_normalization.split_all_from delimiter cur s
  = (if string_empty (cur +:+ substring 0 len s) then [] else [cur +:+ substring 0 len s])
    ++ string_normalization.split_all_from delimiter EmptyString (string_drop (S len) s).
Proof.
  revert cur len. induction s as [|c s IH]; intros cur len; cbn; [done|].
  destruct (Ascii.eqb c delimiter).
  - intros [= <-]. cbn. rewrite string_app_empty_r. by destruct (string_empty cur).
  - destruct (features.find_char delimiter s) as [k|]; [|done]. intros [= <-].
    rewrite (IH _ k) by done. cbn. by rewrite string_app_push_back.
Qed.

Lemma find_char_lt delimiter s len :
  features.find_char delimiter s = Some len → (len < String.length s)%nat.
Proof.
  revert len. induction s as [|c s IH]; intros len; cbn; [done|].
  destruct (Ascii.eqb c delimiter); [intros [= <-]; lia|].
  destruct (features.find_char delimiter s) as [k|]; [|done].
  intros [= <-]. specialize (IH k eq_refl). lia.
Qed.

Lemma next_loop_spec delimiter size rest start :
  size = (start + String.length rest)%nat →
  let '(part, pos) := StringViewSplitter.next_loop delimiter size rest start in
  (start < pos ≤ size + 1)%nat ∧
  match part with
  | Some p =>
      string_normalization.split_all_from delimiter EmptyString rest
      = p :: string_normalization.split_all_from delimiter EmptyString
               (string_drop (pos - start) rest)
  | None =>
      string_normalization.split_all_from delimiter EmptyString rest = []
      ∧ pos = (size + 1)%nat
  end.
Proof.
  revert start. induction rest as [|c rest IH]; intros start Hsize.
  - cbn [StringViewSplitter.next_loop features.find_char string_empty].
    cbn in Hsize. by destruct (start <? size)%nat; (split; [lia|]).
  - cbn [StringViewSplitter.next_loop].
    destruct (features.find_char delimiter (String c rest)) as [len|] eqn:Efind.
    + destruct len as [|len].
      * cbn [Nat.ltb Nat.leb].
        assert (Ec : Ascii.eqb c delimiter = true).
        { cbn in Efind. destruct (Ascii.eqb c delimiter); [done|].
          by destruct (features.find_char delimiter rest). }
        specialize (IH (start + 1)%nat). cbn in Hsize.
        destruct (StringViewSplitter.next_loop delimiter size rest (start + 1))
          as [part pos].
        destruct IH as [Hpos Hpart]; [lia|]. split; [lia|].
        cbn [string_normalization.split_all_from string_empty]. rewrite Ec.
        destruct part as [p|]; [|done].
        rewrite Hpart. do 2 f_equal.
        replace (pos - start)%nat with (S (pos - (start + 1))) by lia. done.
      * replace (0 <? S len)%nat with true by done.
        cbn in Hsize.
        pose proof (find_char_lt _ _ _ Efind) as Hlen. cbn in Hlen.
        split; [lia|].
        rewrite (split_all_from_delimiter _ _ _ _ Efind).
        cbn [String.append substring string_empty app].
        do 2 f_equal. by replace (start + S len + 1 - start)%nat with (S (S len)) by lia.
    + cbn in Hsize.
      replace (start <? size)%nat with true by (symmetry; apply Nat.ltb_lt; lia).
      cbn [string_empty]. split; [lia|].
      rewrite (split_all_from_no_delimiter _ _ _ Efind).
      cbn [String.append string_empty]. f_equal.
      rewrite string_drop_all; [done|]. cbn. lia.
Qed.

Lemma collect_split_all_from str delimiter calls start :
  (start ≤ String.length str + 1)%nat →
  (String.length str + 1 - start ≤ calls)%nat →
  StringViewSplitter.collect calls (StringViewSplitter.mk str delimiter start)
  = string_normalization.split_all_from delimiter EmptyString (string_drop start str).
Proof.
  revert start. induction calls as [|calls IH]; intros start Hstart Hcalls.
  - cbn. rewrite string_drop_all by lia. done.
  - cbn [StringViewSplitter.collect]. unfold StringViewSplitter.next.
    cbn [StringViewSplitter.pos_ StringViewSplitter.str_ StringViewSplitter.delimiter_].
    destruct (start <=? String.length str)%nat eqn:Ele.
    + apply Nat.leb_le in Ele.
      pose proof (next_loop_spec delimiter (String.length str)
                    (string_drop start str) start) as Hspec.
      destruct (StringViewSplitter.next_loop delimiter (String.length str)
                  (string_drop start str) start) as [part pos].
      destruct Hspec as [Hpos Hpart]; [rewrite string_drop_length; lia|].
      destruct part as [p|]; [|by destruct Hpart as [-> _]].
      rewrite Hpart, string_drop_add.
      replace (start + (pos - start))%nat with pos by lia.
      f_equal. apply IH; lia.
    + apply Nat.leb_gt in Ele. rewrite string_drop_all by lia. done.
Qed.

(** One call of [next()]: the part returned is the first token of what is
    left, and nothing is returned exactly when no token is left, neither
    before nor after the call. *)
Lemma next_spec str delimiter start :
  ∃ pos,
    (StringViewSplitter.next (StringViewSplitter.mk str delimiter start)).2
    = StringViewSplitter.mk str delimiter pos
    ∧ match (StringViewSplitter.next (StringViewSplitter.mk str delimiter start)).1 with
      | Some p =>
          string_normalization.split_all_from delimiter EmptyString (string_drop start str)
          = p :: string_normalization.split_all_from delimiter EmptyString
                   (string_drop pos str)
      | None =>
          string_normalization.split_all_from delimiter EmptyString (string_drop start str)
          = []
          ∧ string_normalization.split_all_from delimiter EmptyString (string_drop pos str)
            = []
      end.
Proof.
  unfold StringViewSplitter.next.
  cbn [StringViewSplitter.pos_ StringViewSplitter.str_ StringViewSplitter.delimiter_].
  destruct (start <=? String.length str)%nat eqn:Ele.
  - apply Nat.leb_le in Ele.
    pose proof (next_loop_spec delimiter (String.length str)
                  (string_drop start str) start) as Hspec.
    destruct (StringViewSplitter.next_loop delimiter (String.length str)
                (string_drop start str) start) as [part pos].
    destruct Hspec as [Hpos Hpart]; [rewrite string_drop_length; lia|].
    exists pos. split; [done|]. cbn [fst]. destruct part as [p|].
    + rewrite Hpart, string_drop_add.
      by replace (start + (pos - start))%nat with pos by lia.
    + destruct Hpart as [-> ->]. split; [done|]. by rewrite string_drop_all by lia.
  - apply Nat.leb_gt in Ele. exists start. split; [done|]. cbn [fst].
    by rewrite string_drop_all by lia.
Qed.

Lemma next_after_calls str delimiter calls start :
  (StringViewSplitter.next
     (StringViewSplitter.after_calls calls (StringViewSplitter.mk str delimiter start))).1
  = string_normalization.split_all_from delimiter EmptyString (string_drop start str)
    !! calls.
Proof.
  revert start. induction calls as [|calls IH]; intros start;
    cbn [StringViewSplitter.after_calls];
    destruct (next_spec str delimiter start) as (pos & Hstate & Hpart).
  - destruct (StringViewSplitter.next _).1 as [p|]; [by rewrite Hpart|].
    by destruct Hpart as [-> _].
  - rewrite Hstate, IH.
    destruct (StringViewSplitter.next _).1 as [p|]; [by rewrite Hpart|].
    destruct Hpart as [-> ->]. done.
Qed.

(** X1. The calls of [next()] return the tokens of [split_all()] one by
    one, in order, and every call after the last token returns nothing; so
    the loop that calls [next()] until it returns nothing collects exactly
    the tokens of [split_all()], and ends within [size + 1] calls that
    return a part. *)
Theorem next_until_exhausted_is_split_all str delimiter :
  (∀ calls,
     (StringViewSplitter.next
        (StringViewSplitter.after_calls calls (StringViewSplitter.make str delimiter))).1
     = string_normalization.split_all str delimiter !! calls)
  ∧ (∀ extra,
       StringViewSplitter.collect (S (String.length str) + extra)
         (StringViewSplitter.make str delimiter)
       = string_normalization.split_all str delimiter).
Proof.
  unfold StringViewSplitter.make, string_normalization.split_all. split.
  - intros calls. by rewrite next_after_calls.
  - intros extra. rewrite collect_split_all_from by lia. done.
Qed.


(** ** The template token parser *)

Lemma parts_split_all token delimiter :
  StringViewSplitter.parts token delimiter
  = string_normalization.split_all token delimiter.
Proof.
  unfold StringViewSplitter.parts, StringViewSplitter.make, string_normalization.split_all.
  rewrite collect_split_all_from by lia. done.
Qed.

Lemma parse_index_digits index_val index_part :
  if forallb is_digit (list_ascii_of_string index_part)
  then ∃ v, templates_loader.parse_index index_val index_part = Returned v
  else templates_loader.parse_index index_val index_part = Thrown runtime_error.
Proof.
  revert index_val. induction index_part as [|c rest IH]; intros index_val; cbn.
  - eauto.
  - unfold is_digit at 1.
    destruct (N.leb_spec 48 (N_of_ascii c)) as [H1|H1],
             (N.leb_spec (N_of_ascii c) 57) as [H2|H2]; cbn [andb].
    + replace (N_of_ascii c <? 48)%N with false by (symmetry; apply N.ltb_ge; lia).
      replace (57 <? N_of_ascii c)%N with false by (symmetry; apply N.ltb_ge; lia).
      cbn [orb]. apply IH.
    + replace (57 <? N_of_ascii c)%N with true by (symmetry; apply N.ltb_lt; lia).
      by rewrite orb_true_r.
    + by replace (N_of_ascii c <? 48)%N with true by (symmetry; apply N.ltb_lt; lia).
    + by replace (N_of_ascii c <? 48)%N with true by (symmetry; apply N.ltb_lt; lia).
Qed.

Lemma string_eqb_cons c s d r :
  String.eqb (String c s) (String d r) = Ascii.eqb c d && String.eqb s r.
Proof. cbn. by destruct (Ascii.eqb c d). Qed.

Lemma parse_group_known group_str :
  if contains known_groups group_str
  then ∃ grp, templates_loader.parse_group group_str
              = Returned (grp, bool_decide (String.length group_str = 1%nat))
              ∧ grp ≠ Unknown
  else templates_loader.parse_group group_str = Thrown runtime_error.
Proof.
  unfold contains, known_groups. cbn [existsb].
  destruct (String.eqb group_str "f") eqn:E1;
    [apply String.eqb_eq in E1 as ->; by exists First|].
  destruct (String.eqb group_str "m") eqn:E2;
    [apply String.eqb_eq in E2 as ->; by exists Middle|].
  destruct (String.eqb group_str "l") eqn:E3;
    [apply String.eqb_eq in E3 as ->; by exists Last|].
  destruct (String.eqb group_str "first") eqn:E4;
    [apply String.eqb_eq in E4 as ->; by exists First|].
  destruct (String.eqb group_str "middle") eqn:E5;
    [apply String.eqb_eq in E5 as ->; by exists Middle|].
  destruct (String.eqb group_str "last") eqn:E6;
    [apply String.eqb_eq in E6 as ->; by exists Last|].
  cbn [orb]. unfold templates_loader.parse_group.
  destruct group_str as [|c1 [|c2 [|c3 [|c4 [|c5 [|c6 [|c7 s]]]]]]];
    cbn [String.length String.get]; try done.
  - rewrite string_eqb_cons, andb_true_r in E1, E2, E3. by rewrite E1, E2, E3.
  - by rewrite E6.
  - by rewrite E4.
  - by rewrite E5.
Qed.

Lemma parse_flag_known t flag :
  string_empty flag = false →
  if contains known_flags flag
  then ∃ t', templates_loader.parse_flag t flag = Returned t'
             ∧ group t' = group t ∧ separator t' = separator t
             ∧ use_initial t' = use_initial t ∧ index t' = index t
  else templates_loader.parse_flag t flag = Thrown runtime_error.
Proof.
  intros Hne. unfold contains, known_flags. cbn [existsb].
  destruct (String.eqb flag "original") eqn:E1;
    [apply String.eqb_eq in E1 as ->; by eexists|].
  destruct (String.eqb flag "nfkd") eqn:E2;
    [apply String.eqb_eq in E2 as ->; by eexists|].
  destruct (String.eqb flag "nickname") eqn:E3;
    [apply String.eqb_eq in E3 as ->; by eexists|].
  destruct (String.eqb flag "translit") eqn:E4;
    [apply String.eqb_eq in E4 as ->; by eexists|].
  destruct (String.eqb flag "surp") eqn:E5;
    [apply String.eqb_eq in E5 as ->; by eexists|].
  cbn [orb]. unfold templates_loader.parse_flag.
  destruct flag as [|c flag]; [done|].
  rewrite E1, E2, E3, E4, E5. by repeat destruct (Ascii.eqb c _).
Qed.

Lemma parse_flags_known t flags :
  Forall (λ flag, string_empty flag = false) flags →
  if forallb (contains known_flags) flags
  then ∃ t', templates_loader.parse_flags t flags = Returned t'
             ∧ group t' = group t ∧ separator t' = separator t
             ∧ use_initial t' = use_initial t ∧ index t' = index t
  else templates_loader.parse_flags t flags = Thrown runtime_error.
Proof.
  intros Hne. revert t. induction Hne as [|flag flags Hflag _ IH]; intros t.
  - cbn. by exists t.
  - cbn [forallb templates_loader.parse_flags].
    pose proof (parse_flag_known t flag Hflag) as Hf.
    destruct (contains known_flags flag); cbn [andb].
    + destruct Hf as (t1 & -> & Hg & Hs & Hi & Hx). cbn.
      specialize (IH t1). destruct (forallb (contains known_flags) flags).
      * destruct IH as (t' & -> & Hg' & Hs' & Hi' & Hx'). exists t'.
        repeat split; congruence.
      * done.
    + by rewrite Hf.
Qed.

Lemma Forall_removelast {A : Type} (P : A → Prop) (l : list A) :
  Forall P l → Forall P (removelast l).
Proof.
  induction 1 as [|x l Hx Hl IH]; cbn; [constructor|].
  destruct l; [constructor|]. by constructor.
Qed.

Lemma Forall_last {A : Type} (P : A → Prop) (l : list A) (d : A) :
  Forall P l → l ≠ [] → P (List.last l d).
Proof.
  induction 1 as [|x l Hx Hl IH]; [done|]. intros _. cbn.
  destruct l; [done|]. by apply IH.
Qed.

(** What a token parses to, by its grammar. *)
Lemma parse_token_cases token :
  if well_formed_token token
  then ∃ t, templates_loader.parse_token token = Returned t
            ∧ if templates_loader.is_separator token
              then t = separator_token token
              else separator t = None ∧ group t ≠ Unknown
                   ∧ (use_initial t = true ↔
                      String.length (hd EmptyString (string_normalization.split_all token "_"))
                      = 1%nat)
  else templates_loader.parse_token token = Thrown runtime_error.
Proof.
  unfold well_formed_token, templates_loader.parse_token.
  destruct (templates_loader.is_separator token); [by eexists|]. cbn [orb].
  rewrite parts_split_all.
  pose proof (split_all_strings_nonempty token "_") as Hne.
  unfold string_normalization.split_all_strings in Hne.
  set (parts := string_normalization.split_all token "_") in *. clearbody parts.
  destruct (length parts <? 2)%nat eqn:Elen.
  { apply Nat.ltb_lt in Elen.
    by replace (2 <=? length parts)%nat with false by (symmetry; apply Nat.leb_gt; lia). }
  apply Nat.ltb_ge in Elen.
  replace (2 <=? length parts)%nat with true by (symmetry; by apply Nat.leb_le).
  cbn [andb].
  assert (Hlast : string_empty (List.last parts EmptyString) = false).
  { apply (Forall_last (λ t, string_empty t = false)); [done|].
    intros ->. cbn in Elen. lia. }
  rewrite Hlast.
  pose proof (parse_index_digits 0 (List.last parts EmptyString)) as Hidx.
  pose proof (parse_group_known (hd EmptyString parts)) as Hgrp.
  destruct (contains known_groups (hd EmptyString parts)); cbn [andb].
  - destruct Hgrp as (grp & Hgrp & Hknown).
    destruct (forallb is_digit (list_ascii_of_string (List.last parts EmptyString))).
    + destruct Hidx as (v & ->). rewrite Hgrp. cbn.
      pose proof (parse_flags_known
                    (mkTemplateToken grp (N.to_nat v) false false false false false
                       (bool_decide (String.length (hd EmptyString parts) = 1%nat)) None)
                    (removelast (tl parts))) as Hflags.
      destruct (forallb (contains known_flags) (removelast (tl parts))).
      * destruct Hflags as (t & -> & Hg & Hs & Hi & _).
        { apply Forall_removelast. destruct parts; [done|]. by apply Forall_inv_tail in Hne. }
        exists t. split; [done|]. cbn in Hg, Hs, Hi. rewrite Hg, Hs, Hi.
        split; [done|]. split; [done|]. apply bool_decide_eq_true.
      * apply Hflags.
        apply Forall_removelast. destruct parts; [done|]. by apply Forall_inv_tail in Hne.
    + rewrite Hidx, andb_false_r. done.
  - destruct (forallb is_digit (list_ascii_of_string (List.last parts EmptyString))).
    + destruct Hidx as (v & ->). by rewrite Hgrp.
    + by rewrite Hidx.
Qed.

Lemma parse_token_sequence_cases tokens :
  if forallb well_formed_token tokens
  then ∃ parsed, templates_loader.parse_token_sequence tokens = Returned parsed
                 ∧ Forall2 (λ token t, templates_loader.parse_token token = Returned t)
                     tokens parsed
  else templates_loader.parse_token_sequence tokens = Thrown runtime_error.
Proof.
  induction tokens as [|token tokens IH]; cbn [forallb templates_loader.parse_token_sequence].
  - exists []. by split; [|constructor].
  - pose proof (parse_token_cases token) as Ht.
    destruct (well_formed_token token); cbn [andb].
    + destruct Ht as (t & Ht & _). rewrite Ht. cbn.
      destruct (forallb well_formed_token tokens).
      * destruct IH as (parsed & -> & Hall). cbn. exists (t :: parsed).
        split; [done|]. by constructor.
      * by rewrite IH.
    + by rewrite Ht.
Qed.

(** X2. [parse_token_sequence] returns exactly when every token is well
    formed: a separator, or an underscore-separated token whose first part is
    one of f, m, l, first, middle, last, whose last part is a decimal number,
    and whose parts in between are known normalisation flags. Any other
    token makes the whole call throw a runtime error. Empty parts do not
    count, so doubled or trailing underscores are accepted. *)
Theorem parse_token_sequence_accepts tokens :
  if forallb well_formed_token tokens
  then ∃ parsed, templates_loader.parse_token_sequence tokens = Returned parsed
  else templates_loader.parse_token_sequence tokens = Thrown runtime_error.
Proof.
  pose proof (parse_token_sequence_cases tokens) as H.
  destruct (forallb well_formed_token tokens); [|done].
  destruct H as (parsed & H & _). eauto.
Qed.

Lemma parse_token_sequence_Forall2 tokens parsed :
  templates_loader.parse_token_sequence tokens = Returned parsed →
  Forall2 (λ token t, templates_loader.parse_token token = Returned t) tokens parsed.
Proof.
  intros H. pose proof (parse_token_sequence_cases tokens) as Hc.
  destruct (forallb well_formed_token tokens); [|by rewrite Hc in H].
  destruct Hc as (parsed' & Hp & Hall). congruence.
Qed.

Lemma parse_token_shape token t :
  templates_loader.parse_token token = Returned t →
  if templates_loader.is_separator token
  then t = separator_token token
  else separator t = None ∧ group t ≠ Unknown
       ∧ (use_initial t = true ↔
          String.length (hd EmptyString (string_normalization.split_all token "_")) = 1%nat).
Proof.
  intros H. pose proof (parse_token_cases token) as Hc.
  destruct (well_formed_token token); [|by rewrite Hc in H].
  destruct Hc as (t' & Ht' & Hshape).
  assert (t' = t) as -> by congruence. done.
Qed.

(** X3. A parsed sequence has one token for each input token, in order: a
    separator token carries the separator and nothing else; any other token
    has no separator, one of the groups first, middle, last, and is an
    initial exactly when its group part is a single letter. *)
Theorem parse_token_sequence_shape tokens parsed :
  templates_loader.parse_token_sequence tokens = Returned parsed →
  Forall2 (λ token t,
             if templates_loader.is_separator token
             then t = separator_token token
             else separator t = None ∧ group t ≠ Unknown
                  ∧ (use_initial t = true ↔
                     String.length
                       (hd EmptyString (string_normalization.split_all token "_")) = 1%nat))
          tokens parsed.
Proof.
  intros H. apply parse_token_sequence_Forall2 in H.
  eapply Forall2_impl; [exact H|]. intros token t. apply parse_token_shape.
Qed.

Lemma parse_token_sequence_shape_witness :
  Forall2 (λ token t,
             if templates_loader.is_separator token
             then t = separator_token token
             else separator t = None ∧ group t ≠ Unknown
                  ∧ (use_initial t = true ↔
                     String.length
                       (hd EmptyString (string_normalization.split_all token "_")) = 1%nat))
          ["f_0"; "."; "last_original_0"]
          [mkTemplateToken First 0 false false false false false true None;
           separator_token ".";
           mkTemplateToken Last 0 true false false false false false None].
Proof.
  apply (parse_token_sequence_shape ["f_0"; "."; "last_original_0"]). reflexivity.
Defined.

Lemma resolve_from_returns name token_seq oss :
  Forall token_has_group token_seq →
  ∃ r, local_part_resolver.resolve_from oss name token_seq = Returned r.
Proof.
  intros Hgrp. revert oss.
  induction Hgrp as [|token rest Hg _ IH]; intros oss;
    cbn [local_part_resolver.resolve_from]; [eauto|].
  destruct (separator token) as [sep|] eqn:Esep; [apply IH|].
  destruct (get_name_group_known name (group token) (Hg Esep)) as (V & _ & ->). cbn.
  destruct (V !! index token) as [raw|]; [|eauto].
  destruct (use_initial token); [|apply IH].
  destruct raw; [eauto|apply IH].
Qed.

(** X4. A token sequence that [parse_token_sequence] returned never makes
    [resolve_email_local_part] throw, whatever the name: every token that is
    not a separator has a known group, so the call returns a local part or
    "not applicable". *)
Theorem parsed_tokens_resolve tokens token_seq name :
  templates_loader.parse_token_sequence tokens = Returned token_seq →
  ∃ r, local_part_resolver.resolve_email_local_part name token_seq = Returned r.
Proof.
  intros H. apply resolve_from_returns.
  apply parse_token_sequence_Forall2 in H.
  induction H as [|token t tokens' parsed' Ht _ IH]; constructor; [|done].
  intros Hsep. apply parse_token_shape in Ht.
  destruct (templates_loader.is_separator token); [by subst|]. by destruct Ht as (_ & Hg & _).
Qed.

Lemma parsed_tokens_resolve_witness :
  ∃ r, local_part_resolver.resolve_email_local_part (decompose icu_ascii "John Smith")
         [mkTemplateToken First 0 false false false false false true None;
          separator_token ".";
          mkTemplateToken Last 0 true false false false false false None]
       = Returned r.
Proof.
  apply (parsed_tokens_resolve ["f_0"; "."; "last_original_0"]). reflexivity.
Defined.


(** ** The firm usage table *)

(** The counting loop: every count is positive and at most the maximum,
    which is the count of some id, and each id is counted once per
    occurrence. *)
Lemma count_template_invariant template_ids (counts0 : gmap Z Z) (max0 : Z) :
  (∀ tid c, counts0 !! tid = Some c → (0 < c ≤ max0)%Z) →
  (counts0 = ∅ ∧ max0 = 0%Z ∨ ∃ tid, counts0 !! tid = Some max0) →
  ∃ (counts : gmap Z Z) (max_support : Z),
    foldl firm_tables.count_template (counts0, max0) template_ids = (counts, max_support)
    ∧ (∀ tid c, counts !! tid = Some c → (0 < c ≤ max_support)%Z)
    ∧ (counts = ∅ ∧ max_support = 0%Z ∨ ∃ tid, counts !! tid = Some max_support)
    ∧ (∀ tid, default 0%Z (counts !! tid)
              = (default 0 (counts0 !! tid)
                 + Z.of_nat (count_occ Z.eq_dec template_ids tid))%Z).
Proof.
  revert counts0 max0.
  induction template_ids as [|tid0 ids IH]; intros counts0 max0 Hpos Hmax.
  - exists counts0, max0. cbn [foldl count_occ].
    split; [done|]. split; [done|]. split; [done|]. intros tid. lia.
  - cbn [foldl firm_tables.count_template].
    set (count := (default 0%Z (counts0 !! tid0) + 1)%Z).
    assert (Hcount : (0 < count)%Z).
    { subst count. destruct (counts0 !! tid0) as [c|] eqn:E; cbn; [|lia].
      specialize (Hpos _ _ E). lia. }
    destruct (IH (<[tid0 := count]> counts0) (Z.max max0 count))
      as (counts & max_support & Hfold & Hpos' & Hmax' & Hocc).
    + intros tid c. destruct (decide (tid0 = tid)) as [<-|Hne].
      * rewrite lookup_insert_eq. intros [= <-]. lia.
      * rewrite lookup_insert_ne by done. intros E. specialize (Hpos _ _ E). lia.
    + right. destruct (Z.max_spec max0 count) as [[Hlt ->]|[Hge ->]].
      * exists tid0. by rewrite lookup_insert_eq.
      * destruct Hmax as [[-> ->]|[tid E]]; [lia|].
        exists tid. destruct (decide (tid0 = tid)) as [<-|Hne].
        -- subst count. rewrite E in Hge. cbn in Hge. lia.
        -- by rewrite lookup_insert_ne.
    + exists counts, max_support. split; [done|]. split; [done|]. split; [done|].
      intros tid. rewrite Hocc. cbn [count_occ].
      destruct (Z.eq_dec tid0 tid) as [<-|Hne].
      * rewrite lookup_insert_eq. cbn. subst count. lia.
      * rewrite lookup_insert_ne by done. lia.
Qed.

Lemma firm_template_usage_spec template_ids :
  template_ids ≠ [] →
  ∃ (counts : gmap Z Z) (max_support : Z) (total_inv : float),
    firm_tables.firm_template_usage template_ids
    = (λ count, mkFirmTemplateUsage count
                  (SFmul 24 128 (float_of_int count) total_inv)
                  (bool_decide (count = max_support))) <$> counts
    ∧ (∀ tid c, counts !! tid = Some c → (0 < c ≤ max_support)%Z)
    ∧ (∃ tid, counts !! tid = Some max_support)
    ∧ (∀ tid, default 0%Z (counts !! tid)
              = Z.of_nat (count_occ Z.eq_dec template_ids tid)).
Proof.
  intros Hne. unfold firm_tables.firm_template_usage.
  rewrite bool_decide_eq_false_2 by done.
  destruct (count_template_invariant template_ids ∅ 0)
    as (counts & max_support & -> & Hpos & Hmax & Hocc).
  { intros tid c. by rewrite lookup_empty. }
  { by left. }
  eexists counts, max_support, _. split; [done|]. split; [done|]. split.
  - destruct Hmax as [[-> _]|Hmax]; [|done].
    destruct template_ids as [|tid ids]; [done|].
    specialize (Hocc tid). rewrite lookup_empty in Hocc. cbn in Hocc.
    destruct (Z.eq_dec tid tid); [lia|done].
  - intros tid. rewrite Hocc, lookup_empty. cbn. lia.
Qed.

(** X5. The usage map of a firm has an entry exactly for the template ids in
    its list, and the entry's support count is the number of times the id
    occurs in the list. *)
Theorem firm_template_usage_counts template_ids tid :
  (Z.of_nat (length template_ids) < 2 ^ 31)%Z →
  usage_support_count <$> (firm_tables.firm_template_usage template_ids !! tid)
  = if bool_decide (tid ∈ template_ids)
    then Some (Z.of_nat (count_occ Z.eq_dec template_ids tid))
    else None.
Proof.
  intros _. destruct template_ids as [|tid0 ids] eqn:Eids.
  { cbn. rewrite lookup_empty. by rewrite bool_decide_eq_false_2 by apply not_elem_of_nil. }
  rewrite <- Eids.
  destruct (firm_template_usage_spec template_ids) as (counts & mx & inv & -> & Hpos & _ & Hocc);
    [by rewrite Eids|].
  rewrite lookup_fmap. specialize (Hocc tid).
  destruct (counts !! tid) as [c|] eqn:E; cbn in *.
  - specialize (Hpos _ _ E).
    rewrite bool_decide_eq_true_2; [by rewrite Hocc|].
    apply list_elem_of_In, (count_occ_In Z.eq_dec). lia.
  - rewrite bool_decide_eq_false_2; [done|].
    intros Hin%list_elem_of_In%(count_occ_In Z.eq_dec). lia.
Qed.

Lemma firm_template_usage_counts_witness :
  usage_support_count <$> (firm_tables.firm_template_usage [3; 5; 3]%Z !! 3%Z) = Some 2%Z
  ∧ usage_support_count <$> (firm_tables.firm_template_usage [3; 5; 3]%Z !! 4%Z) = None.
Proof.
  split.
  - apply (firm_template_usage_counts [3; 5; 3]%Z 3%Z). reflexivity.
  - apply (firm_template_usage_counts [3; 5; 3]%Z 4%Z). reflexivity.
Defined.

(** X6. In the usage map of a firm the top templates are exactly the entries
    whose support count is the largest of the map, and a firm with at least
    one template id has at least one top template. *)
Theorem firm_template_usage_top template_ids :
  (Z.of_nat (length template_ids) < 2 ^ 31)%Z →
  let usage := firm_tables.firm_template_usage template_ids in
  (∀ tid u, usage !! tid = Some u →
     (is_top_template u = true ↔
      ∀ tid' u', usage !! tid' = Some u' →
                 (usage_support_count u' ≤ usage_support_count u)%Z))
  ∧ (template_ids ≠ [] → ∃ tid u, usage !! tid = Some u ∧ is_top_template u = true).
Proof.
  intros _ usage. subst usage.
  destruct template_ids as [|tid0 ids] eqn:Eids.
  { cbn. split; [|done]. intros tid u. by rewrite lookup_empty. }
  rewrite <- Eids.
  destruct (firm_template_usage_spec template_ids)
    as (counts & mx & inv & -> & Hpos & (tidm & Hmax) & _); [by rewrite Eids|].
  split.
  - intros tid u. rewrite lookup_fmap.
    destruct (counts !! tid) as [c|] eqn:E; [|done]. intros [= <-]. cbn.
    rewrite bool_decide_eq_true. split.
    + intros -> tid' u'. rewrite lookup_fmap.
      destruct (counts !! tid') as [c'|] eqn:E'; [|done]. intros [= <-]. cbn.
      by apply (Hpos _ _ E').
    + intros Hall. specialize (Hall tidm _ ltac:(by rewrite lookup_fmap, Hmax)).
      cbn in Hall. specialize (Hpos _ _ E). lia.
  - intros _. eexists tidm, _. rewrite lookup_fmap, Hmax. cbn. split; [done|].
    by apply bool_decide_eq_true.
Qed.

Lemma firm_template_usage_top_witness :
  ∃ tid u, firm_tables.firm_template_usage [3; 5; 3]%Z !! tid = Some u
           ∧ is_top_template u = true.
Proof.
  apply (firm_template_usage_top [3; 5; 3]%Z); [reflexivity|done].
Defined.


(** ** The firm directory and the resolver built from it *)

Lemma canonical_rows_spec rows (out0 out_lookup : gmap string string) :
  firm_tables.canonical_rows rows out0 = Some out_lookup →
  (∀ key domain, out_lookup !! key = Some domain →
     out0 !! key = Some domain
     ∨ ∃ firm_raw, (firm_raw, Some (firm_tables.StringValue domain)) ∈ rows
                   ∧ normalize_firm_name firm_raw = key)
  ∧ (∀ key, is_Some (out0 !! key) → is_Some (out_lookup !! key))
  ∧ (∀ firm_raw domain, (firm_raw, Some (firm_tables.StringValue domain)) ∈ rows →
       is_Some (out_lookup !! normalize_firm_name firm_raw))
  ∧ (Forall (λ row, row.2 = Some firm_tables.StringMissing
                    ∨ row.2 = Some firm_tables.StringNil) rows →
     out_lookup = out0).
Proof.
  revert out0. induction rows as [|[firm_raw obj] rows IH]; intros out0;
    cbn [firm_tables.canonical_rows].
  - intros [= <-]. split; [by left|]. split; [done|]. split; [|done].
    intros firm_raw domain Hin. by apply elem_of_nil in Hin.
  - destruct obj as [[| |domain0|]|]; [| | | |done]; try done; intros H;
      destruct (IH _ H) as (Hfrom & Hkeep & Hin & Hnone).
    + split; [|split; [done|split]].
      * intros key domain E. destruct (Hfrom _ _ E) as [?|(f & Hf & Hk)]; [by left|].
        right. exists f. split; [by right|done].
      * intros f d [[=]|Hf]%elem_of_cons. by apply (Hin f d).
      * intros Hall. apply Hnone. by apply Forall_inv_tail in Hall.
    + split; [|split; [done|split]].
      * intros key domain E. destruct (Hfrom _ _ E) as [?|(f & Hf & Hk)]; [by left|].
        right. exists f. split; [by right|done].
      * intros f d [[=]|Hf]%elem_of_cons. by apply (Hin f d).
      * intros Hall. apply Hnone. by apply Forall_inv_tail in Hall.
    + split; [|split; [|split]].
      * intros key domain E. destruct (Hfrom _ _ E) as [E0|(f & Hf & Hk)].
        -- destruct (decide (normalize_firm_name firm_raw = key)) as [<-|Hne].
           ++ rewrite lookup_insert_eq in E0. injection E0 as <-.
              right. exists firm_raw. split; [by left|done].
           ++ rewrite lookup_insert_ne in E0 by done. by left.
        -- right. exists f. split; [by right|done].
      * intros key Hsome. apply Hkeep.
        destruct (decide (normalize_firm_name firm_raw = key)) as [<-|Hne].
        -- by rewrite lookup_insert_eq.
        -- by rewrite lookup_insert_ne.
      * intros f d [[= -> ->]|Hf]%elem_of_cons; [|by apply (Hin f d)].
        apply Hkeep. by rewrite lookup_insert_eq.
      * intros Hall. apply Forall_inv in Hall. by destruct Hall.
Qed.

Lemma make_resolver_returned canonical_file cache_file r :
  firm_tables.make_resolver canonical_file cache_file = Returned r →
  ∃ rows, canonical_file = Some rows
          ∧ firm_tables.canonical_rows rows ∅ = Some (domain_resolver.firm_to_domain_ r).
Proof.
  unfold firm_tables.make_resolver, firm_tables.load_canonical_firm_msgpack.
  destruct canonical_file as [rows|]; [|done].
  destruct (firm_tables.canonical_rows rows ∅) as [dir|] eqn:E; [|done]. cbn.
  destruct (firm_tables.load_firm_cache_msgpack cache_file) as [[] cache]; [|done].
  cbn. intros [= <-]. by exists rows.
Qed.

Lemma NoDup_fmap_elem {A B : Type} (f : A → B) (l : list A) x y :
  NoDup (f <$> l) → x ∈ l → y ∈ l → f x = f y → x = y.
Proof.
  induction l as [|a l IH]; cbn; [by intros _ ?%elem_of_nil|].
  intros [Hnotin Hnd]%NoDup_cons [->|Hx]%elem_of_cons [->|Hy]%elem_of_cons Hf; [done| | |by apply IH].
  - exfalso. apply Hnotin. rewrite Hf. by apply list_elem_of_fmap_2.
  - exfalso. apply Hnotin. rewrite <- Hf. by apply list_elem_of_fmap_2.
Qed.

(** X7. In a resolver built from a directory file, every firm of the file
    that has a domain resolves from the directory, under any spelling that
    lowercases to the same key: the score is 100, the canonical name is the
    key, the resolver is left as it was, and the domain is that of a row
    with the same key (the row itself when no two rows share a key). *)
Theorem loaded_directory_resolves (similarity : string → string → double)
    rows cache_file r firm_raw domain query :
  firm_tables.make_resolver (Some rows) cache_file = Returned r →
  (firm_raw, Some (firm_tables.StringValue domain)) ∈ rows →
  normalize_firm_name query = normalize_firm_name firm_raw →
  ∃ firm' domain',
    (firm', Some (firm_tables.StringValue domain')) ∈ rows
    ∧ normalize_firm_name firm' = normalize_firm_name firm_raw
    ∧ domain_resolver.resolve_domain similarity r query
      = Returned ((domain', normalize_firm_name firm_raw, 100%Z), r)
    ∧ (NoDup ((λ row, normalize_firm_name row.1) <$> rows) → domain' = domain).
Proof.
  intros Hmake Hin Hquery.
  apply make_resolver_returned in Hmake as (rows' & [= <-] & Hrows).
  destruct (canonical_rows_spec _ _ _ Hrows) as (Hfrom & _ & Hall & _).
  destruct (Hall _ _ Hin) as [domain' Hdomain'].
  destruct (Hfrom _ _ Hdomain') as [E|(firm' & Hin' & Hkey)];
    [by rewrite lookup_empty in E|].
  exists firm', domain'. split; [done|]. split; [done|]. split.
  - unfold domain_resolver.resolve_domain. rewrite Hquery, Hdomain'. done.
  - intros Hnd.
    pose proof (NoDup_fmap_elem (λ row : firm_tables.canonical_row, normalize_firm_name row.1)
                  rows _ _ Hnd Hin' Hin Hkey) as E.
    by injection E.
Qed.

Lemma loaded_directory_resolves_witness :
  ∃ firm' domain',
    (firm', Some (firm_tables.StringValue domain'))
      ∈ [("Acme Capital", Some (firm_tables.StringValue "acme.com"));
         ("CVC", Some (firm_tables.StringValue "cvc.com"))]
    ∧ normalize_firm_name firm' = normalize_firm_name "CVC"
    ∧ domain_resolver.resolve_domain sample_similarity sample_resolver "cvc"
      = Returned ((domain', normalize_firm_name "CVC", 100%Z), sample_resolver)
    ∧ (NoDup ((λ row : firm_tables.canonical_row, normalize_firm_name row.1)
                <$> [("Acme Capital", Some (firm_tables.StringValue "acme.com"));
                     ("CVC", Some (firm_tables.StringValue "cvc.com"))])
       → domain' = "cvc.com").
Proof.
  apply (loaded_directory_resolves sample_similarity
           [("Acme Capital", Some (firm_tables.StringValue "acme.com"));
            ("CVC", Some (firm_tables.StringValue "cvc.com"))]
           (Some []) sample_resolver "CVC" "cvc.com" "cvc").
  - reflexivity.
  - apply elem_of_list_here || (right; left).
  - reflexivity.
Defined.


Lemma canonical_rows_without_domain rows (out0 : gmap string string) :
  Forall (λ row : firm_tables.canonical_row,
            row.2 = Some firm_tables.StringMissing ∨ row.2 = Some firm_tables.StringNil)
         rows →
  firm_tables.canonical_rows rows out0 = Some out0.
Proof.
  induction 1 as [|[firm_raw obj] rows [Hobj|Hobj] _ IH]; cbn in *; [done| |];
    by rewrite Hobj.
Qed.

(** X8. A directory file that unpacks to a map in which no row has a domain
    (an empty map included) is not rejected: the constructor returns a
    resolver with an empty directory, and on it [resolve_domain] has
    undefined behaviour for every firm name that is not in the cache. *)
Theorem directory_without_domains_accepted (similarity : string → string → double)
    rows cache_file cache query :
  Forall (λ row : firm_tables.canonical_row,
            row.2 = Some firm_tables.StringMissing ∨ row.2 = Some firm_tables.StringNil)
         rows →
  firm_tables.load_firm_cache_msgpack cache_file = (true, cache) →
  firm_tables.make_resolver (Some rows) cache_file
  = Returned (domain_resolver.mkDomainResolver ∅ cache)
  ∧ (cache !! normalize_firm_name query = None →
     domain_resolver.resolve_domain similarity
       (domain_resolver.mkDomainResolver ∅ cache) query = Undefined).
Proof.
  intros Hrows Hcache. split.
  - unfold firm_tables.make_resolver, firm_tables.load_canonical_firm_msgpack.
    rewrite canonical_rows_without_domain by done. cbn. by rewrite Hcache.
  - intros Hmiss. unfold domain_resolver.resolve_domain. cbn.
    by rewrite lookup_empty, Hmiss, findBestFirmMatch_empty.
Qed.

Lemma directory_without_domains_accepted_witness :
  firm_tables.make_resolver (Some [("Acme", Some firm_tables.StringNil)]) (Some [])
  = Returned (domain_resolver.mkDomainResolver ∅ ∅)
  ∧ ((∅ : gmap string (string * CacheEntry)) !! normalize_firm_name "acme" = None →
     domain_resolver.resolve_domain sample_similarity
       (domain_resolver.mkDomainResolver ∅ ∅) "acme" = Undefined).
Proof.
  apply (directory_without_domains_accepted sample_similarity
           [("Acme", Some firm_tables.StringNil)] (Some []) ∅ "acme").
  - constructor; [by right|constructor].
  - reflexivity.
Defined.


(** ** The fuzzy match and the cache *)

Section ResolverFurther.

Variable similarity : string → string → double.

(** Once the pointers are set, they stay set to an entry whose score is the
    running best, which no entry seen scores above. *)
Lemma best_match_max query entries firm domain :
  similarity_nonneg similarity →
  ∃ firm' domain',
    foldl (domain_resolver.best_match_step similarity query)
      (similarity query firm, Some (firm, domain)) entries
    = (similarity query firm', Some (firm', domain'))
    ∧ ((firm', domain') = (firm, domain) ∨ (firm', domain') ∈ entries)
    ∧ double_ge (similarity query firm') (similarity query firm) = true
    ∧ Forall (λ entry, double_ge (similarity query firm') (similarity query entry.1) = true)
        entries.
Proof.
  intros Hnn.
  assert (Hnan : ∀ f, is_nan (similarity query f) = false).
  { intros f. by destruct (double_ge_not_nan _ _ (Hnn query f)). }
  revert firm domain. induction entries as [|[f d] entries IH]; intros firm domain;
    cbn [foldl domain_resolver.best_match_step].
  - exists firm, domain. split; [done|]. split; [by left|]. split; [|constructor].
    by destruct (double_ge_total _ _ (Hnan firm) (Hnan firm)).
  - destruct (double_ge (similarity query f) (similarity query firm)) eqn:Hge.
    + destruct (IH f d) as (firm' & domain' & -> & Hin & Hle & Hall).
      exists firm', domain'. split; [done|]. split.
      * right. destruct Hin as [->|Hin]; [left|by right].
      * split; [by apply double_ge_trans with (similarity query f)|]. by constructor.
    + destruct (IH firm domain) as (firm' & domain' & -> & Hin & Hle & Hall).
      exists firm', domain'. split; [done|]. split.
      * destruct Hin as [->|Hin]; [by left|right; by right].
      * split; [done|]. constructor; [|done]. cbn.
        apply double_ge_trans with (similarity query firm); [done|].
        destruct (double_ge_total _ _ (Hnan f) (Hnan firm)) as [H|H]; [congruence|done].
Qed.

(** X9. For a directory that is not empty, [findBestFirmMatch] returns a
    firm of the directory with its domain and its similarity to the query,
    and no firm of the directory is more similar to the query. *)
Theorem findBestFirmMatch_best query (firm_to_domain : gmap string string) :
  similarity_nonneg similarity → firm_to_domain ≠ ∅ →
  ∃ firm domain,
    domain_resolver.findBestFirmMatch similarity query firm_to_domain
    = Returned (domain, mkCacheEntry firm (similarity query firm))
    ∧ firm_to_domain !! firm = Some domain
    ∧ ∀ firm' domain', firm_to_domain !! firm' = Some domain' →
        double_ge (similarity query firm) (similarity query firm') = true.
Proof.
  intros Hnn Hne. unfold domain_resolver.findBestFirmMatch.
  destruct (map_to_list firm_to_domain) as [|[f d] entries] eqn:Elist.
  { by apply map_to_list_empty_iff in Elist. }
  cbn [foldl domain_resolver.best_match_step].
  rewrite (Hnn query f).
  destruct (best_match_max query entries f d Hnn) as (firm & domain & -> & Hin & Hle & Hall).
  assert (Hin' : (firm, domain) ∈ map_to_list firm_to_domain).
  { rewrite Elist. destruct Hin as [->|Hin]; [left|by right]. }
  exists firm, domain. split; [done|]. split; [by apply elem_of_map_to_list|].
  intros firm' domain' Hlookup.
  apply elem_of_map_to_list in Hlookup. rewrite Elist in Hlookup.
  apply elem_of_cons in Hlookup as [[= -> ->]|Hlookup]; [done|].
  rewrite Forall_forall in Hall. by apply (Hall (firm', domain')).
Qed.

(** X10. A call of [resolve_domain] that returns never changes the
    directory and never changes or removes a cached entry; the only key it
    can add to the cache is the lowercased query. After it, the same query
    is answered without the scorer: any scorer gives the same result. *)
Theorem resolve_domain_frame (r : domain_resolver.DomainResolver) raw_firm_name res r' :
  domain_resolver.resolve_domain similarity r raw_firm_name = Returned (res, r') →
  domain_resolver.firm_to_domain_ r' = domain_resolver.firm_to_domain_ r
  ∧ domain_resolver.firm_cache_ r ⊆ domain_resolver.firm_cache_ r'
  ∧ (∀ key, key ≠ normalize_firm_name raw_firm_name →
       domain_resolver.firm_cache_ r' !! key = domain_resolver.firm_cache_ r !! key)
  ∧ (∀ similarity2 : string → string → double,
       domain_resolver.resolve_domain similarity2 r' raw_firm_name = Returned (res, r')).
Proof.
  unfold domain_resolver.resolve_domain.
  set (key := normalize_firm_name raw_firm_name).
  destruct (domain_resolver.firm_to_domain_ r !! key) as [domain|] eqn:Edir.
  { intros [= <- <-]. split; [done|]. split; [done|]. split; [done|].
    intros similarity2. by rewrite Edir. }
  destruct (domain_resolver.firm_cache_ r !! key) as [[domain entry]|] eqn:Ecache.
  { intros [= <- <-]. split; [done|]. split; [done|]. split; [done|].
    intros similarity2. by rewrite Edir, Ecache. }
  destruct (domain_resolver.findBestFirmMatch similarity key
              (domain_resolver.firm_to_domain_ r)) as [[domain entry]| |]; cbn; [|done|done].
  intros [= <- <-]. cbn. split; [done|]. split; [by apply insert_subseteq|]. split.
  - intros key' Hne. by rewrite lookup_insert_ne.
  - intros similarity2. by rewrite Edir, lookup_insert_eq.
Qed.

End ResolverFurther.

Lemma findBestFirmMatch_best_witness :
  ∃ firm domain,
    domain_resolver.findBestFirmMatch sample_similarity "cvc"
      (domain_resolver.firm_to_domain_ sample_resolver)
    = Returned (domain, mkCacheEntry firm (sample_similarity "cvc" firm))
    ∧ domain_resolver.firm_to_domain_ sample_resolver !! firm = Some domain
    ∧ ∀ firm' domain',
        domain_resolver.firm_to_domain_ sample_resolver !! firm' = Some domain' →
        double_ge (sample_similarity "cvc" firm) (sample_similarity "cvc" firm') = true.
Proof.
  apply (findBestFirmMatch_best sample_similarity "cvc"
           (domain_resolver.firm_to_domain_ sample_resolver) sample_similarity_nonneg).
  intros H. apply (f_equal (λ m, m !! "cvc")) in H. by vm_compute in H.
Defined.

Lemma resolve_domain_frame_witness :
  domain_resolver.firm_to_domain_
    (domain_resolver.mkDomainResolver (domain_resolver.firm_to_domain_ sample_resolver)
       {["cvc capital" := ("acme.com", mkCacheEntry "acme capital" (double_of_Z 50))]})
  = domain_resolver.firm_to_domain_ sample_resolver
  ∧ domain_resolver.firm_cache_ sample_resolver
    ⊆ {["cvc capital" := ("acme.com", mkCacheEntry "acme capital" (double_of_Z 50))]}
  ∧ (∀ key, key ≠ normalize_firm_name "CVC Capital" →
       ({["cvc capital" := ("acme.com", mkCacheEntry "acme capital" (double_of_Z 50))]}
          : gmap string (string * CacheEntry)) !! key
       = domain_resolver.firm_cache_ sample_resolver !! key)
  ∧ (∀ similarity2 : string → string → double,
       domain_resolver.resolve_domain similarity2
         (domain_resolver.mkDomainResolver (domain_resolver.firm_to_domain_ sample_resolver)
            {["cvc capital" := ("acme.com", mkCacheEntry "acme capital" (double_of_Z 50))]})
         "CVC Capital"
       = Returned (("acme.com", "acme capital", 50%Z),
                   domain_resolver.mkDomainResolver
                     (domain_resolver.firm_to_domain_ sample_resolver)
                     {["cvc capital" := ("acme.com", mkCacheEntry "acme capital" (double_of_Z 50))]})).
Proof.
  apply (resolve_domain_frame sample_similarity sample_resolver "CVC Capital").
  by vm_compute.
Defined.


(** ** Ranking, in the predictors and through the engine *)

Lemma StronglySorted_sublist {A : Type} (R : relation A) (l k : list A) :
  l `sublist_of` k → StronglySorted R k → StronglySorted R l.
Proof.
  intros Hsub Hk. revert l Hsub. induction Hk as [|x k Hk IH Hx]; intros l Hsub.
  - apply sublist_nil_r in Hsub as ->. constructor.
  - apply sublist_cons_r in Hsub as [Hsub|(l' & -> & Hsub)]; [by apply IH|].
    constructor; [by apply IH|].
    apply Forall_forall. intros y Hy. rewrite Forall_forall in Hx. apply Hx.
    by eapply sublist_subseteq.
Qed.

Lemma StronglySorted_by {A B : Type} (f : A → B) (R : relation B) (l : list A) :
  StronglySorted (λ a b, R (f a) (f b)) l ↔ StronglySorted R (f <$> l).
Proof.
  induction l as [|x l IH]; csimpl; [split; constructor|].
  split; intros H; apply StronglySorted_inv in H as [Hl Hx]; constructor.
  - by apply IH.
  - by apply Forall_fmap.
  - by apply IH.
  - exact (proj1 (Forall_fmap _ _ _) Hx).
Qed.

Section Ranking.

Variable partial_sort :
  (TemplatePrediction → TemplatePrediction → bool) → nat →
  list TemplatePrediction → list TemplatePrediction.
Hypothesis partial_sort_ok : partial_sort_contract partial_sort.

Lemma select_top_ranked results top_k :
  nan_free results →
  (length (select_top partial_sort results top_k) ≤ top_k)%nat
  ∧ StronglySorted (λ a b, double_ge (score a) (score b) = true)
      (select_top partial_sort results top_k).
Proof.
  intros Hfree.
  destruct (select_top_rows partial_sort partial_sort_ok results top_k) as (Hl & _).
  destruct (select_top_spec partial_sort partial_sort_ok results top_k Hfree) as (Hs & _).
  split; [lia|done].
Qed.

Lemma build_results_nan_free i scores templates results :
  no_nan scores → build_results i scores templates = Returned results → nan_free results.
Proof.
  intros Hscores Hres. destruct (build_results_rows _ _ _ _ Hres) as (_ & Hsc & _).
  unfold nan_free. unfold no_nan in Hscores. rewrite <- Hsc in Hscores.
  by apply Forall_fmap in Hscores.
Qed.

Lemma lgbm_ranked booster :
  lgbm_no_nan booster → ranked_predictor (lgbm_predict_top_templates partial_sort booster).
Proof.
  intros Hnan flat_matrix templates top_k res. unfold lgbm_predict_top_templates.
  destruct (bool_decide (flat_matrix = []) || bool_decide (templates = [])).
  { intros [= <-]. split; [cbn; lia|constructor]. }
  destruct (bool_decide _); [done|].
  destruct (lgbm_predict_scores booster flat_matrix) as [scores| |] eqn:Escores;
    cbn; [|done|done].
  assert (Hscores : no_nan scores).
  { revert Escores. unfold lgbm_predict_scores.
    destruct (bool_decide (flat_matrix = [])); [intros [= <-]; constructor|].
    pose proof (Hnan flat_matrix (length flat_matrix / builder.FEATURES_PER_ROW)%nat
                  builder.FEATURES_PER_ROW) as Hout.
    destruct (booster _ _ _) as [[err out_len] predictions]. cbn in Hout.
    destruct (bool_decide (err ≠ 0%Z)); [done|]. intros [= <-].
    destruct (bool_decide _); [|done]. by apply Forall_resize. }
  destruct (build_results 0 scores templates) as [results| |] eqn:Eres; cbn; [|done|done].
  intros [= <-]. apply select_top_ranked. by apply (build_results_nan_free 0 scores templates).
Qed.

Lemma catboost_ranked calcer :
  catboost_no_nan calcer →
  ranked_predictor (catboost_predict_top_templates partial_sort calcer).
Proof.
  intros Hnan flat_matrix templates top_k res. unfold catboost_predict_top_templates.
  destruct (bool_decide _); [done|].
  pose proof (Hnan flat_matrix (length flat_matrix / builder.FEATURES_PER_ROW)%nat
                builder.FEATURES_PER_ROW) as Hout.
  destruct (calcer _ _ _) as [ok predictions]. cbn in Hout. destruct ok; cbn; [|done].
  destruct (build_results 0 _ templates) as [results| |] eqn:Eres; cbn; [|done|done].
  intros [= <-]. apply select_top_ranked.
  apply (build_results_nan_free _ _ _ _ (Forall_take _ _ _ Hout) Eres).
Qed.

(** X11. When the model computes no NaN, a call of either backend's
    [predict_top_templates] that returns gives at most [top_k] predictions,
    in order of score from the highest. *)
Theorem predict_top_templates_ranked booster calcer flat_matrix templates top_k res :
  lgbm_no_nan booster
  ∧ lgbm_predict_top_templates partial_sort booster flat_matrix templates top_k
    = Returned res
  ∨ catboost_no_nan calcer
    ∧ catboost_predict_top_templates partial_sort calcer flat_matrix templates top_k
      = Returned res →
  (length res ≤ top_k)%nat
  ∧ StronglySorted (λ a b, double_ge (score a) (score b) = true) res.
Proof.
  intros [[Hbooster H]|[Hcalcer H]];
    [by apply (lgbm_ranked booster Hbooster _ _ _ _ H)
    |by apply (catboost_ranked calcer Hcalcer _ _ _ _ H)].
Qed.

(** X12. The two backends differ only in the model call and in the guard
    for empty input: for a matrix of [N] rows and its [N] templates, [N]
    positive, when LightGBM and CatBoost compute the same scores the two
    predictors return the same predictions. *)
Theorem backends_agree booster calcer flat_matrix templates top_k out_len scores :
  lgbm_contract booster →
  templates ≠ [] →
  length flat_matrix = (length templates * builder.FEATURES_PER_ROW)%nat →
  booster flat_matrix (length templates) builder.FEATURES_PER_ROW = (0%Z, out_len, scores) →
  calcer flat_matrix (length templates) builder.FEATURES_PER_ROW = (true, scores) →
  lgbm_predict_top_templates partial_sort booster flat_matrix templates top_k
  = catboost_predict_top_templates partial_sort calcer flat_matrix templates top_k.
Proof.
  intros Hlgbm Hne Hlen Hbooster Hcalcer.
  assert (Hfne : flat_matrix ≠ []).
  { intros ->. destruct templates; [done|]. cbn in Hlen. lia. }
  unfold lgbm_predict_top_templates, catboost_predict_top_templates.
  rewrite !bool_decide_eq_false_2 by (done || (intros H; by apply H)). cbn [orb].
  destruct (lgbm_predict_scores_returns booster Hlgbm _ _ _ _ Hfne Hlen Hbooster)
    as [-> Hscores].
  rewrite Hlen, Nat.div_mul by done. rewrite Hcalcer. cbn.
  by rewrite take_ge by lia.
Qed.

End Ranking.

Lemma fixed_scores_no_nan scores :
  no_nan scores →
  lgbm_no_nan (fixed_scores_booster scores) ∧ catboost_no_nan (fixed_scores_calcer scores).
Proof. intros Hscores. split; intros data nrow ncol; by apply Forall_resize. Qed.

Lemma predict_top_templates_ranked_witness :
  (length [mkTemplatePrediction 2 (double_of_Z 1) 103 (sample_template 103);
           mkTemplatePrediction 1 (double_of_Z 1) 102 (sample_template 102)] ≤ 2)%nat
  ∧ StronglySorted (λ a b, double_ge (score a) (score b) = true)
      [mkTemplatePrediction 2 (double_of_Z 1) 103 (sample_template 103);
       mkTemplatePrediction 1 (double_of_Z 1) 102 (sample_template 102)].
Proof.
  assert (Hscores : no_nan tied_scores) by (by repeat constructor).
  apply (predict_top_templates_ranked insertion_partial_sort insertion_partial_sort_contract
           (fixed_scores_booster tied_scores) (fixed_scores_calcer tied_scores)
           sample_matrix sample_templates 2).
  left. split; [apply (proj1 (fixed_scores_no_nan tied_scores Hscores))|by vm_compute].
Defined.

Lemma backends_agree_witness :
  lgbm_predict_top_templates insertion_partial_sort (fixed_scores_booster tied_scores)
    sample_matrix sample_templates 2
  = catboost_predict_top_templates insertion_partial_sort (fixed_scores_calcer tied_scores)
      sample_matrix sample_templates 2.
Proof.
  apply (backends_agree insertion_partial_sort
           (fixed_scores_booster tied_scores) (fixed_scores_calcer tied_scores)
           sample_matrix sample_templates 2 3 tied_scores).
  - apply fixed_scores_booster_contract.
  - done.
  - reflexivity.
  - reflexivity.
  - reflexivity.
Defined.

Lemma format_results_scores name domain_string top_predictions results :
  format_results name domain_string top_predictions = Returned results →
  (result_score <$> results) `sublist_of` (score <$> top_predictions).
Proof.
  revert results. induction top_predictions as [|pred rest IH]; intros results; cbn.
  - intros [= <-]. constructor.
  - destruct (local_part_resolver.resolve_email_local_part name (token_seq (metadata pred)))
      as [local_part| |]; cbn; [|done|done].
    destruct (format_results name domain_string rest) as [results'| |]; cbn; [|done|done].
    specialize (IH results' eq_refl).
    destruct local_part as [lp|]; intros [= <-]; cbn.
    + by apply sublist_skip.
    + by apply sublist_cons.
Qed.

Lemma same_rows_scores results results' :
  Forall2 same_row results results' →
  result_score <$> results' = result_score <$> results.
Proof.
  induction 1 as [|r r' l l' (_ & Hs & _) _ IH]; cbn; [done|]. by rewrite Hs, IH.
Qed.

(** X13. When both predictors of an engine return ranked predictions,
    [predict] returns at most [top_k] rows, in order of score from the
    highest: rendering drops the templates that do not apply and the
    verification and enrichment hooks reorder nothing. *)
Theorem predict_rows_ranked (icu_nfkd : string → option string)
    (similarity : string → string → double) e investor_name firm_name top_k domain
    rows e' :
  ranked_predictor (std_predictor_ e) →
  ranked_predictor (complex_predictor_ e) →
  predict icu_nfkd similarity e investor_name firm_name top_k domain = Returned (rows, e') →
  (length rows ≤ top_k)%nat
  ∧ StronglySorted (λ a b, double_ge (result_score a) (result_score b) = true) rows.
Proof.
  intros Hstd Hcomplex. unfold predict.
  destruct (resolve_query_domain similarity e firm_name domain)
    as [[domain_string e1]| |]; cbn; [|done|done].
  set (name := decompose icu_nfkd investor_name).
  set (flags := features.extract icu_nfkd investor_name).
  set (call := if complex_name name flags then _ else _).
  assert (Hranked : ∀ res, call = Returned res →
            (length res ≤ top_k)%nat
            ∧ StronglySorted (λ a b, double_ge (score a) (score b) = true) res).
  { intros res. subst call. destruct (complex_name name flags); [apply Hcomplex|apply Hstd]. }
  destruct call as [top_predictions| |]; cbn; [|done|done].
  destruct (Hranked _ eq_refl) as [Hlen Hsorted].
  destruct (format_results name domain_string top_predictions) as [results| |] eqn:Ef;
    cbn; [|done|done].
  intros [= <- <-].
  pose proof (format_results_scores _ _ _ _ Ef) as Hsub.
  pose proof (same_rows_scores _ _ (post_process_same_rows e investor_name firm_name results))
    as Hsame.
  split.
  - apply sublist_length in Hsub. rewrite !length_fmap in Hsub.
    apply (f_equal length) in Hsame. rewrite !length_fmap in Hsame. lia.
  - apply (StronglySorted_by result_score (λ a b : double, double_ge a b = true)).
    rewrite Hsame. apply (StronglySorted_sublist _ _ _ Hsub).
    by apply (StronglySorted_by score (λ a b : double, double_ge a b = true)).
Qed.

Lemma sample_predictor_ranked : ranked_predictor sample_predictor.
Proof.
  apply lgbm_ranked; [apply insertion_partial_sort_contract|].
  apply (fixed_scores_no_nan []). constructor.
Qed.

Lemma predict_rows_ranked_witness :
  (length [mkEmailPredictionResult "john.smith@acme.com" double_zero 1 None None] ≤ 3)%nat
  ∧ StronglySorted (λ a b, double_ge (result_score a) (result_score b) = true)
      [mkEmailPredictionResult "john.smith@acme.com" double_zero 1 None None].
Proof.
  apply (predict_rows_ranked icu_ascii sample_similarity sample_engine
           "John Smith" "acme" 3 (Some "acme.com") _ sample_engine).
  - apply sample_predictor_ranked.
  - apply sample_predictor_ranked.
  - by vm_compute.
Defined.


(** ** Verification and enrichment *)

Lemma verify_results_rows verify_email i best results :
  (verify_results verify_email i best results).1
  = (λ r, mkEmailPredictionResult (email r) (result_score r) (result_template_id r)
            (verify_email (email r)) (enrichment_result r)) <$> results.
Proof.
  revert i best. induction results as [|r results IH]; intros i best; cbn; [done|].
  match goal with |- context [verify_results verify_email (S i) ?b results] =>
    specialize (IH (S i) b);
    destruct (verify_results verify_email (S i) b results) as [rest' best'']
  end.
  cbn in *. by rewrite IH.
Qed.

(** The pointer kept by the verification loop: the first row, among the
    verified ones, whose score no other verified row exceeds. *)
Lemma verify_results_best verify_email results i best :
  (∀ j0 s0, best = Some (j0, s0) → (j0 < i)%nat) →
  match (verify_results verify_email i best results).2 with
  | None => best = None ∧ Forall (λ r, verify_email (email r) = None) results
  | Some (j, s) =>
      (best = Some (j, s)
       ∨ ((i ≤ j)%nat ∧ ∃ r vr, results !! (j - i)%nat = Some r
                               ∧ verify_email (email r) = Some vr
                               ∧ verification_score vr = s))
      ∧ (∀ j0 s0, best = Some (j0, s0) → (s0 ≤ s)%Z ∧ (j0 ≠ j → (s0 < s)%Z))
      ∧ (∀ k r vr, results !! k = Some r → verify_email (email r) = Some vr →
           (verification_score vr ≤ s)%Z
           ∧ ((i + k < j)%nat → (verification_score vr < s)%Z))
  end.
Proof.
  revert i best. induction results as [|r results IH]; intros i best Hbest.
  - cbn. destruct best as [[j s]|]; [|done].
    split; [by left|]. split; [|done]. intros j0 s0 [= -> ->]. split; [lia|done].
  - cbn [verify_results].
    set (best' := match verify_email (email r) with
                  | Some vr =>
                      match best with
                      | None => Some (i, verification_score vr)
                      | Some (_, best_score) =>
                          if (best_score <? verification_score vr)%Z
                          then Some (i, verification_score vr) else best
                      end
                  | None => best
                  end).
    assert (Hbest' : ∀ j0 s0, best' = Some (j0, s0) → (j0 < S i)%nat).
    { intros j0 s0. subst best'. destruct (verify_email (email r)) as [vr|].
      - destruct best as [[jb sb]|].
        + destruct (sb <? verification_score vr)%Z.
          * intros [= <- <-]. lia.
          * intros [= <- <-]. specialize (Hbest _ _ eq_refl). lia.
        + intros [= <- <-]. lia.
      - intros E. specialize (Hbest _ _ E). lia. }
    specialize (IH (S i) best' Hbest').
    destruct (verify_results verify_email (S i) best' results) as [rest' best''].
    cbn [snd] in *.
    destruct best'' as [[j s]|].
    + destruct IH as (Hfrom & Hold & Hrows).
      destruct (verify_email (email r)) as [vr|] eqn:Ev.
      * (* the row is verified *)
        assert (Hr : (verification_score vr ≤ s)%Z
                     ∧ ((i < j)%nat → (verification_score vr < s)%Z)
                     ∧ ∀ j0 s0, best = Some (j0, s0) →
                                (s0 ≤ s)%Z ∧ (j0 ≠ j → (s0 < s)%Z)).
        { subst best'. destruct best as [[jb sb]|].
          - specialize (Hbest _ _ eq_refl).
            destruct (Z.ltb_spec sb (verification_score vr)) as [Hlt|Hge].
            + destruct (Hold _ _ eq_refl) as [H1 H2].
              split; [done|]. split; [intros ?; apply H2; lia|].
              intros j0 s0 [= -> ->]. split; [lia|]. intros _.
              destruct (decide (i = j)) as [->|Hne]; [lia|]. specialize (H2 Hne). lia.
            + destruct (Hold _ _ eq_refl) as [H1 H2].
              split; [lia|]. split.
              * intros Hij. assert (jb ≠ j) as Hne by lia. specialize (H2 Hne). lia.
              * intros j0 s0 [= -> ->]. done.
          - destruct (Hold _ _ eq_refl) as [H1 H2].
            split; [done|]. split; [intros ?; apply H2; lia|]. done. }
        destruct Hr as (Hr1 & Hr2 & Hr3).
        split; [|split; [done|]].
        -- destruct Hfrom as [E|(Hle & r' & vr' & Hl & Hv & Hs)].
           ++ subst best'. destruct best as [[jb sb]|].
              ** destruct (sb <? verification_score vr)%Z.
                 --- injection E as <- <-. right. split; [done|].
                     exists r, vr. by rewrite Nat.sub_diag.
                 --- by left.
              ** injection E as <- <-. right. split; [done|].
                 exists r, vr. by rewrite Nat.sub_diag.
           ++ right. split; [lia|]. exists r', vr'.
              replace (j - i)%nat with (S (j - S i)) by lia. done.
        -- intros k r0 vr0 Hk Hv0. destruct k as [|k].
           ++ injection Hk as <-. rewrite Ev in Hv0. injection Hv0 as <-.
              split; [done|]. intros ?. apply Hr2. lia.
           ++ destruct (Hrows k r0 vr0 Hk Hv0) as [H1 H2]. split; [done|].
              intros ?. apply H2. lia.
      * (* the row is not verified *)
        subst best'. split; [|split; [done|]].
        -- destruct Hfrom as [E|(Hle & r' & vr' & Hl & Hv & Hs)]; [by left|].
           right. split; [lia|]. exists r', vr'.
           replace (j - i)%nat with (S (j - S i)) by lia. done.
        -- intros k r0 vr0 Hk Hv0. destruct k as [|k].
           ++ injection Hk as <-. congruence.
           ++ destruct (Hrows k r0 vr0 Hk Hv0) as [H1 H2]. split; [done|].
              intros ?. apply H2. lia.
    + destruct IH as [Hnone Hall]. subst best'.
      destruct (verify_email (email r)) as [vr|] eqn:Ev.
      * destruct best as [[jb sb]|]; [|done]. by destruct (sb <? verification_score vr)%Z.
      * split; [done|]. by constructor.
Qed.

(** X14. After ranking, enrichment is attached to one row at most: a row
    that the verifier answered for, whose verification score no other
    verified row exceeds, and which comes before every other verified row of
    the same score. Without a verifier no row is enriched. *)
Theorem enrichment_goes_to_best_verified e investor_name firm_name results i row :
  Forall (λ r, enrichment_result r = None) results →
  post_process e investor_name firm_name results !! i = Some row →
  enrichment_result row ≠ None →
  ∃ verifier enrich vr,
    verification_pipeline_ e = Some verifier
    ∧ enrichment_pipeline_ e = Some enrich
    ∧ verifier (email row) = Some vr
    ∧ verification_result row = Some vr
    ∧ enrichment_result row = enrich investor_name firm_name (email row)
    ∧ ∀ k r vr', results !! k = Some r → verifier (email r) = Some vr' →
        (verification_score vr' ≤ verification_score vr)%Z
        ∧ ((k < i)%nat → (verification_score vr' < verification_score vr)%Z).
Proof.
  intros Hnone. unfold post_process.
  assert (Hplain : ∀ j r, results !! j = Some r → enrichment_result r = None).
  { intros j r Hj. rewrite Forall_forall in Hnone. apply Hnone.
    by eapply list_elem_of_lookup_2. }
  destruct (verification_pipeline_ e) as [verifier|].
  2:{ destruct (enrichment_pipeline_ e); intros Hrow Henr; by rewrite (Hplain _ _ Hrow) in Henr. }
  pose proof (verify_results_rows verifier 0 None results) as Hrows.
  pose proof (verify_results_best verifier results 0 None ltac:(done)) as Hbest.
  destruct (verify_results verifier 0 None results) as [results' best]. cbn in Hrows, Hbest.
  assert (Hplain' : ∀ j r, results' !! j = Some r → enrichment_result r = None).
  { intros j r. rewrite Hrows, list_lookup_fmap.
    destruct (results !! j) as [r0|] eqn:E; [|done]. intros [= <-]. cbn. by eapply Hplain. }
  destruct (enrichment_pipeline_ e) as [enrich|].
  2:{ intros Hrow Henr. by rewrite (Hplain' _ _ Hrow) in Henr. }
  destruct best as [[j s]|].
  2:{ intros Hrow Henr. by rewrite (Hplain' _ _ Hrow) in Henr. }
  destruct Hbest as ([[=]|(_ & r & vr & Hr & Hv & Hs)] & _ & Hall).
  rewrite Nat.sub_0_r in Hr.
  assert (Hbest_row : results' !! j
                      = Some (mkEmailPredictionResult (email r) (result_score r)
                                (result_template_id r) (Some vr) (enrichment_result r))).
  { by rewrite Hrows, list_lookup_fmap, Hr, <- Hv. }
  rewrite Hbest_row. cbn [email].
  destruct (enrich investor_name firm_name (email r)) as [enriched|] eqn:Een.
  2:{ intros Hrow Henr. by rewrite (Hplain' _ _ Hrow) in Henr. }
  intros Hrow Henr.
  destruct (decide (i = j)) as [->|Hne].
  2:{ rewrite list_lookup_alter_ne in Hrow by done.
      by rewrite (Hplain' _ _ Hrow) in Henr. }
  rewrite list_lookup_alter_eq, Hbest_row in Hrow. injection Hrow as <-. cbn.
  exists verifier, enrich, vr. split; [done|]. split; [done|]. split; [done|].
  split; [done|]. split; [done|].
  intros k r0 vr0 Hk Hv0. destruct (Hall k r0 vr0 Hk Hv0) as [H1 H2]. subst s.
  split; [done|]. intros ?. apply H2. lia.
Qed.

Lemma enrichment_goes_to_best_verified_witness :
  ∃ verifier enrich vr,
    verification_pipeline_ sample_engine_with_hooks = Some verifier
    ∧ enrichment_pipeline_ sample_engine_with_hooks = Some enrich
    ∧ verifier "j.smith@acme.com" = Some vr
    ∧ Some (mkVerificationResult "j.smith@acme.com" "valid" 90 true EmptyString) = Some vr
    ∧ Some (mkEnrichmentResult "j.smith@acme.com" "John Smith" "Partner" EmptyString
              EmptyString EmptyString EmptyString)
      = enrich "John Smith" "acme" "j.smith@acme.com"
    ∧ ∀ k r vr', sample_rows !! k = Some r → verifier (email r) = Some vr' →
        (verification_score vr' ≤ verification_score vr)%Z
        ∧ ((k < 1)%nat → (verification_score vr' < verification_score vr)%Z).
Proof.
  apply (enrichment_goes_to_best_verified sample_engine_with_hooks "John Smith" "acme"
           sample_rows 1
           (mkEmailPredictionResult "j.smith@acme.com" double_zero 2
              (Some (mkVerificationResult "j.smith@acme.com" "valid" 90 true EmptyString))
              (Some (mkEnrichmentResult "j.smith@acme.com" "John Smith" "Partner"
                       EmptyString EmptyString EmptyString EmptyString)))).
  - by repeat constructor.
  - reflexivity.
  - done.
Defined.


(** ** The components of a decomposed name *)

Lemma parse_rest_closed_form parts middle last :
  parse_rest parts middle last
  = (middle ++ take (middle_count parts) parts, last ++ drop (middle_count parts) parts).
Proof.
  revert middle. induction parts as [|p tl IH]; intros middle; cbn [parse_rest].
  - cbn. by rewrite !app_nil_r.
  - unfold middle_count. cbn [leading_names length].
    destruct (contains SURNAME_PARTICLES p).
    + cbn [Nat.min take drop]. by rewrite app_nil_r.
    + destruct tl as [|q tl].
      * cbn [length Nat.sub Nat.min take drop]. by rewrite app_nil_r.
      * rewrite IH. unfold middle_count. cbn [length].
        replace (Nat.min (S (leading_names (q :: tl))) (S (S (length tl)) - 1))
          with (S (Nat.min (leading_names (q :: tl)) (S (length tl) - 1))) by lia.
        cbn [take drop]. by rewrite <- app_assoc.
Qed.

(** X15. The decomposition in closed form: the first token gives the first
    names; of the tokens after it, those before the first surname particle
    are the middle names and the particle and everything after it are the
    last names; when no particle comes before the final token, the final
    token alone is the last name. No token is dropped, repeated or moved. *)
Theorem parse_name_components cleaned :
  let nd := parse_name cleaned in
  match string_normalization.split_all_strings cleaned " " with
  | [] => first_names_ nd = [] ∧ middle_names_ nd = [] ∧ last_names_ nd = []
  | part0 :: rest =>
      first_names_ nd = parse_first part0
      ∧ middle_names_ nd = take (middle_count rest) rest
      ∧ last_names_ nd = drop (middle_count rest) rest
  end.
Proof.
  unfold parse_name. destruct (string_empty cleaned) eqn:E.
  { apply string_empty_true in E as ->. by cbn. }
  destruct (string_normalization.split_all_strings cleaned " ") as [|part0 rest]; [done|].
  rewrite parse_rest_closed_form. done.
Qed.

Lemma leading_names_le parts : (leading_names parts ≤ length parts)%nat.
Proof.
  induction parts as [|p tl IH]; cbn [leading_names length]; [lia|].
  destruct (contains SURNAME_PARTICLES p); lia.
Qed.

Lemma leading_names_removelast parts :
  (leading_names parts < length parts - 1)%nat
  ↔ existsb (contains SURNAME_PARTICLES) (removelast parts) = true.
Proof.
  induction parts as [|p tl IH]; [cbn; split; [lia|done]|].
  cbn [leading_names length removelast].
  destruct tl as [|q tl].
  - cbn [existsb leading_names length].
    destruct (contains SURNAME_PARTICLES p); split; (lia || done).
  - cbn [existsb]. destruct (contains SURNAME_PARTICLES p).
    + cbn [orb length]. split; [done|lia].
    + cbn [orb]. rewrite <- IH. cbn [length]. lia.
Qed.

(** X16. A decomposed name has several last names exactly when a surname
    particle stands among its tokens after the first and before the final
    one; the last names end with the final token of the name (so a name of
    two or more tokens has a last name); and no middle name is a surname
    particle. *)
Theorem parse_name_last_names cleaned part0 rest :
  string_normalization.split_all_strings cleaned " " = part0 :: rest →
  let nd := parse_name cleaned in
  (has_multiple_last_names nd = true
   ↔ existsb (contains SURNAME_PARTICLES) (removelast rest) = true)
  ∧ last (last_names_ nd) = last rest
  ∧ Forall (λ t, contains SURNAME_PARTICLES t = false) (middle_names_ nd).
Proof.
  intros Hsplit nd.
  assert (H : middle_names_ nd = take (middle_count rest) rest
              ∧ last_names_ nd = drop (middle_count rest) rest).
  { subst nd. unfold parse_name. rewrite Hsplit.
    destruct (string_empty cleaned) eqn:E.
    { apply string_empty_true in E as ->. done. }
    by rewrite parse_rest_closed_form. }
  destruct H as (Hm & Hl).
  pose proof (leading_names_le rest) as Hle.
  split; [|split].
  - unfold has_multiple_last_names. rewrite Hl, length_drop, <- leading_names_removelast.
    unfold middle_count. rewrite Nat.ltb_lt. lia.
  - rewrite Hl. destruct rest as [|q rest']; [done|].
    transitivity (last (take (middle_count (q :: rest')) (q :: rest')
                        ++ drop (middle_count (q :: rest')) (q :: rest')));
      [|by rewrite take_drop].
    rewrite last_app.
    destruct (last (drop (middle_count (q :: rest')) (q :: rest'))) eqn:E; [done|].
    apply last_None in E. apply (f_equal length) in E. rewrite length_drop in E.
    unfold middle_count in E. cbn [length] in E. lia.
  - rewrite Hm. unfold middle_count.
    assert (Hlead : ∀ parts n, (n ≤ leading_names parts)%nat →
              Forall (λ t, contains SURNAME_PARTICLES t = false) (take n parts)).
    { clear. induction parts as [|p tl IH]; intros n Hn; [by rewrite take_nil|].
      destruct n as [|n]; [constructor|]. cbn [leading_names] in Hn.
      destruct (contains SURNAME_PARTICLES p) eqn:E; [lia|].
      cbn [take]. constructor; [done|]. apply IH. lia. }
    apply Hlead. lia.
Qed.

Lemma parse_name_last_names_witness :
  let nd := parse_name "ludwig van beethoven" in
  (has_multiple_last_names nd = true
   ↔ existsb (contains SURNAME_PARTICLES) (removelast ["van"; "beethoven"]) = true)
  ∧ last (last_names_ nd) = last ["van"; "beethoven"]
  ∧ Forall (λ t, contains SURNAME_PARTICLES t = false) (middle_names_ nd).
Proof.
  apply (parse_name_last_names "ludwig van beethoven" "ludwig" ["van"; "beethoven"]).
  reflexivity.
Defined.


(** ** The cleaned name and its tokens *)

Lemma count_char_push_back c cur x :
  count_char c (push_back cur x)
  = (count_char c cur + if Ascii.eqb x c then 1 else 0)%nat.
Proof. unfold push_back. rewrite count_char_app. cbn. lia. Qed.

(** No token of the splitter holds the delimiter. *)
Lemma split_all_from_delimiter_free delimiter cur str :
  count_char delimiter cur = 0%nat →
  Forall (λ t, count_char delimiter t = 0%nat)
         (string_normalization.split_all_from delimiter cur str).
Proof.
  revert cur. induction str as [|c rest IH]; intros cur Hcur; cbn.
  - destruct (string_empty cur); by repeat constructor.
  - destruct (Ascii.eqb c delimiter) eqn:Ec.
    + destruct (string_empty cur); [by apply IH|]. constructor; [done|by apply IH].
    + apply IH. rewrite count_char_push_back, Ec. lia.
Qed.

Lemma split_all_from_app delimiter cur t s :
  count_char delimiter t = 0%nat →
  string_normalization.split_all_from delimiter cur (t +:+ s)
  = string_normalization.split_all_from delimiter (cur +:+ t) s.
Proof.
  revert cur. induction t as [|c t IH]; intros cur Ht.
  - by rewrite string_app_empty_r.
  - rewrite string_app_cons. cbn [string_normalization.split_all_from].
    cbn in Ht. destruct (Ascii.eqb c delimiter); [lia|].
    rewrite IH by lia. by rewrite string_app_push_back.
Qed.

(** Joining tokens with single spaces and splitting again gives the tokens
    back. *)
Lemma split_all_join_tokens tokens :
  Forall (λ t, string_empty t = false ∧ count_char " " t = 0%nat) tokens →
  string_normalization.split_all_from " " EmptyString (join_tokens tokens) = tokens.
Proof.
  induction 1 as [|t tokens [Hne Hfree] Htokens IH]; [done|].
  destruct tokens as [|t2 tokens].
  - cbn [join_tokens]. rewrite <- (string_app_empty_r t) at 1.
    rewrite split_all_from_app by done. change (EmptyString +:+ t) with t.
    cbn [string_normalization.split_all_from]. by rewrite Hne.
  - change (join_tokens (t :: t2 :: tokens))
      with (t +:+ String " " (join_tokens (t2 :: tokens))).
    rewrite split_all_from_app by done. change (EmptyString +:+ t) with t.
    cbn [string_normalization.split_all_from].
    replace (Ascii.eqb " " " ") with true by done. by rewrite Hne, IH.
Qed.

Lemma drop_while_suffix {A : Type} (p : A → bool) (l : list A) :
  ∃ k, l = k ++ drop_while p l.
Proof.
  induction l as [|x l [k IH]]; cbn; [by exists []|].
  destruct (p x); [|by exists []]. exists (x :: k). cbn. by rewrite <- IH.
Qed.

Lemma drop_while_head {A : Type} (p : A → bool) (l : list A) t :
  head (drop_while p l) = Some t → p t = false.
Proof.
  induction l as [|x l IH]; cbn; [done|].
  destruct (p x) eqn:E; [done|]. by intros [= <-].
Qed.

Lemma last_rev {A : Type} (l : list A) : last (rev l) = head l.
Proof. destruct l as [|x l]; [done|]. cbn. by rewrite last_snoc. Qed.

Lemma head_rev {A : Type} (l : list A) : head (rev l) = last l.
Proof. rewrite <- (rev_involutive l) at 2. by rewrite last_rev. Qed.

(** What is left after removing tokens at both ends neither starts nor ends
    with a removable token, and is a run of the tokens given. *)
Lemma remove_tokens_ends tokens removable :
  (∀ t, head (remove_tokens tokens removable) = Some t → contains removable t = false)
  ∧ (∀ t, last (remove_tokens tokens removable) = Some t → contains removable t = false)
  ∧ ∃ front back, tokens = front ++ remove_tokens tokens removable ++ back.
Proof.
  unfold remove_tokens.
  set (p := contains removable).
  destruct (drop_while_suffix p tokens) as [front Hfront].
  set (kept := drop_while p tokens) in *.
  destruct (drop_while_suffix p (rev kept)) as [back Hback].
  set (inner := drop_while p (rev kept)) in *.
  assert (Hkept : kept = rev inner ++ rev back).
  { rewrite <- (rev_involutive kept), Hback. apply rev_app_distr. }
  split; [|split].
  - intros t Ht. apply (drop_while_head p tokens). fold kept. rewrite Hkept.
    destruct (rev inner); [done|]. done.
  - intros t Ht. rewrite last_rev in Ht. by apply (drop_while_head p (rev kept)).
  - exists front, (rev back). by rewrite <- Hkept.
Qed.

(** X17. The cleaned name is canonical: it is its own tokens joined by
    single spaces (no leading, trailing or doubled space), and its first and
    its last token are not removable tokens (honorifics and suffixes such as
    mr, dr, jr). *)
Theorem normalize_full_name_canonical icu_nfkd raw_input :
  let cleaned := normalize_full_name icu_nfkd raw_input in
  let tokens := string_normalization.split_all_strings cleaned " " in
  cleaned = join_tokens tokens
  ∧ (∀ t, head tokens = Some t → contains REMOVABLE_TOKENS t = false)
  ∧ (∀ t, last tokens = Some t → contains REMOVABLE_TOKENS t = false).
Proof.
  intros cleaned tokens. subst cleaned tokens. unfold normalize_full_name.
  destruct (string_empty raw_input); [done|].
  destruct (string_empty (trim raw_input)); [done|].
  set (result := collapse_spaces _).
  set (kept := remove_tokens (string_normalization.split_all_strings result " ")
                 REMOVABLE_TOKENS).
  case_bool_decide as Hkept; [done|].
  assert (Hsplit : string_normalization.split_all_strings (join_tokens kept) " " = kept).
  { apply split_all_join_tokens.
    destruct (remove_tokens_ends (string_normalization.split_all_strings result " ")
                REMOVABLE_TOKENS) as (_ & _ & front & back & Hrun).
    fold kept in Hrun.
    pose proof (split_all_strings_nonempty result " ") as Hne.
    pose proof (split_all_from_delimiter_free " " EmptyString result eq_refl) as Hfree.
    unfold string_normalization.split_all_strings, string_normalization.split_all in *.
    rewrite Hrun in Hne, Hfree.
    apply Forall_app in Hne as [_ [Hne _]%Forall_app].
    apply Forall_app in Hfree as [_ [Hfree _]%Forall_app].
    apply Forall_forall. intros t Ht. rewrite Forall_forall in Hne, Hfree. auto. }
  rewrite Hsplit. split; [done|]. subst kept. split; apply remove_tokens_ends.
Qed.


(** ** Spaces never reach the local part *)

Lemma tolower_space c : Ascii.eqb (tolower c) " " = Ascii.eqb c " ".
Proof. by destruct c as [[] [] [] [] [] [] [] []]. Qed.

Lemma count_char_to_lower_space s :
  count_char " " (string_normalization.to_lower s) = count_char " " s.
Proof. induction s as [|c s IH]; cbn; [done|]. by rewrite tolower_space, IH. Qed.

Lemma views_split_from_free c delimiter cur s :
  count_char c cur = 0%nat → count_char c s = 0%nat →
  Forall (λ t, count_char c t = 0%nat) (views_split_from delimiter cur s).
Proof.
  revert cur. induction s as [|x s IH]; intros cur Hcur Hs; cbn.
  - by repeat constructor.
  - cbn in Hs. destruct (Ascii.eqb x c) eqn:Ex; [lia|].
    destruct (Ascii.eqb x delimiter).
    + constructor; [done|]. by apply IH.
    + apply IH; [|done]. rewrite count_char_push_back, Ex. lia.
Qed.

Lemma parse_first_free c part0 :
  count_char c part0 = 0%nat →
  Forall (λ t, count_char c t = 0%nat) (parse_first part0).
Proof.
  intros Hfree. unfold parse_first. destruct (char_in part0 "-").
  - apply Forall_forall. intros t Ht%list_elem_of_In%filter_In. destruct Ht as [Ht _].
    unfold views_split in Ht. destruct (string_empty part0); [done|].
    pose proof (views_split_from_free c "-" EmptyString part0 eq_refl Hfree) as Hall.
    rewrite Forall_forall in Hall. by apply Hall, list_elem_of_In.
  - by repeat constructor.
Qed.

(** No component of a decomposed name holds a space. *)
Lemma parse_name_space_free cleaned :
  let nd := parse_name cleaned in
  Forall (λ t, count_char " " t = 0%nat) (first_names_ nd)
  ∧ Forall (λ t, count_char " " t = 0%nat) (middle_names_ nd)
  ∧ Forall (λ t, count_char " " t = 0%nat) (last_names_ nd).
Proof.
  unfold parse_name. destruct (string_empty cleaned); [by cbn|].
  pose proof (split_all_from_delimiter_free " " EmptyString cleaned eq_refl) as Hfree.
  unfold string_normalization.split_all_strings, string_normalization.split_all.
  destruct (string_normalization.split_all_from " " EmptyString cleaned) as [|part0 rest];
    [by cbn|].
  destruct (parse_rest rest [] []) as [middle last] eqn:E. cbn.
  apply Forall_cons in Hfree as [H0 Hrest].
  destruct (parse_rest_elements _ _ _ _ _ _ E Hrest) as [Hm Hl]; [done|done|].
  split; [by apply parse_first_free|done].
Qed.

Lemma resolve_from_space_free nd token_seq oss lp :
  Forall (λ t, count_char " " t = 0%nat) (first_names_ nd) →
  Forall (λ t, count_char " " t = 0%nat) (middle_names_ nd) →
  Forall (λ t, count_char " " t = 0%nat) (last_names_ nd) →
  Forall (λ token, ∀ sep, separator token = Some sep → count_char " " sep = 0%nat)
         token_seq →
  count_char " " oss = 0%nat →
  local_part_resolver.resolve_from oss nd token_seq = Returned (Some lp) →
  count_char " " lp = 0%nat.
Proof.
  intros Hf Hm Hl Hseps. revert oss.
  induction Hseps as [|token rest Hsep _ IH]; intros oss Hoss;
    cbn [local_part_resolver.resolve_from].
  - by intros [= <-].
  - destruct (separator token) as [sep|] eqn:Esep.
    { apply IH. rewrite count_char_app, (Hsep sep eq_refl). lia. }
    assert (Hstep : ∀ V, V = first_names_ nd ∨ V = middle_names_ nd ∨ V = last_names_ nd →
              match V !! index token with
              | Some raw =>
                  if use_initial token
                  then
                    match raw with
                    | EmptyString => Returned None
                    | String c _ =>
                        local_part_resolver.resolve_from
                          (oss +:+ string_normalization.to_lower
                                     (String (tolower c) EmptyString)) nd rest
                    end
                  else local_part_resolver.resolve_from
                         (oss +:+ string_normalization.to_lower raw) nd rest
              | None => Returned None
              end = Returned (Some lp) → count_char " " lp = 0%nat).
    { intros V HV. destruct (V !! index token) as [raw|] eqn:Hraw; [|done].
      assert (Hfree : count_char " " raw = 0%nat).
      { apply list_elem_of_lookup_2 in Hraw.
        destruct HV as [->|[->| ->]];
          [ by apply (proj1 (Forall_forall _ _) Hf)
          | by apply (proj1 (Forall_forall _ _) Hm)
          | by apply (proj1 (Forall_forall _ _) Hl) ]. }
      destruct (use_initial token).
      - destruct raw as [|c raw]; [done|]. apply IH.
        rewrite count_char_app. cbn. rewrite !tolower_space.
        cbn in Hfree. destruct (Ascii.eqb c " "); lia.
      - apply IH. rewrite count_char_app, count_char_to_lower_space. lia. }
    destruct (group token); cbn; [| | |done]; apply Hstep; auto.
Qed.

(** X18. The local part rendered for a decomposed name from a template the
    loader parsed holds no space: every component of the name is free of
    spaces and the separators are ".", "-" or "_". *)
Theorem local_part_has_no_space icu_nfkd raw tokens token_seq local_part :
  templates_loader.parse_token_sequence tokens = Returned token_seq →
  local_part_resolver.resolve_email_local_part (decompose icu_nfkd raw) token_seq
  = Returned (Some local_part) →
  count_char " " local_part = 0%nat.
Proof.
  intros Hparse Hresolve.
  destruct (parse_name_space_free (normalize_full_name icu_nfkd raw)) as (Hf & Hm & Hl).
  apply (resolve_from_space_free _ token_seq EmptyString _ Hf Hm Hl);
    [|done|exact Hresolve].
  clear Hresolve. apply parse_token_sequence_Forall2 in Hparse.
  induction Hparse as [|token t tokens' parsed' Ht _ IH]; constructor; [|done].
  intros sep Hsep. apply parse_token_shape in Ht.
  destruct (templates_loader.is_separator token) eqn:Eis.
  - subst t. cbn in Hsep. injection Hsep as <-.
    unfold templates_loader.is_separator in Eis.
    destruct token as [|c [|]]; [done| |done].
    cbn. destruct (Ascii.eqb c " ") eqn:Ec; [|done].
    apply Ascii.eqb_eq in Ec as ->. done.
  - destruct Ht as (Hnone & _). congruence.
Qed.

Lemma local_part_has_no_space_witness : count_char " " "j.smith" = 0%nat.
Proof.
  apply (local_part_has_no_space icu_ascii "Dr John Smith" ["f_0"; "."; "last_0"]
           [mkTemplateToken First 0 false false false false false true None;
            separator_token ".";
            mkTemplateToken Last 0 false false false false false false None]).
  - reflexivity.
  - reflexivity.
Defined.


(** ** The feature extractor *)

Lemma string_concat_cons s l :
  String.concat EmptyString (s :: l) = s +:+ String.concat EmptyString l.
Proof. destruct l; cbn [String.concat]; [by rewrite string_app_empty_r|done]. Qed.

Lemma string_length_app s1 s2 :
  String.length (s1 +:+ s2) = (String.length s1 + String.length s2)%nat.
Proof. induction s1 as [|c s1 IH]; [done|]. rewrite string_app_cons. cbn. by rewrite IH. Qed.

Lemma utf8_len_bounds c : (1 ≤ features.utf8_len c ≤ 4)%nat.
Proof.
  unfold features.utf8_len.
  repeat match goal with |- context [if ?b then _ else _] => destruct b end; lia.
Qed.

Lemma parse_utf8_chars_from_spec cur need s :
  (need = 0%nat → cur = EmptyString) →
  (0 < need → 0 < String.length cur)%nat →
  (String.length cur + need ≤ 4)%nat →
  String.concat EmptyString (features.parse_utf8_chars_from cur need s) = cur +:+ s
  ∧ Forall (λ ch, (1 ≤ String.length ch ≤ 4)%nat) (features.parse_utf8_chars_from cur need s).
Proof.
  revert cur need. induction s as [|c s IH]; intros cur need Hzero Hpos Hlen.
  - cbn. destruct cur as [|d cur]; cbn; [done|].
    rewrite string_app_empty_r. split; [done|]. constructor; [|done]. cbn in *. lia.
  - cbn [features.parse_utf8_chars_from]. destruct need as [|[|need]].
    + rewrite Hzero by done. pose proof (utf8_len_bounds c) as Hb.
      destruct (features.utf8_len c) as [|[|k]] eqn:Elen; [lia| |].
      * destruct (IH EmptyString 0%nat) as [Hc Hf]; [done|lia|cbn; lia|].
        rewrite string_concat_cons, Hc. split; [done|]. constructor; [cbn; lia|done].
      * destruct (IH (String c EmptyString) (S k)) as [Hc Hf]; [done|cbn; lia|cbn; lia|].
        by rewrite Hc.
    + destruct (IH EmptyString 0%nat) as [Hc Hf]; [done|lia|cbn; lia|].
      rewrite string_concat_cons, Hc. split; [by rewrite string_app_push_back|].
      constructor; [|done]. unfold push_back. rewrite string_length_app. cbn. lia.
    + destruct (IH (push_back cur c) (S need)) as [Hc Hf].
      * done.
      * intros _. unfold push_back. rewrite string_length_app. cbn. lia.
      * unfold push_back. rewrite string_length_app. cbn. lia.
      * by rewrite Hc, string_app_push_back.
Qed.

(** X19. [parse_utf8_chars] cuts its input into pieces of one to four bytes
    and loses nothing: the pieces put together are the input. *)
Theorem parse_utf8_chars_round_trip s :
  String.concat EmptyString (features.parse_utf8_chars s) = s
  ∧ Forall (λ ch, (1 ≤ String.length ch ≤ 4)%nat) (features.parse_utf8_chars s).
Proof. apply parse_utf8_chars_from_spec; [done|lia|cbn; lia]. Qed.

Lemma tolower_ascii c :
  (N_of_ascii c <? 128)%N = true → (N_of_ascii (tolower c) <? 128)%N = true.
Proof. by destruct c as [[] [] [] [] [] [] [] []]. Qed.

Lemma to_lower_ascii s :
  is_ascii_string s = true → is_ascii_string (string_normalization.to_lower s) = true.
Proof.
  unfold is_ascii_string. induction s as [|c s IH]; cbn; [done|].
  intros [Hc Hs]%andb_prop. by rewrite (tolower_ascii _ Hc), IH.
Qed.

Lemma utf8_len_ascii c : (N_of_ascii c <? 128)%N = true → features.utf8_len c = 1%nat.
Proof. by destruct c as [[] [] [] [] [] [] [] []]. Qed.

Lemma prefix_two_bytes a b p c :
  String.prefix (String a (String b p)) (String c EmptyString) = false.
Proof. cbn [String.prefix]. by destruct (ascii_dec a c). Qed.

(** Every pattern has two bytes: a single byte is left as it is. *)
Lemma replace_german_chars_byte c :
  string_normalization.replace_german_chars (String c EmptyString) = String c EmptyString.
Proof.
  unfold string_normalization.replace_german_chars.
  cbn [string_normalization.replace_german_chars_from
       string_normalization.GERMAN_ASCII_MAPPINGS List.find fst].
  by rewrite !prefix_two_bytes.
Qed.

Lemma has_german_characters_ascii s :
  is_ascii_string s = true →
  features.has_german_characters (features.parse_utf8_chars s) = false.
Proof.
  unfold features.parse_utf8_chars, is_ascii_string.
  induction s as [|c s IH]; cbn [features.parse_utf8_chars_from]; [done|].
  cbn [list_ascii_of_string forallb]. intros [Hc Hs]%andb_prop.
  rewrite (utf8_len_ascii _ Hc). unfold features.has_german_characters in *.
  cbn [existsb]. rewrite replace_german_chars_byte, String.eqb_refl. cbn. by apply IH.
Qed.

(** X20. For a name of ASCII bytes only, the extractor reports neither a
    German character nor an NFKD change, so which model [predict] runs
    depends on the structure of the name alone. *)
Theorem extract_ascii_flags icu_nfkd full_name :
  nfkd_fixes_ascii icu_nfkd →
  is_ascii_string full_name = true →
  features.has_german_char (features.extract icu_nfkd full_name) = false
  ∧ features.has_nfkd_normalized (features.extract icu_nfkd full_name) = false
  ∧ complex_name (decompose icu_nfkd full_name) (features.extract icu_nfkd full_name)
    = has_middle_name (decompose icu_nfkd full_name)
      || has_multiple_first_names (decompose icu_nfkd full_name)
      || has_multiple_last_names (decompose icu_nfkd full_name).
Proof.
  intros Hicu Hascii.
  assert (H : features.has_german_char (features.extract icu_nfkd full_name) = false
              ∧ features.has_nfkd_normalized (features.extract icu_nfkd full_name) = false).
  { unfold features.extract. destruct (string_empty full_name); [done|]. cbn.
    split; [by apply has_german_characters_ascii, to_lower_ascii|].
    unfold features.would_nfkd_normalize.
    rewrite nfkd_normalize_ascii by (done || by apply to_lower_ascii).
    by rewrite String.eqb_refl. }
  destruct H as [Hg Hn]. split; [done|]. split; [done|].
  unfold complex_name. rewrite Hg, Hn. by rewrite !orb_false_r.
Qed.

Lemma extract_ascii_flags_witness :
  features.has_german_char (features.extract icu_ascii "John Smith") = false
  ∧ features.has_nfkd_normalized (features.extract icu_ascii "John Smith") = false
  ∧ complex_name (decompose icu_ascii "John Smith") (features.extract icu_ascii "John Smith")
    = has_middle_name (decompose icu_ascii "John Smith")
      || has_multiple_first_names (decompose icu_ascii "John Smith")
      || has_multiple_last_names (decompose icu_ascii "John Smith").
Proof.
  apply (extract_ascii_flags icu_ascii "John Smith" icu_ascii_fixes_ascii). reflexivity.
Defined.

Lemma extract_first_token_head lower_name :
  features.extract_first_token lower_name
  = hd EmptyString (string_normalization.split_all lower_name " ").
Proof.
  unfold features.extract_first_token, string_normalization.split_all.
  induction lower_name as [|c s IH]; [done|].
  cbn [find_first_not_of string_normalization.split_all_from string_empty].
  unfold char_in. cbn [list_ascii_of_string existsb]. rewrite orb_false_r.
  destruct (Ascii.eqb c " ") eqn:Ec.
  - rewrite <- IH. destruct (find_first_not_of " " s) as [start|]; [|done]. done.
  - cbn [string_drop].
    destruct (features.find_char " " (String c s)) as [len|] eqn:Efind.
    + rewrite (split_all_from_delimiter " " (push_back EmptyString c) s
                 (len - 1)).
      2:{ cbn in Efind. rewrite Ec in Efind.
          destruct (features.find_char " " s) as [k|]; [|done].
          injection Efind as <-. f_equal. lia. }
      cbn in Efind. rewrite Ec in Efind.
      destruct (features.find_char " " s) as [k|]; [|done]. injection Efind as <-.
      replace (S k - 1)%nat with k by lia.
      change (push_back EmptyString c +:+ substring 0 k s) with (String c (substring 0 k s)).
      done.
    + cbn in Efind. rewrite Ec in Efind.
      destruct (features.find_char " " s) as [k|] eqn:Es; [done|].
      rewrite (split_all_from_no_delimiter " " _ _ Es). done.
Qed.

Lemma find_nicknames_known formal_name :
  negb (bool_decide (features.find_nicknames formal_name = []))
  = existsb (λ entry, String.eqb entry.1 formal_name) features.NICKNAME_MAPPINGS.
Proof.
  unfold features.find_nicknames.
  assert (Hall : Forall (λ entry : string * list string, entry.2 ≠ [])
                   features.NICKNAME_MAPPINGS).
  { unfold features.NICKNAME_MAPPINGS. repeat (constructor; [done|]). constructor. }
  induction Hall as [|entry entries Hentry _ IH]; [done|].
  cbn [List.find existsb]. destruct (String.eqb entry.1 formal_name); [|done].
  cbn. by rewrite bool_decide_eq_false_2.
Qed.

(** X21. The token the nickname flag looks at is the first token of the
    lowercased name as the splitter cuts it, and the flag is set exactly
    when that token is a formal name of the nickname table. *)
Theorem extract_nickname_flag icu_nfkd full_name :
  let first_token :=
    hd EmptyString
       (string_normalization.split_all (string_normalization.to_lower full_name) " ") in
  features.extract_first_token (string_normalization.to_lower full_name) = first_token
  ∧ features.has_nickname (features.extract icu_nfkd full_name)
    = existsb (λ entry, String.eqb entry.1 first_token) features.NICKNAME_MAPPINGS.
Proof.
  intros first_token. subst first_token. split; [apply extract_first_token_head|].
  unfold features.extract.
  destruct (string_empty full_name) eqn:E.
  { apply string_empty_true in E as ->. by vm_compute. }
  cbn [features.has_nickname]. rewrite extract_first_token_head.
  set (token := hd EmptyString _).
  destruct (string_empty token) eqn:Et; [|apply find_nicknames_known].
  apply string_empty_true in Et as ->. by vm_compute.
Qed.


(** ** The string normalisers *)

Lemma tolower_idempotent c : tolower (tolower c) = tolower c.
Proof. by destruct c as [[] [] [] [] [] [] [] []]. Qed.

Lemma tolower_not_upper c :
  ((65 <=? N_of_ascii (tolower c)) && (N_of_ascii (tolower c) <=? 90))%N = false.
Proof. by destruct c as [[] [] [] [] [] [] [] []]. Qed.

Lemma to_lower_twice s :
  string_normalization.to_lower (string_normalization.to_lower s)
  = string_normalization.to_lower s.
Proof. induction s as [|c s IH]; cbn; [done|]. by rewrite tolower_idempotent, IH. Qed.

(** X22. [to_lower] keeps the length of its input, leaves no byte in the
    range A to Z, and changes nothing when applied again; so a firm key
    ([normalize_firm_name]) is its own key. *)
Theorem to_lower_idempotent s :
  string_normalization.to_lower (string_normalization.to_lower s)
  = string_normalization.to_lower s
  ∧ String.length (string_normalization.to_lower s) = String.length s
  ∧ forallb (λ c, negb ((65 <=? N_of_ascii c) && (N_of_ascii c <=? 90))%N)
      (list_ascii_of_string (string_normalization.to_lower s)) = true
  ∧ normalize_firm_name (normalize_firm_name s) = normalize_firm_name s.
Proof.
  split; [apply to_lower_twice|]. split; [|split; [|apply to_lower_twice]].
  - induction s as [|c s IH]; cbn; [done|]. by rewrite IH.
  - induction s as [|c s IH]; cbn [string_normalization.to_lower list_ascii_of_string forallb];
      [done|].
    by rewrite tolower_not_upper, IH.
Qed.

Lemma strip_to_ascii_is_ascii s :
  is_ascii_string (string_normalization.strip_to_ascii s) = true.
Proof.
  unfold is_ascii_string, string_normalization.strip_to_ascii.
  induction s as [|c s IH]; cbn; [done|].
  destruct (N_of_ascii c <? 128)%N eqn:E; [|done]. cbn. by rewrite E.
Qed.

(** X23. [nfkd_normalize] returns ASCII bytes only whenever ICU succeeds,
    and normalising its result again changes nothing. *)
Theorem nfkd_normalize_stable icu_nfkd lower_name :
  nfkd_fixes_ascii icu_nfkd →
  (icu_nfkd lower_name ≠ None →
   is_ascii_string (string_normalization.nfkd_normalize icu_nfkd lower_name) = true)
  ∧ string_normalization.nfkd_normalize icu_nfkd
      (string_normalization.nfkd_normalize icu_nfkd lower_name)
    = string_normalization.nfkd_normalize icu_nfkd lower_name.
Proof.
  intros Hicu. unfold string_normalization.nfkd_normalize at 1 3 4.
  destruct (icu_nfkd lower_name) as [normalized|] eqn:E.
  - split; [intros _; apply strip_to_ascii_is_ascii|].
    apply nfkd_normalize_ascii; [done|apply strip_to_ascii_is_ascii].
  - split; [done|]. unfold string_normalization.nfkd_normalize. by rewrite E.
Qed.

Lemma nfkd_normalize_stable_witness :
  (icu_ascii "jose" ≠ None →
   is_ascii_string (string_normalization.nfkd_normalize icu_ascii "jose") = true)
  ∧ string_normalization.nfkd_normalize icu_ascii
      (string_normalization.nfkd_normalize icu_ascii "jose")
    = string_normalization.nfkd_normalize icu_ascii "jose".
Proof. exact (nfkd_normalize_stable icu_ascii "jose" icu_ascii_fixes_ascii). Defined.

(** ** Further properties of the predictors and the engine *)

(** X24. The size check does its job: as long as LightGBM reports as many
    scores as it was given rows, [predict_top_templates] never reads a
    template out of bounds, in either backend. *)
Theorem predict_top_templates_in_bounds
    (partial_sort : (TemplatePrediction → TemplatePrediction → bool) → nat →
                    list TemplatePrediction → list TemplatePrediction)
    booster calcer flat_matrix templates top_k :
  lgbm_contract booster →
  lgbm_predict_top_templates partial_sort booster flat_matrix templates top_k ≠ Undefined
  ∧ catboost_predict_top_templates partial_sort calcer flat_matrix templates top_k
    ≠ Undefined.
Proof.
  intros Hlgbm. split.
  - unfold lgbm_predict_top_templates.
    destruct (bool_decide (flat_matrix = []) || bool_decide (templates = [])); [done|].
    case_bool_decide as Hlen; [done|]. try apply dec_stable in Hlen.
    unfold lgbm_predict_scores. case_bool_decide as Hne; [by destruct templates|].
    rewrite Hlen, Nat.div_mul by done.
    destruct (booster flat_matrix (length templates) builder.FEATURES_PER_ROW)
      as [[err out_len] scores] eqn:Ecall.
    destruct (Hlgbm _ _ _ _ _ _ Ecall) as [Hbuf Hout].
    case_bool_decide as Herr; [done|]. try apply dec_stable in Herr.
    rewrite bool_decide_eq_false_2 by (intros H; by apply H, Hout). cbn.
    destruct (build_results_returns templates scores 0) as [results ->]; [lia|]. done.
  - unfold catboost_predict_top_templates.
    case_bool_decide as Hlen; [done|]. try apply dec_stable in Hlen.
    rewrite Hlen, Nat.div_mul by done.
    destruct (calcer flat_matrix (length templates) builder.FEATURES_PER_ROW)
      as [ok predictions].
    destruct ok; cbn; [|done].
    destruct (build_results_returns templates (take (length templates) predictions) 0)
      as [results ->]; [rewrite length_take; lia|]. done.
Qed.

Lemma predict_top_templates_in_bounds_witness :
  lgbm_predict_top_templates insertion_partial_sort (fixed_scores_booster tied_scores)
    sample_matrix sample_templates 2 ≠ Undefined
  ∧ catboost_predict_top_templates insertion_partial_sort (fixed_scores_calcer tied_scores)
      sample_matrix sample_templates 2 ≠ Undefined.
Proof.
  apply (predict_top_templates_in_bounds insertion_partial_sort
           (fixed_scores_booster tied_scores) (fixed_scores_calcer tied_scores)
           sample_matrix sample_templates 2).
  apply fixed_scores_booster_contract.
Defined.

(** X25. A domain passed to [predict] replaces the resolver altogether: the
    engine is returned as it was, and the rows are the same whatever
    resolver the engine holds and whatever the scorer is. With neither a
    domain nor a resolver, [predict] throws a runtime error. *)
Theorem predict_domain_source (icu_nfkd : string → option string)
    (similarity : string → string → double) e investor_name firm_name top_k :
  (∀ domain rows e',
     predict icu_nfkd similarity e investor_name firm_name top_k (Some domain)
     = Returned (rows, e') →
     e' = e
     ∧ ∀ (similarity2 : string → string → double) r,
         predict icu_nfkd similarity2 (with_resolver e r) investor_name firm_name top_k
           (Some domain)
         = Returned (rows, with_resolver e r))
  ∧ (domain_resolver_ e = None →
     predict icu_nfkd similarity e investor_name firm_name top_k None
     = Thrown runtime_error).
Proof.
  split.
  - intros domain rows e'. unfold predict. cbn.
    set (name := decompose icu_nfkd investor_name).
    set (flags := features.extract icu_nfkd investor_name).
    set (call := if complex_name name flags then _ else _).
    destruct call as [top_predictions| |]; cbn; [|done|done].
    destruct (format_results name domain top_predictions) as [results| |]; cbn; [|done|done].
    intros [= <- <-]. split; [done|]. intros similarity2 r. done.
  - intros Hnone. unfold predict, resolve_query_domain. by rewrite Hnone.
Qed.


(** ** The HTTP helper *)

Section CallApiProperties.

Context {json : Type}.
Variable perform : Z → third_party.transfer.
Variable parse : string → option json.

Lemma call_api_loop_spec max_retries remaining attempt step :
  Z.of_nat remaining = Z.max 0 (max_retries - attempt) →
  (0 ≤ step)%Z →
  let '(out, pauses) :=
    third_party.call_api_loop perform parse max_retries remaining attempt
      (Z.min (500 * 2 ^ step) 8000) in
  (length pauses ≤ remaining - 1)%nat
  ∧ pauses = (λ k, Z.min (500 * 2 ^ (step + Z.of_nat k)) 8000)%Z <$> seq 0 (length pauses)
  ∧ (∀ j, out = Some j →
       ∃ t, perform (attempt + Z.of_nat (length pauses))%Z = t
            ∧ third_party.res t = third_party.CURLE_OK
            ∧ third_party.http_code t = 200%Z
            ∧ parse (third_party.response_data t) = Some j).
Proof.
  revert attempt step.
  induction remaining as [|remaining IH]; intros attempt step Hremaining Hstep.
  - cbn. split; [lia|]. split; [done|]. by intros j [=].
  - cbn [third_party.call_api_loop].
    destruct (third_party.curl_ok (third_party.res (perform attempt))
              && (third_party.http_code (perform attempt) =? 200)%Z) eqn:Eok.
    { cbn [length]. split; [lia|]. split; [done|]. intros j Hj.
      apply andb_prop in Eok as [Hres Hcode%Z.eqb_eq].
      exists (perform attempt). rewrite Z.add_0_r. split; [done|]. split; [|done].
      by destruct (third_party.res (perform attempt)). }
    match goal with |- context [if ?b then _ else _] => destruct b eqn:Eretry end.
    2:{ cbn [length]. split; [lia|]. split; [done|]. by intros j [=]. }
    apply andb_prop in Eretry as [_ Hmore%Z.ltb_lt].
    replace (Z.min (Z.min (500 * 2 ^ step) 8000 * 2) 8000)
      with (Z.min (500 * 2 ^ (step + 1)) 8000)
      by (rewrite Z.pow_add_r by lia; lia).
    specialize (IH (attempt + 1)%Z (step + 1)%Z ltac:(lia) ltac:(lia)).
    destruct (third_party.call_api_loop perform parse max_retries remaining (attempt + 1)
                (Z.min (500 * 2 ^ (step + 1)) 8000)) as [out pauses].
    destruct IH as (Hlen & Hpauses & Hout).
    cbn [length]. split; [|split].
    + lia.
    + cbn [seq fmap list_fmap]. rewrite Z.add_0_r. f_equal.
      rewrite <- fmap_S_seq, <- list_fmap_compose. rewrite Hpauses at 1.
      apply list_fmap_ext. intros _ k _. cbn. do 3 f_equal. lia.
    + intros j Hj. destruct (Hout j Hj) as (t & Ht & Hres & Hcode & Hparse).
      exists t. split; [|done]. rewrite <- Ht. f_equal. lia.
Qed.

(** X26. [call_api] pauses fewer than [max_retries] times, for 500 ms at
    first and twice as long each time up to 8000 ms; with no handle, or
    when [max_retries] is not positive, it returns nothing at once. What
    it returns is the parsed body of an attempt answered with status 200,
    made after all the pauses. *)
Theorem call_api_backoff curl max_retries :
  let '(out, pauses) := third_party.call_api perform parse curl max_retries in
  (Z.of_nat (length pauses) ≤ Z.max 0 (max_retries - 1))%Z
  ∧ pauses = (λ k, Z.min (500 * 2 ^ Z.of_nat k) 8000)%Z <$> seq 0 (length pauses)
  ∧ (curl = false ∨ (max_retries ≤ 0)%Z → out = None ∧ pauses = [])
  ∧ (∀ j, out = Some j →
       ∃ t, perform (Z.of_nat (length pauses)) = t
            ∧ third_party.res t = third_party.CURLE_OK
            ∧ third_party.http_code t = 200%Z
            ∧ parse (third_party.response_data t) = Some j).
Proof.
  unfold third_party.call_api. destruct curl; cbn [negb].
  2:{ split; [cbn; lia|]. split; [done|]. split; [done|]. by intros j [=]. }
  pose proof (call_api_loop_spec max_retries (Z.to_nat max_retries) 0 0
                ltac:(lia) ltac:(lia)) as H.
  change (Z.min (500 * 2 ^ 0) 8000) with 500%Z in H.
  destruct (third_party.call_api_loop perform parse max_retries (Z.to_nat max_retries) 0 500)
    as [out pauses] eqn:Eloop.
  destruct H as (Hlen & Hpauses & Hout).
  split; [lia|]. split; [exact Hpauses|]. split; [|exact Hout].
  intros [[=]|Hle]. replace (Z.to_nat max_retries) with 0%nat in Eloop by lia.
  cbn in Eloop. by injection Eloop as <- <-.
Qed.

End CallApiProperties.


(** ** Transliteration of German characters *)

Lemma find_german_mapping c d r :
  List.find (λ m : string * string, String.prefix m.1 (String c (String d r)))
    string_normalization.GERMAN_ASCII_MAPPINGS
  = german_mapping c d.
Proof.
  unfold german_mapping, string_normalization.GERMAN_ASCII_MAPPINGS.
  by destruct r.
Qed.

Lemma german_mapping_facts c d m :
  german_mapping c d = Some m →
  String.length m.1 = 2%nat
  ∧ (N_of_ascii c <? 128)%N = false ∧ (N_of_ascii d <? 128)%N = false
  ∧ is_ascii_string m.2 = true ∧ string_empty m.2 = false.
Proof.
  intros [Hin Hprefix]%find_some.
  unfold string_normalization.GERMAN_ASCII_MAPPINGS in Hin. cbn [In] in Hin.
  repeat (destruct Hin as [<-|Hin];
          [ cbn [fst String.prefix] in Hprefix;
            repeat match type of Hprefix with
                   | context [ascii_dec ?a ?b] => destruct (ascii_dec a b) as [<-|]; [|done]
                   end;
            done
          | ]).
  done.
Qed.

Lemma replace_german_chars_two c d r :
  string_normalization.replace_german_chars (String c (String d r))
  = match german_mapping c d with
    | Some m => m.2 +:+ string_normalization.replace_german_chars r
    | None => String c (string_normalization.replace_german_chars (String d r))
    end.
Proof.
  unfold string_normalization.replace_german_chars.
  cbn [string_normalization.replace_german_chars_from].
  rewrite find_german_mapping.
  destruct (german_mapping c d) as [m|] eqn:E; [|done].
  destruct (german_mapping_facts _ _ _ E) as (-> & _). done.
Qed.

Lemma replace_german_chars_ascii_head a s :
  (N_of_ascii a <? 128)%N = true →
  string_normalization.replace_german_chars (String a s)
  = String a (string_normalization.replace_german_chars s).
Proof.
  intros Ha. destruct s as [|d s]; [apply replace_german_chars_byte|].
  rewrite replace_german_chars_two.
  destruct (german_mapping a d) as [m|] eqn:E; [|done].
  destruct (german_mapping_facts _ _ _ E) as (_ & Hc & _). congruence.
Qed.

Lemma replace_german_chars_ascii_app t s :
  is_ascii_string t = true →
  string_normalization.replace_german_chars (t +:+ s)
  = t +:+ string_normalization.replace_german_chars s.
Proof.
  unfold is_ascii_string. induction t as [|a t IH]; [done|].
  cbn [list_ascii_of_string forallb]. intros [Ha Ht]%andb_prop.
  rewrite !string_app_cons, replace_german_chars_ascii_head by done. by rewrite IH.
Qed.

(** What the output starts with: the first byte of the input, or an ASCII
    byte of a replacement. *)
Lemma replace_german_chars_head d r :
  ∃ h tl, string_normalization.replace_german_chars (String d r) = String h tl
          ∧ (h = d ∨ (N_of_ascii h <? 128)%N = true).
Proof.
  destruct r as [|e r].
  - rewrite replace_german_chars_byte. eauto.
  - rewrite replace_german_chars_two.
    destruct (german_mapping d e) as [m|] eqn:E; [|eauto].
    destruct (german_mapping_facts _ _ _ E) as (_ & _ & _ & Hascii & Hne).
    destruct m.2 as [|h tl]; [done|]. rewrite string_app_cons.
    eexists _, _. split; [done|]. right.
    unfold is_ascii_string in Hascii. cbn in Hascii. by apply andb_prop in Hascii as [? _].
Qed.

Lemma replace_german_chars_idempotent_bounded n s :
  (String.length s ≤ n)%nat →
  string_normalization.replace_german_chars (string_normalization.replace_german_chars s)
  = string_normalization.replace_german_chars s.
Proof.
  revert s. induction n as [|n IH]; intros s Hlen.
  { destruct s; [done|cbn in Hlen; lia]. }
  destruct s as [|c [|d r]]; [done|by rewrite !replace_german_chars_byte|].
  cbn in Hlen. rewrite replace_german_chars_two.
  destruct (german_mapping c d) as [m|] eqn:E.
  - destruct (german_mapping_facts _ _ _ E) as (_ & _ & _ & Hascii & _).
    rewrite replace_german_chars_ascii_app by done. rewrite IH by lia. done.
  - destruct (replace_german_chars_head d r) as (h & tl & Hhead & Hh).
    pose proof (IH (String d r) ltac:(cbn; lia)) as Hrec.
    rewrite Hhead in *. rewrite replace_german_chars_two.
    assert (german_mapping c h = None) as ->.
    { destruct Hh as [->|Hh]; [done|].
      destruct (german_mapping c h) as [m|] eqn:E'; [|done].
      destruct (german_mapping_facts _ _ _ E') as (_ & _ & Hd & _). congruence. }
    by rewrite Hrec.
Qed.

(** X27. Replacing the German characters twice is the same as replacing
    them once, and a string of ASCII bytes is left as it is. *)
Theorem replace_german_chars_idempotent s :
  string_normalization.replace_german_chars (string_normalization.replace_german_chars s)
  = string_normalization.replace_german_chars s
  ∧ (is_ascii_string s = true → string_normalization.replace_german_chars s = s).
Proof.
  split; [by apply (replace_german_chars_idempotent_bounded (String.length s))|].
  intros Hascii. rewrite <- (string_app_empty_r s) at 1.
  rewrite replace_german_chars_ascii_app by done. apply string_app_empty_r.
Qed.


(** ** The loaded cache *)

Lemma string_empty_to_lower s :
  string_empty (string_normalization.to_lower s) = string_empty s.
Proof. by destruct s. Qed.

Lemma cache_rows_spec rows (out0 out_cache : gmap string (string * CacheEntry)) :
  firm_tables.cache_rows rows out0 = Some out_cache →
  ∀ key domain entry, out_cache !! key = Some (domain, entry) →
    out0 !! key = Some (domain, entry)
    ∨ (string_empty domain = false
       ∧ string_empty (canonical_firm entry) = false
       ∧ normalize_firm_name (canonical_firm entry) = canonical_firm entry
       ∧ normalize_firm_name key = key).
Proof.
  revert out0. induction rows as [|[raw_firm_key value_obj] rows IH]; intros out0;
    cbn [firm_tables.cache_rows].
  - intros [= <-]. auto.
  - destruct value_obj as [rec|]; [|done]. cbn.
    destruct (firm_tables.get_str (firm_tables.domain_field rec)) as [domain0|]; [|done].
    destruct (firm_tables.get_str (firm_tables.canonical_firm_field rec))
      as [canonical0|]; [|done].
    destruct (firm_tables.get_double (firm_tables.match_score_field rec))
      as [score0|]; [|done].
    cbn.
    destruct (string_empty domain0) eqn:Ed; [apply IH|].
    destruct (string_empty canonical0) eqn:Ec; [apply IH|]. cbn [orb].
    intros H key domain entry Hlookup.
    destruct (IH _ H key domain entry Hlookup) as [Hin|?]; [|by right].
    destruct (decide (normalize_firm_name raw_firm_key = key)) as [<-|Hne].
    + rewrite lookup_insert_eq in Hin. injection Hin as <- <-. right. cbn.
      unfold normalize_firm_name. rewrite string_empty_to_lower, !to_lower_twice. done.
    + rewrite lookup_insert_ne in Hin by done. by left.
Qed.

(** X28. In a resolver just built from its two files, a firm name that is
    not in the directory but in the cache resolves to the cached domain and
    canonical firm and to the cached score cut to its integral part, when
    that is a value of [int], and leaves the resolver as it was; the cached
    domain and canonical firm are never empty, and the canonical firm is in
    lower case. *)
Theorem loaded_cache_resolves (similarity : string → string → double)
    canonical_file cache_file r raw_firm_name domain entry score :
  firm_tables.make_resolver canonical_file cache_file = Returned r →
  domain_resolver.firm_to_domain_ r !! normalize_firm_name raw_firm_name = None →
  domain_resolver.firm_cache_ r !! normalize_firm_name raw_firm_name
  = Some (domain, entry) →
  double_trunc (match_score entry) = Some score →
  (- 2 ^ 31 ≤ score < 2 ^ 31)%Z →
  domain_resolver.resolve_domain similarity r raw_firm_name
  = Returned ((domain, canonical_firm entry, score), r)
  ∧ string_empty domain = false
  ∧ string_empty (canonical_firm entry) = false
  ∧ normalize_firm_name (canonical_firm entry) = canonical_firm entry.
Proof.
  intros Hmake Hdir Hcache Htrunc Hfits. split.
  { unfold domain_resolver.resolve_domain. rewrite Hdir, Hcache.
    unfold double_to_int, int_fits, INT_MIN. rewrite Htrunc.
    destruct (Z.leb_spec (- 2 ^ 31) score); [|lia].
    destruct (Z.ltb_spec score (2 ^ 31)); [done|lia]. }
  revert Hmake. unfold firm_tables.make_resolver.
  destruct (firm_tables.load_canonical_firm_msgpack canonical_file) as [[] dir]; [|done].
  cbn. unfold firm_tables.load_firm_cache_msgpack.
  destruct cache_file as [rows|]; [|done].
  destruct (firm_tables.cache_rows rows ∅) as [cache|] eqn:Erows; [|done].
  cbn. intros [= <-]. cbn in Hcache.
  destruct (cache_rows_spec _ _ _ Erows _ _ _ Hcache) as [E|(H1 & H2 & H3 & _)];
    [by rewrite lookup_empty in E|done].
Qed.

Lemma loaded_cache_resolves_witness :
  domain_resolver.resolve_domain sample_similarity
    (domain_resolver.mkDomainResolver ∅
       {["acme cap" := ("acme.com", mkCacheEntry "acme capital" (double_of_Z 91))]})
    "ACME Cap"
  = Returned (("acme.com", "acme capital", 91%Z),
              domain_resolver.mkDomainResolver ∅
                {["acme cap" := ("acme.com", mkCacheEntry "acme capital" (double_of_Z 91))]})
  ∧ string_empty "acme.com" = false
  ∧ string_empty "acme capital" = false
  ∧ normalize_firm_name "acme capital" = "acme capital".
Proof.
  apply (loaded_cache_resolves sample_similarity (Some [])
           (Some [("Acme Cap",
                   Some (firm_tables.mkCacheRecord (firm_tables.StringValue "acme.com")
                           (firm_tables.StringValue "Acme Capital")
                           (firm_tables.NumberValue (double_of_Z 91))))])
           (domain_resolver.mkDomainResolver ∅
              {["acme cap" := ("acme.com", mkCacheEntry "acme capital" (double_of_Z 91))]})
           "ACME Cap" "acme.com" (mkCacheEntry "acme capital" (double_of_Z 91)) 91%Z).
  - reflexivity.
  - reflexivity.
  - reflexivity.
  - reflexivity.
  - lia.
Defined.

(** ** The whole query, for templates the loader parsed *)

Lemma format_results_returns name domain_string top_predictions :
  Forall (λ pred, ∃ tokens, templates_loader.parse_token_sequence tokens
                            = Returned (token_seq (metadata pred))) top_predictions →
  ∃ results, format_results name domain_string top_predictions = Returned results.
Proof.
  induction 1 as [|pred rest (tokens & Hparse) _ (results & IH)]; cbn; [eauto|].
  assert (Hgrp : Forall token_has_group (token_seq (metadata pred))).
  { apply parse_token_sequence_Forall2 in Hparse.
    induction Hparse as [|token t tokens' parsed' Ht _ IH']; constructor; [|done].
    intros Hsep. apply parse_token_shape in Ht.
    destruct (templates_loader.is_separator token); [by subst|].
    by destruct Ht as (_ & Hg & _). }
  destruct (resolve_from_returns name _ EmptyString Hgrp) as [r Hr].
  unfold local_part_resolver.resolve_email_local_part. rewrite Hr, IH. cbn.
  destruct r; eauto.
Qed.

Section WholeQuery.

Variable partial_sort :
  (TemplatePrediction → TemplatePrediction → bool) → nat →
  list TemplatePrediction → list TemplatePrediction.
Hypothesis partial_sort_ok : partial_sort_contract partial_sort.

(** The LightGBM predictor on the matrix built for its own templates: it
    returns predictions for some of these templates, or the model fails. *)
Lemma lgbm_on_built_rows booster name flags firm_name templates firm_stats usage_map top_k :
  lgbm_contract booster →
  (∃ res,
     lgbm_predict_top_templates partial_sort booster
       (builder.build_feature_rows name flags firm_name templates firm_stats usage_map)
       templates top_k = Returned res
     ∧ Forall (λ pred, metadata pred ∈ templates) res)
  ∨ lgbm_predict_top_templates partial_sort booster
      (builder.build_feature_rows name flags firm_name templates firm_stats usage_map)
      templates top_k = Thrown runtime_error.
Proof.
  intros Hlgbm. unfold lgbm_predict_top_templates.
  set (flat_matrix := builder.build_feature_rows _ _ _ _ _ _).
  assert (Hlen : length flat_matrix = (length templates * builder.FEATURES_PER_ROW)%nat).
  { subst flat_matrix. rewrite build_feature_rows_concat.
    rewrite (length_concat_fixed_width 27).
    - rewrite length_map. unfold builder.FEATURES_PER_ROW. lia.
    - change (map ?f templates) with (f <$> templates).
      apply Forall_fmap, Forall_true. by intros tmpl. }
  destruct (bool_decide (flat_matrix = []) || bool_decide (templates = [])) eqn:Eempty.
  { left. exists []. split; [done|constructor]. }
  apply orb_false_elim in Eempty as [Hne%bool_decide_eq_false _].
  rewrite bool_decide_eq_false_2 by (intros H; by apply H).
  unfold lgbm_predict_scores. rewrite bool_decide_eq_false_2 by done.
  rewrite Hlen, Nat.div_mul by done.
  destruct (booster flat_matrix (length templates) builder.FEATURES_PER_ROW)
    as [[err out_len] scores] eqn:Ecall.
  destruct (Hlgbm _ _ _ _ _ _ Ecall) as [Hbuf Hout].
  case_bool_decide as Herr; [by right|]. try apply dec_stable in Herr.
  rewrite bool_decide_eq_false_2 by (intros H; by apply H, Hout). cbn.
  destruct (build_results_returns templates scores 0) as [results Hres]; [lia|].
  rewrite Hres. cbn. left. eexists. split; [done|].
  destruct (build_results_rows _ _ _ _ Hres) as (_ & _ & Hmeta).
  destruct (select_top_rows partial_sort partial_sort_ok results top_k) as (_ & Hsub).
  apply Forall_forall. intros pred Hpred.
  rewrite Forall_forall in Hmeta.
  destruct (Hmeta pred) as [Hlookup _]; [by eapply elem_of_submseteq|].
  by eapply list_elem_of_lookup_2.
Qed.

(** X29. For an engine whose two models are LightGBM predictors and whose
    templates the loader parsed, a query with a domain either returns rows
    and leaves the engine as it was, or fails with the runtime error of a
    failed model call: it never reads out of bounds, never fails the size
    check and never fails to render. *)
Theorem predict_with_domain_returns (icu_nfkd : string → option string)
    (similarity : string → string → double) booster_std booster_complex
    e investor_name firm_name top_k domain :
  lgbm_contract booster_std →
  lgbm_contract booster_complex →
  std_predictor_ e = lgbm_predict_top_templates partial_sort booster_std →
  complex_predictor_ e = lgbm_predict_top_templates partial_sort booster_complex →
  Forall (λ tmpl, ∃ tokens, templates_loader.parse_token_sequence tokens
                            = Returned (token_seq tmpl))
         (std_templates_ e ++ complex_templates_ e) →
  (∃ rows, predict icu_nfkd similarity e investor_name firm_name top_k (Some domain)
           = Returned (rows, e))
  ∨ predict icu_nfkd similarity e investor_name firm_name top_k (Some domain)
    = Thrown runtime_error.
Proof.
  intros Hstd Hcomplex Estd Ecomplex Hparsed.
  apply Forall_app in Hparsed as [Hparsed_std Hparsed_complex].
  unfold predict. cbn. rewrite Estd, Ecomplex.
  set (name := decompose icu_nfkd investor_name).
  set (flags := features.extract icu_nfkd investor_name).
  assert (Hcall : ∀ booster templates,
            lgbm_contract booster →
            Forall (λ tmpl, ∃ tokens, templates_loader.parse_token_sequence tokens
                                      = Returned (token_seq tmpl)) templates →
            (∃ rows,
               (lgbm_predict_top_templates partial_sort booster
                  (builder.build_feature_rows name flags firm_name templates
                     (firm_stats_ e) (firm_usage_map_ e)) templates top_k
                ≫= λ top_predictions,
                     format_results name domain top_predictions
                     ≫= λ results,
                          Returned (post_process e investor_name firm_name results, e))
               = Returned (rows, e))
            ∨ (lgbm_predict_top_templates partial_sort booster
                 (builder.build_feature_rows name flags firm_name templates
                    (firm_stats_ e) (firm_usage_map_ e)) templates top_k
               ≫= λ top_predictions,
                    format_results name domain top_predictions
                    ≫= λ results,
                         Returned (post_process e investor_name firm_name results, e))
              = Thrown runtime_error).
  { intros booster templates Hbooster Htemplates.
    destruct (lgbm_on_built_rows booster name flags firm_name templates
                (firm_stats_ e) (firm_usage_map_ e) top_k Hbooster)
      as [(res & -> & Hres)| ->]; [|by right].
    cbn. destruct (format_results_returns name domain res) as [results ->].
    { apply Forall_forall. intros pred Hpred.
      rewrite Forall_forall in Hres. rewrite Forall_forall in Htemplates.
      by apply Htemplates, Hres. }
    cbn. left. eauto. }
  destruct (complex_name name flags); by apply Hcall.
Qed.

End WholeQuery.

Lemma predict_with_domain_returns_witness :
  (∃ rows, predict icu_ascii sample_similarity sample_engine "John Smith" "acme" 3
             (Some "acme.com") = Returned (rows, sample_engine))
  ∨ predict icu_ascii sample_similarity sample_engine "John Smith" "acme" 3
      (Some "acme.com") = Thrown runtime_error.
Proof.
  apply (predict_with_domain_returns insertion_partial_sort insertion_partial_sort_contract
           icu_ascii sample_similarity (fixed_scores_booster []) (fixed_scores_booster [])
           sample_engine "John Smith" "acme" 3 "acme.com").
  - apply fixed_scores_booster_contract.
  - apply fixed_scores_booster_contract.
  - reflexivity.
  - reflexivity.
  - repeat constructor; by exists ["first_original_0"; "."; "last_original_0"].
Defined.
